(** * adresu-kit: the stateful policy filters

    A shallow embedding of the stateful filters of [policy/]:
    [RepostAbuseFilter], [EmergencyFilter], [RateLimiterFilter] and
    [EphemeralChatFilter], together with the address normalisation helper
    [normalizeIPWithOptionalPrefixes].  The second part of the file has
    further properties of these filters, and the filters without state:
    [KindFilter], [SizeFilter], [FreshnessFilter], [TagsFilter] and
    [KeywordFilter].

    Conventions.
    - Go [int] is a 64-bit two's complement integer: the counters that
      live across calls are [Z]s passed through [int64] after every
      addition; counts bounded by the length of one content are plain [Z]s.
    - Go [float64] is Rocq's primitive binary64 [float]; the conversion
      [float64(n)] is [float_of_int].
    - [time.Time] is a number of nanoseconds counted from the zero instant
      ([time.Time{}]), [time.Duration] a number of nanoseconds.  The clock
      is an argument: one reading per locked section of
      [RepostAbuseFilter.Match], one reading per call of the other filters.
    - Go strings are [string]s (sequences of bytes).
    - A filter is a record holding its caches; [Match] takes the filter and
      returns the verdict with the filter after the call.
    - A [*rate.Limiter] is a location in a heap of limiter states, and the
      calls made on limiters are logged in the order the code makes them. *)

From Stdlib Require Import ZArith List String Ascii Bool Lia.
From Stdlib Require Import PrimFloat Uint63 SpecFloat FloatOps FloatAxioms.
From stdpp Require Import base option list gmap strings pretty.

Local Open Scope Z_scope.

(** ** Machine integers, floats, time *)

Definition int64 (z : Z) : Z := (z + 2 ^ 63) mod 2 ^ 64 - 2 ^ 63.

Definition maxInt : Z := 2 ^ 63 - 1.

Definition int_add (a b : Z) : Z := int64 (a + b).

(** [float64(z)] for an [int] [z] above [-2^63]. *)
Definition float_of_int (z : Z) : float :=
  if z <? 0 then PrimFloat.opp (PrimFloat.of_uint63 (Uint63.of_Z (- z)))
  else PrimFloat.of_uint63 (Uint63.of_Z z).

Definition Time : Type := Z.
Definition Duration : Type := Z.

Definition IsZero (t : Time) : bool := t =? 0.

(** [time.Since(t)] read at the instant [now]. *)
Definition Since (now t : Time) : Duration := now - t.

Definition Nanosecond : Duration := 1.
Definition Millisecond : Duration := 1000000.
Definition Second : Duration := 1000000000.
Definition Minute : Duration := 60 * Second.
Definition Hour : Duration := 60 * Minute.

Lemma int64_id z : - 2 ^ 63 <= z < 2 ^ 63 -> int64 z = z.
Proof.
  intros Hz. unfold int64.
  rewrite Z.mod_small by lia. lia.
Qed.

Lemma int_add_small a b :
  0 <= a -> 0 <= b -> a + b <= maxInt -> int_add a b = a + b.
Proof.
  unfold int_add, maxInt. intros Ha Hb Hab. apply int64_id. lia.
Qed.



(** ** Events and request metadata *)

(** The fields of [nostr.Event] the filters read. *)
Record Event : Type := mkEvent {
  Kind : Z;
  PubKey : string;
  Content : string;
  Tags : list (list string)
}.

Definition KindTextNote : Z := 1.
Definition KindRepost : Z := 6.
Definition KindGenericRepost : Z := 16.

(** A value of Go's [any], as far as the filters tell values apart. *)
Inductive Any : Type :=
  | AnyString (s : string)
  | AnyInt (z : Z)
  | AnyBool (b : bool)
  | AnyNil.

(** [meta["remote_ip"].(string)] with the comma-ok form: the string and
    whether the entry is present and holds a string. *)
Definition remote_ip_of (meta : gmap string Any) : string * bool :=
  match meta !! "remote_ip"%string with
  | Some (AnyString s) => (s, true)
  | _ => (""%string, false)
  end.

(** A verdict: [(true, nil)] or [(false, err)]. *)
Definition Verdict (E : Type) : Type := (bool * option E)%type.

Definition allowed {E} : Verdict E := (true, None).
Definition rejected {E} (e : E) : Verdict E := (false, Some e).

(** ** The expirable LRU cache

    Modelled from the spec: [github.com/hashicorp/golang-lru/v2/expirable]
    is a dependency whose source is not part of the repository.  The model
    follows section 4.1: a fixed capacity, recency order, an absolute
    expiry set from a fixed TTL at insertion or update, [Get] reporting an
    expired entry as absent, and the least recently used entry evicted
    when an insertion exceeds the capacity.  The front of [items] is the
    most recently used entry.  A capacity of 0 means no bound. *)
Module LRU.

Record Entry (V : Type) : Type := mkEntry {
  ekey : string;
  evalue : V;
  expiresAt : Time
}.
Arguments mkEntry {V}.
Arguments ekey {V}.
Arguments evalue {V}.
Arguments expiresAt {V}.

Record t (V : Type) : Type := mk {
  size : Z;
  ttl : Duration;
  items : list (Entry V)
}.
Arguments mk {V}.
Arguments size {V}.
Arguments ttl {V}.
Arguments items {V}.

Definition noEvictionTTL : Duration := Hour * 24 * 365 * 10.

Definition NewLRU (V : Type) (sz : Z) (d : Duration) : t V :=
  {| size := if sz <? 0 then 0 else sz;
     ttl := if d <=? 0 then noEvictionTTL else d;
     items := [] |}.

Section Ops.
Context {V : Type}.

Fixpoint find (k : string) (l : list (Entry V)) : option (Entry V) :=
  match l with
  | [] => None
  | e :: l' => if String.eqb (ekey e) k then Some e else find k l'
  end.

Fixpoint remove (k : string) (l : list (Entry V)) : list (Entry V) :=
  match l with
  | [] => []
  | e :: l' => if String.eqb (ekey e) k then remove k l' else e :: remove k l'
  end.

Definition with_items (c : t V) (l : list (Entry V)) : t V :=
  {| size := size c; ttl := ttl c; items := l |}.

(** [Get]: an entry that is present and not expired is moved to the
    front and its value returned. *)
Definition Get (c : t V) (k : string) (now : Time) : option V * t V :=
  match find k (items c) with
  | None => (None, c)
  | Some e =>
      if expiresAt e <? now then (None, c)
      else (Some (evalue e), with_items c (e :: remove k (items c)))
  end.

(** [Add]: update in place (moved to the front, expiry renewed) or
    insert at the front, evicting the oldest entry over capacity. *)
Definition Add (c : t V) (k : string) (v : V) (now : Time) : t V :=
  let e := mkEntry k v (now + ttl c) in
  match find k (items c) with
  | Some _ => with_items c (e :: remove k (items c))
  | None =>
      let l := e :: items c in
      if (0 <? size c) && (size c <? Z.of_nat (length l))
      then with_items c (removelast l)
      else with_items c l
  end.

(** The value physically held for [k], expired or not. *)
Definition Lookup (c : t V) (k : string) : option V :=
  evalue <$> find k (items c).

(** A write through the pointer held by the entry of [k]: the value
    changes, recency and expiry do not. *)
Definition Poke (c : t V) (k : string) (v : V) : t V :=
  with_items c
    (map (fun e => if String.eqb (ekey e) k
                   then mkEntry (ekey e) v (expiresAt e) else e) (items c)).

Lemma find_key k l e : find k l = Some e -> String.eqb (ekey e) k = true.
Proof.
  induction l as [|x l IH]; simpl; [done|].
  destruct (String.eqb (ekey x) k) eqn:E; [|done].
  intros [= <-]. done.
Qed.

Lemma find_remove_same k l : find k (remove k l) = None.
Proof.
  induction l as [|e l IH]; simpl; [done|].
  destruct (String.eqb (ekey e) k) eqn:E; simpl; [done|].
  by rewrite E.
Qed.

Lemma find_remove_other k k' l :
  k <> k' -> find k' (remove k l) = find k' l.
Proof.
  intros Hne. induction l as [|e l IH]; simpl; [done|].
  destruct (String.eqb (ekey e) k) eqn:E; simpl.
  - apply String.eqb_eq in E.
    destruct (String.eqb (ekey e) k') eqn:E'; [|done].
    apply String.eqb_eq in E'. congruence.
  - by rewrite IH.
Qed.

Lemma Lookup_Add_same c k v now : Lookup (Add c k v now) k = Some v.
Proof.
  unfold Lookup, Add.
  destruct (find k (items c)) eqn:F; simpl.
  - by rewrite String.eqb_refl.
  - destruct ((0 <? size c) && (size c <? Z.of_nat (S (length (items c))))) eqn:B;
      simpl.
    + destruct (items c) as [|e' l'] eqn:I.
      * apply andb_true_iff in B as [B1%Z.ltb_lt B2%Z.ltb_lt].
        simpl in B2. lia.
      * simpl. by rewrite String.eqb_refl.
    + by rewrite String.eqb_refl.
Qed.

Lemma Get_size c k now : size (snd (Get c k now)) = size c.
Proof.
  unfold Get. destruct (find k (items c)); [|done].
  by destruct (expiresAt e <? now).
Qed.

Lemma Get_miss_same c k now : fst (Get c k now) = None -> snd (Get c k now) = c.
Proof.
  unfold Get. destruct (find k (items c)); [|done].
  by destruct (expiresAt e <? now).
Qed.
Lemma find_In k l e : find k l = Some e -> In e l.
Proof.
  induction l as [|x l IH]; simpl; [done|].
  destruct (String.eqb (ekey x) k); [|by auto].
  intros [= <-]. by left.
Qed.

Lemma Forall_remove (P : Entry V -> Prop) k l : Forall P l -> Forall P (remove k l).
Proof.
  induction 1 as [|x l Hx Hl IH]; simpl; [constructor|].
  destruct (String.eqb (ekey x) k); [done|by constructor].
Qed.

Lemma Forall_removelast (P : Entry V -> Prop) l : Forall P l -> Forall P (removelast l).
Proof.
  induction 1 as [|x l Hx Hl IH]; simpl; [constructor|].
  destruct l; [constructor|by constructor].
Qed.

Lemma Get_found c k now v :
  fst (Get c k now) = Some v -> exists e, In e (items c) /\ evalue e = v.
Proof.
  unfold Get. destruct (find k (items c)) as [e|] eqn:F; [|done].
  destruct (expiresAt e <? now); [done|]. intros [= <-].
  exists e. split; [by eapply find_In|done].
Qed.

Lemma Get_items (P : Entry V -> Prop) c k now :
  Forall P (items c) -> Forall P (items (snd (Get c k now))).
Proof.
  intros HP. unfold Get. destruct (find k (items c)) as [e|] eqn:F; [|done].
  destruct (expiresAt e <? now); [done|]. simpl.
  constructor; [|by apply Forall_remove].
  rewrite Forall_forall in HP. by apply HP, list_elem_of_In, (find_In k).
Qed.

Lemma Add_items (P : Entry V -> Prop) c k v now :
  (forall t, P (mkEntry k v t)) -> Forall P (items c) ->
  Forall P (items (Add c k v now)).
Proof.
  intros Hv HP. unfold Add. destruct (find k (items c)); simpl.
  - constructor; [done|by apply Forall_remove].
  - match goal with |- context [if ?b then _ else _] => destruct b end; simpl.
    + apply (Forall_removelast P (_ :: _)). by constructor.
    + by constructor.
Qed.

End Ops.

End LRU.

(** ** RepostAbuseFilter ([policy/repost_abuse_filter.go]) *)
Module Repost.

Record UserActivityStats : Type := mkStats {
  OriginalPosts : Z;
  Reposts : Z;
  LastEventTime : Time
}.

(** [&UserActivityStats{}] *)
Definition zeroStats : UserActivityStats := mkStats 0 0 0.

(** The fields of [config.RepostAbuseFilterConfig] the filter reads. *)
Record RepostAbuseFilterConfig : Type := mkConfig {
  Enabled : bool;
  MinEvents : Z;
  MaxRatio : float;
  ResetDuration : Duration;
  CountRejectAsActivity : bool;
  RequireNIP21InQuote : bool;
  CacheSize : Z;
  CacheTTL : Duration
}.

(** The cache holds pointers to the statistics; every pointer is created
    in [Match] and stored under one key only, so an entry holds the
    statistics themselves and a write through the pointer is [LRU.Poke]. *)
Record RepostAbuseFilter : Type := mkFilter {
  stats : LRU.t UserActivityStats;
  cfg : RepostAbuseFilterConfig
}.

(** The rejection of [Match], with the two numbers its message prints. *)
Inductive RepostError : Type :=
  | ErrTooManyReposts (ratioPercent limitPercent : float).

Definition clampRatio (r : float) : float :=
  if PrimFloat.ltb r 0 then 0%float
  else if PrimFloat.ltb 1 r then 1%float
  else r.

Definition NewRepostAbuseFilter (c : RepostAbuseFilterConfig) : RepostAbuseFilter :=
  {| stats := LRU.NewLRU UserActivityStats (CacheSize c) (CacheTTL c);
     cfg := {| Enabled := Enabled c;
               MinEvents := MinEvents c;
               MaxRatio := clampRatio (MaxRatio c);
               ResetDuration := ResetDuration c;
               CountRejectAsActivity := CountRejectAsActivity c;
               RequireNIP21InQuote := RequireNIP21InQuote c;
               CacheSize := CacheSize c;
               CacheTTL := CacheTTL c |} |}.

(** *** Classification *)

Definition byte_in (lo hi c : ascii) : bool :=
  (N_of_ascii lo <=? N_of_ascii c)%N && (N_of_ascii c <=? N_of_ascii hi)%N.

Definition lower_ascii (c : ascii) : ascii :=
  if byte_in "A" "Z" c then ascii_of_N (N_of_ascii c + 32) else c.

(** [strings.EqualFold] on ASCII letters.  Go folds all of Unicode; the
    only caller passes the tag name [q], which folds to [q] and [Q] only. *)
Fixpoint EqualFold (a b : string) : bool :=
  match a, b with
  | EmptyString, EmptyString => true
  | String x a', String y b' =>
      Ascii.eqb (lower_ascii x) (lower_ascii y) && EqualFold a' b'
  | _, _ => false
  end.

Fixpoint hasTagIn (tags : list (list string)) (tagName : string) : bool :=
  match tags with
  | [] => false
  | t :: rest =>
      match t with
      | t0 :: _ => if EqualFold t0 tagName then true else hasTagIn rest tagName
      | [] => hasTagIn rest tagName
      end
  end.

Definition hasTag (ev : Event) (tagName : string) : bool :=
  hasTagIn (Tags ev) tagName.

(** [\w] of the regular expression syntax: ASCII letters, digits and [_]. *)
Definition is_word (c : ascii) : bool :=
  byte_in "0" "9" c || byte_in "A" "Z" c || byte_in "a" "z" c || Ascii.eqb c "_".

(** The class [[0-9a-z]]. *)
Definition is_ref_char (c : ascii) : bool :=
  byte_in "0" "9" c || byte_in "a" "z" c.

Fixpoint strip_prefix (p s : string) : option string :=
  match p with
  | EmptyString => Some s
  | String x p' =>
      match s with
      | String y s' => if Ascii.eqb x y then strip_prefix p' s' else None
      | EmptyString => None
      end
  end.

(** The longest run of [[0-9a-z]] at the head of [s]: its length and what
    follows it. *)
Fixpoint span_ref (s : string) : nat * string :=
  match s with
  | String c s' =>
      if is_ref_char c then let '(n, r) := span_ref s' in (S n, r)
      else (O, s)
  | EmptyString => (O, s)
  end.

Definition ref_prefix (s : string) : option string :=
  match strip_prefix "naddr1" s with
  | Some r => Some r
  | None =>
      match strip_prefix "nevent1" s with
      | Some r => Some r
      | None => strip_prefix "note1" s
      end
  end.

(** [(naddr1|nevent1|note1)[0-9a-z]+\b] matched at the head of [s].  A run
    of [[0-9a-z]] ends at a word boundary only where the whole run ends,
    and there only if no word character follows. *)
Definition ref_here (s : string) : bool :=
  match ref_prefix s with
  | Some r =>
      let '(n, rest) := span_ref r in
      negb (Nat.eqb n 0) &&
      match rest with
      | String c _ => negb (is_word c)
      | EmptyString => true
      end
  | None => false
  end.

(** The search for a match: the leading [\b] holds where the previous
    character is not a word character. *)
Fixpoint ref_scan (prev_word : bool) (s : string) : bool :=
  match s with
  | EmptyString => false
  | String c s' => (negb prev_word && ref_here s) || ref_scan (is_word c) s'
  end.

(** [nip21Re.MatchString(s)] *)
Definition contentHasNIP21Ref (s : string) : bool := ref_scan false s.

Definition isRepostNIP18 (c : RepostAbuseFilterConfig) (ev : Event) : bool * string :=
  if Kind ev =? KindRepost then (true, "kind6"%string)
  else if Kind ev =? 16 then (true, "kind16"%string)
  else if Kind ev =? KindTextNote then
    if hasTag ev "q" then
      if negb (RequireNIP21InQuote c) || contentHasNIP21Ref (Content ev)
      then (true, "quote1"%string)
      else (false, ""%string)
    else (false, ""%string)
  else (false, ""%string).

(** *** Match *)

(** The inactivity reset both locked sections apply to the statistics they
    read. *)
Definition resetIfIdle (c : RepostAbuseFilterConfig) (now : Time)
    (s : UserActivityStats) : UserActivityStats :=
  if (0 <? ResetDuration c) && negb (IsZero (LastEventTime s)) then
    if ResetDuration c <? Since now (LastEventTime s)
    then mkStats 0 0 (LastEventTime s)
    else s
  else s.

(** The first locked section, at the instant [now]: [statsCopy] and the
    filter after it.  The reset is written through the cached pointer. *)
Definition snapshot (f : RepostAbuseFilter) (pk : string) (now : Time)
    : UserActivityStats * RepostAbuseFilter :=
  match LRU.Get (stats f) pk now with
  | (None, c) => (zeroStats, mkFilter c (cfg f))
  | (Some s, c) =>
      let s' := resetIfIdle (cfg f) now s in
      (s', mkFilter (LRU.Poke c pk s') (cfg f))
  end.

(** The decision between the two sections: [rejectionError]. *)
Definition decide (c : RepostAbuseFilterConfig) (isRepost : bool)
    (statsCopy : UserActivityStats) : option RepostError :=
  if isRepost then
    let total := int_add (OriginalPosts statsCopy) (Reposts statsCopy) in
    if MinEvents c <=? total then
      let predictedReposts := int_add (Reposts statsCopy) 1 in
      let predictedTotal := int_add total 1 in
      let currentRatio :=
        if 0 <? predictedTotal
        then PrimFloat.div (float_of_int predictedReposts) (float_of_int predictedTotal)
        else 0%float in
      if PrimFloat.leb (MaxRatio c) currentRatio
      then Some (ErrTooManyReposts (PrimFloat.mul currentRatio 100)
                                   (PrimFloat.mul (MaxRatio c) 100))
      else None
    else None
  else None.

(** The statistics the second section stores. *)
Definition updated (c : RepostAbuseFilterConfig) (isRepost : bool)
    (rejectionError : option RepostError) (now : Time)
    (fresh : UserActivityStats) : UserActivityStats :=
  let fresh := resetIfIdle c now fresh in
  let fresh :=
    if negb (bool_decide (is_Some rejectionError)) || CountRejectAsActivity c
    then mkStats (OriginalPosts fresh) (Reposts fresh) now
    else fresh in
  match rejectionError with
  | None =>
      if isRepost
      then mkStats (OriginalPosts fresh) (int_add (Reposts fresh) 1) (LastEventTime fresh)
      else mkStats (int_add (OriginalPosts fresh) 1) (Reposts fresh) (LastEventTime fresh)
  | Some _ => fresh
  end.

(** The second locked section, at the instant [now]. *)
Definition commit (f : RepostAbuseFilter) (pk : string) (isRepost : bool)
    (rejectionError : option RepostError) (now : Time) : RepostAbuseFilter :=
  let '(o, c) := LRU.Get (stats f) pk now in
  let fresh := match o with Some s => s | None => zeroStats end in
  mkFilter (LRU.Add c pk (updated (cfg f) isRepost rejectionError now fresh) now)
           (cfg f).

Definition tracked (ev : Event) : bool :=
  (Kind ev =? KindTextNote) || (Kind ev =? KindRepost) || (Kind ev =? KindGenericRepost).

(** [Match]; [t1] is the clock of the first locked section and [t2] that
    of the second. *)
Definition Match (f : RepostAbuseFilter) (ev : Event) (t1 t2 : Time)
    : Verdict RepostError * RepostAbuseFilter :=
  if negb (Enabled (cfg f)) then (allowed, f)
  else if negb (tracked ev) then (allowed, f)
  else
    let '(statsCopy, f1) := snapshot f (PubKey ev) t1 in
    let isRepost := fst (isRepostNIP18 (cfg f) ev) in
    let rejectionError := decide (cfg f) isRepost statsCopy in
    let f2 := commit f1 (PubKey ev) isRepost rejectionError t2 in
    match rejectionError with
    | Some e => (rejected e, f2)
    | None => (allowed, f2)
    end.

(** The statistics of [pk] as a decision at [now] reads them. *)
Definition current_stats (f : RepostAbuseFilter) (pk : string) (now : Time)
    : UserActivityStats :=
  fst (snapshot f pk now).

(** The statistics held for [pk] after a call. *)
Definition stored_stats (f : RepostAbuseFilter) (pk : string)
    : option UserActivityStats :=
  LRU.Lookup (stats f) pk.

Definition stats_in_range (s : UserActivityStats) : Prop :=
  0 <= OriginalPosts s /\ 0 <= Reposts s /\ OriginalPosts s + Reposts s < maxInt.

(** *** Supporting facts *)

Lemma isRepost_tracked c ev :
  fst (isRepostNIP18 c ev) = true -> tracked ev = true.
Proof.
  unfold isRepostNIP18, tracked, KindGenericRepost.
  destruct (Kind ev =? KindRepost); [by rewrite orb_true_r|].
  destruct (Kind ev =? 16); [by rewrite orb_true_r|].
  destruct (Kind ev =? KindTextNote); done.
Qed.

Lemma snapshot_cfg f pk now : cfg (snd (snapshot f pk now)) = cfg f.
Proof.
  unfold snapshot. by destruct (LRU.Get (stats f) pk now) as [[s|] c].
Qed.

(** The verdict of an enabled filter on a tracked event is the decision
    taken on the statistics read at [t1]. *)
Lemma Match_verdict f ev t1 t2 :
  Enabled (cfg f) = true -> tracked ev = true ->
  fst (Match f ev t1 t2) =
    match decide (cfg f) (fst (isRepostNIP18 (cfg f) ev))
                 (current_stats f (PubKey ev) t1) with
    | Some e => rejected e
    | None => allowed
    end.
Proof.
  intros He Ht. unfold Match, current_stats. rewrite He, Ht. simpl.
  destruct (snapshot f (PubKey ev) t1) as [sc f1]. simpl.
  by destruct (decide _ _ sc).
Qed.

Lemma Match_state f ev t1 t2 :
  Enabled (cfg f) = true -> tracked ev = true ->
  snd (Match f ev t1 t2) =
    commit (snd (snapshot f (PubKey ev) t1)) (PubKey ev)
           (fst (isRepostNIP18 (cfg f) ev))
           (decide (cfg f) (fst (isRepostNIP18 (cfg f) ev))
                   (current_stats f (PubKey ev) t1)) t2.
Proof.
  intros He Ht. unfold Match, current_stats. rewrite He, Ht. simpl.
  destruct (snapshot f (PubKey ev) t1) as [sc f1]. simpl.
  by destruct (decide _ _ sc).
Qed.

Lemma resetIfIdle_twice c t1 t2 s :
  t1 <= t2 -> resetIfIdle c t2 (resetIfIdle c t1 s) = resetIfIdle c t2 s.
Proof.
  intros Hle. unfold resetIfIdle at 2.
  destruct ((0 <? ResetDuration c) && negb (IsZero (LastEventTime s))) eqn:G; [|done].
  destruct (ResetDuration c <? Since t1 (LastEventTime s)) eqn:R1; [|done].
  unfold resetIfIdle. simpl. rewrite G.
  assert ((ResetDuration c <? Since t2 (LastEventTime s)) = true) as ->; [|done].
  apply Z.ltb_lt in R1. apply Z.ltb_lt. unfold Since in *. lia.
Qed.

Lemma Get_Poke_front {V} (c : LRU.t V) e l k v now :
  String.eqb (LRU.ekey e) k = true ->
  fst (LRU.Get (LRU.Poke (LRU.with_items c (e :: l)) k v) k now) =
    if LRU.expiresAt e <? now then None else Some v.
Proof.
  intros K. unfold LRU.Get, LRU.Poke. simpl. rewrite K. simpl. rewrite K. simpl.
  by destruct (LRU.expiresAt e <? now).
Qed.

(** What the second section reads is what a decision at [t2] would have
    read before the call: the first section only moves the entry to the
    front and writes a reset that the second would apply as well. *)
Lemma commit_reads f pk isRepost rej t1 t2 :
  t1 <= t2 ->
  let fresh :=
    match fst (LRU.Get (stats f) pk t2) with
    | Some s => s
    | None => zeroStats
    end in
  let after := stored_stats (commit (snd (snapshot f pk t1)) pk isRepost rej t2) pk in
  (after = Some (updated (cfg f) isRepost rej t2 fresh)) \/
  (after = Some (updated (cfg f) isRepost rej t2 (resetIfIdle (cfg f) t1 fresh))).
Proof.
  intros Hle fresh after. subst fresh after. unfold commit, stored_stats.
  destruct (LRU.Get (stats (snd (snapshot f pk t1))) pk t2) as [o c] eqn:G2.
  simpl. rewrite LRU.Lookup_Add_same, snapshot_cfg.
  assert (o = fst (LRU.Get (stats (snd (snapshot f pk t1))) pk t2)) as ->
    by (by rewrite G2).
  clear G2 c. unfold snapshot.
  destruct (LRU.Get (stats f) pk t1) as [[s|] c1] eqn:G1; simpl.
  - unfold LRU.Get in G1.
    destruct (LRU.find pk (LRU.items (stats f))) as [e|] eqn:F; [|done].
    destruct (LRU.expiresAt e <? t1) eqn:X; [done|].
    injection G1 as <- <-.
    rewrite Get_Poke_front by (by eapply LRU.find_key).
    unfold LRU.Get. rewrite F.
    destruct (LRU.expiresAt e <? t2); simpl; [left|right]; reflexivity.
  - pose proof (LRU.Get_miss_same (stats f) pk t1) as M.
    rewrite G1 in M. simpl in M. rewrite M by done. left; reflexivity.
Qed.

Lemma updated_reset_absorb c isRepost rej t1 t2 s :
  t1 <= t2 ->
  updated c isRepost rej t2 (resetIfIdle c t1 s) = updated c isRepost rej t2 s.
Proof.
  intros Hle. unfold updated. by rewrite resetIfIdle_twice.
Qed.

Lemma commit_stored f pk isRepost rej t1 t2 :
  t1 <= t2 ->
  stored_stats (commit (snd (snapshot f pk t1)) pk isRepost rej t2) pk =
    Some (updated (cfg f) isRepost rej t2
            (match fst (LRU.Get (stats f) pk t2) with
             | Some s => s
             | None => zeroStats
             end)).
Proof.
  intros Hle.
  destruct (commit_reads f pk isRepost rej t1 t2 Hle) as [H|H]; simpl in H;
    rewrite H; [done|].
  by rewrite updated_reset_absorb.
Qed.

Lemma current_stats_unfold f pk now :
  current_stats f pk now =
    match fst (LRU.Get (stats f) pk now) with
    | Some s => resetIfIdle (cfg f) now s
    | None => zeroStats
    end.
Proof.
  unfold current_stats, snapshot.
  by destruct (LRU.Get (stats f) pk now) as [[s|] c].
Qed.

Lemma resetIfIdle_zero c now : resetIfIdle c now zeroStats = zeroStats.
Proof.
  unfold resetIfIdle, zeroStats, IsZero. simpl.
  by rewrite andb_false_r.
Qed.

(** The statistics stored by an enabled filter for a tracked event, from
    those a decision at [t2] reads before the call. *)
Lemma Match_stored f ev t1 t2 :
  Enabled (cfg f) = true -> tracked ev = true -> t1 <= t2 ->
  let cur := current_stats f (PubKey ev) t2 in
  let isRepost := fst (isRepostNIP18 (cfg f) ev) in
  let rej := decide (cfg f) isRepost (current_stats f (PubKey ev) t1) in
  stored_stats (snd (Match f ev t1 t2)) (PubKey ev) =
    Some (match rej with
          | None =>
              if isRepost
              then mkStats (OriginalPosts cur) (int_add (Reposts cur) 1) t2
              else mkStats (int_add (OriginalPosts cur) 1) (Reposts cur) t2
          | Some _ =>
              if CountRejectAsActivity (cfg f)
              then mkStats (OriginalPosts cur) (Reposts cur) t2
              else cur
          end).
Proof.
  intros He Ht Hle cur isRepost rej.
  rewrite Match_state by done. rewrite commit_stored by done.
  fold isRepost. fold rej. f_equal.
  subst cur. rewrite current_stats_unfold.
  unfold updated.
  destruct (fst (LRU.Get (stats f) (PubKey ev) t2)) as [s|].
  - destruct rej; simpl.
    + by destruct (CountRejectAsActivity (cfg f)).
    + by destruct isRepost.
  - rewrite resetIfIdle_zero. destruct rej; simpl.
    + by destruct (CountRejectAsActivity (cfg f)).
    + by destruct isRepost.
Qed.

Lemma decide_original c s : decide c false s = None.
Proof. done. Qed.


(** The counters a section reads are those held for the identity, or
    zero: zero when nothing is held, when the entry has expired, or when
    the identity has been idle for longer than [ResetDuration]. *)
Lemma current_stats_origin f pk now :
  let cur := current_stats f pk now in
  (exists s, stored_stats f pk = Some s /\
             OriginalPosts cur = OriginalPosts s /\ Reposts cur = Reposts s /\
             LastEventTime cur = LastEventTime s) \/
  (OriginalPosts cur = 0 /\ Reposts cur = 0).
Proof.
  intros cur. subst cur. rewrite current_stats_unfold.
  unfold stored_stats, LRU.Lookup, LRU.Get.
  destruct (LRU.find pk (LRU.items (stats f))) as [e|]; simpl; [|by right].
  destruct (LRU.expiresAt e <? now); simpl; [by right|].
  unfold resetIfIdle.
  destruct ((0 <? ResetDuration (cfg f)) && negb (IsZero (LastEventTime (LRU.evalue e))));
    [|left; by eexists].
  destruct (ResetDuration (cfg f) <? Since now (LastEventTime (LRU.evalue e)));
    [by right|left; by eexists].
Qed.


Lemma NewRepostAbuseFilter_MaxRatio c :
  MaxRatio (cfg (NewRepostAbuseFilter c)) = clampRatio (MaxRatio c).
Proof. done. Qed.






Lemma leb_nan_r x y : Prim2SF y = S754_nan -> PrimFloat.leb x y = false.
Proof.
  intros Hy. rewrite leb_spec. unfold SFleb. rewrite Hy.
  by destruct (Prim2SF x) as [[|]|[|]| |[|] m e].
Qed.


(** *** Properties of [Match] *)


(** C6. For an enabled filter, a tracked event and a clock that does not
    run backwards, let [cur] be the statistics of the identity as read at
    the update: the counters held for it, or zero after expiry or
    inactivity.  On a rejection the stored counters are those of [cur]
    and the stored timestamp is the instant of the update if
    [CountRejectAsActivity] is set and that of [cur] otherwise.  On an
    acceptance exactly one counter is one more than in [cur] ([Reposts]
    for a repost, [OriginalPosts] otherwise) and the stored timestamp is
    the instant of the update. *)
Theorem Match_side_effects f ev t1 t2 :
  Enabled (cfg f) = true -> tracked ev = true -> t1 <= t2 ->
  stats_in_range (current_stats f (PubKey ev) t2) ->
  let cur := current_stats f (PubKey ev) t2 in
  let isRepost := fst (isRepostNIP18 (cfg f) ev) in
  ((exists s, stored_stats f (PubKey ev) = Some s /\
              OriginalPosts cur = OriginalPosts s /\ Reposts cur = Reposts s /\
              LastEventTime cur = LastEventTime s) \/
   (OriginalPosts cur = 0 /\ Reposts cur = 0)) /\
  exists after,
    stored_stats (snd (Match f ev t1 t2)) (PubKey ev) = Some after /\
    (fst (fst (Match f ev t1 t2)) = false ->
       OriginalPosts after = OriginalPosts cur /\
       Reposts after = Reposts cur /\
       LastEventTime after =
         (if CountRejectAsActivity (cfg f) then t2 else LastEventTime cur)) /\
    (fst (fst (Match f ev t1 t2)) = true ->
       OriginalPosts after = (if isRepost then OriginalPosts cur else OriginalPosts cur + 1) /\
       Reposts after = (if isRepost then Reposts cur + 1 else Reposts cur) /\
       LastEventTime after = t2).
Proof.
  intros He Ht Hle (Ho & Hr & Hsum) cur isRepost.
  split; [apply current_stats_origin|].
  pose proof (Match_stored f ev t1 t2 He Ht Hle) as Hst. simpl in Hst.
  rewrite Match_verdict by done. rewrite Hst.
  fold cur isRepost in Hst |- *.
  eexists. split; [reflexivity|].
  destruct (decide (cfg f) isRepost (current_stats f (PubKey ev) t1)) as [e|]; simpl.
  - split; [intros _|done].
    by destruct (CountRejectAsActivity (cfg f)).
  - split; [done|intros _].
    fold cur in Ho, Hr, Hsum.
    destruct isRepost; simpl;
      rewrite int_add_small by (unfold maxInt in *; lia); done.
Qed.

(** C9. With [RequireNIP21InQuote] set, a kind-1 event that carries a [q]
    tag and whose content has no NIP-21 reference is classified as an
    original post; an enabled filter accepts it whatever the statistics of
    the identity are, and stores [OriginalPosts] one higher with [Reposts]
    unchanged. *)
Theorem quote_without_ref_is_original f ev t1 t2 :
  Enabled (cfg f) = true ->
  Kind ev = KindTextNote -> hasTag ev "q" = true ->
  RequireNIP21InQuote (cfg f) = true ->
  contentHasNIP21Ref (Content ev) = false ->
  t1 <= t2 ->
  stats_in_range (current_stats f (PubKey ev) t2) ->
  let cur := current_stats f (PubKey ev) t2 in
  isRepostNIP18 (cfg f) ev = (false, ""%string) /\
  fst (Match f ev t1 t2) = allowed /\
  stored_stats (snd (Match f ev t1 t2)) (PubKey ev) =
    Some (mkStats (OriginalPosts cur + 1) (Reposts cur) t2).
Proof.
  intros He Hk Hq Hn Hc Hle (Ho & Hr & Hsum) cur.
  assert (isRepostNIP18 (cfg f) ev = (false, ""%string)) as Hcl.
  { unfold isRepostNIP18. by rewrite Hk, Hq, Hn, Hc. }
  assert (tracked ev = true) as Ht.
  { unfold tracked. by rewrite Hk. }
  split; [done|].
  pose proof (Match_stored f ev t1 t2 He Ht Hle) as Hst. simpl in Hst.
  rewrite Match_verdict by done. rewrite Hst, Hcl. simpl.
  split; [done|]. fold cur in Ho, Hr, Hsum |- *.
  by rewrite int_add_small by (unfold maxInt in *; lia).
Qed.

(** *** The example of section 8 of the specification

    [MinEvents = 5], [MaxRatio = 0.5], an identity with 4 original posts
    and no repost, which then only reposts. *)

Definition exampleConfig : RepostAbuseFilterConfig :=
  {| Enabled := true; MinEvents := 5; MaxRatio := 0.5;
     ResetDuration := 0; CountRejectAsActivity := false;
     RequireNIP21InQuote := true; CacheSize := 16; CacheTTL := Hour |}.

Definition exampleFilter : RepostAbuseFilter :=
  let f := NewRepostAbuseFilter exampleConfig in
  mkFilter (LRU.Add (stats f) "alice" (mkStats 4 0 100) 100) (cfg f).

Definition exampleRepost : Event := mkEvent 6 "alice" "" [].

Definition exampleQuote : Event :=
  mkEvent 1 "alice" "look at this" [["q"; "abcd"]%string].

(** The filter after [n] reposts in a row, one per nanosecond. *)
Fixpoint afterReposts (n : nat) : RepostAbuseFilter :=
  match n with
  | O => exampleFilter
  | S m => snd (Match (afterReposts m) exampleRepost (200 + Z.of_nat m) (200 + Z.of_nat m))
  end.

Example example_reposts :
  map (fun n => fst (fst (Match (afterReposts n) exampleRepost
                               (200 + Z.of_nat n) (200 + Z.of_nat n))))
      [0; 1; 2; 3; 4]%nat
  = [true; true; true; false; false] /\
  stored_stats (afterReposts 5) "alice" = Some (mkStats 4 3 202).
Proof. by vm_compute. Qed.






Lemma Match_side_effects_witness :
  exists after,
    stored_stats (snd (Match exampleFilter exampleRepost 200 300)) "alice" = Some after /\
    OriginalPosts after = 4 /\ Reposts after = 1 /\ LastEventTime after = 300.
Proof.
  assert (Enabled (cfg exampleFilter) = true) as H1 by reflexivity.
  assert (tracked exampleRepost = true) as H2 by reflexivity.
  assert (200 <= 300) as H3 by lia.
  assert (stats_in_range (current_stats exampleFilter (PubKey exampleRepost) 300)) as H4
    by (unfold stats_in_range, maxInt; simpl; lia).
  destruct (Match_side_effects exampleFilter exampleRepost 200 300 H1 H2 H3 H4)
    as (_ & after & Hst & _ & Hok).
  exists after. split; [exact Hst|].
  apply Hok. reflexivity.
Defined.

Lemma quote_without_ref_is_original_witness :
  isRepostNIP18 (cfg exampleFilter) exampleQuote = (false, ""%string) /\
  fst (Match exampleFilter exampleQuote 200 300) = allowed /\
  stored_stats (snd (Match exampleFilter exampleQuote 200 300)) "alice" =
    Some (mkStats 5 0 300).
Proof.
  assert (stats_in_range (current_stats exampleFilter (PubKey exampleQuote) 300)) as H
    by (unfold stats_in_range, maxInt; simpl; lia).
  exact (quote_without_ref_is_original exampleFilter exampleQuote 200 300
           eq_refl eq_refl eq_refl eq_refl eq_refl ltac:(lia) H).
Defined.

End Repost.

(** ** Rate limiters and the objects the filters point to

    [golang.org/x/time/rate] is a dependency.  The filters only create
    limiters and call [Allow] on them, so they are written over any type
    of limiter states with these two operations; [Allow] takes the reading
    of the clock it makes. *)
Class RateLimiter (L : Type) : Type := {
  NewLimiter : float -> Z -> L;
  Allow : L -> Time -> bool * L
}.

(** Modelled from the spec: the token bucket of section 4.2, which stands
    for [rate.Limiter]: [burst] initial and maximum tokens, a lazy refill
    of [rate] tokens per second capped at [burst], and one token consumed
    by a successful [allow]. *)
Record TokenBucket : Type := mkBucket {
  tb_rate : float;
  tb_burst : Z;
  tb_tokens : float;
  tb_last : Time
}.

Definition newTokenBucket (r : float) (b : Z) : TokenBucket :=
  mkBucket r b (float_of_int b) 0.

Definition allowTokenBucket (lim : TokenBucket) (now : Time) : bool * TokenBucket :=
  let elapsed := if now <? tb_last lim then 0 else now - tb_last lim in
  let refill := PrimFloat.mul (PrimFloat.div (float_of_int elapsed) 1000000000) (tb_rate lim) in
  let tokens := PrimFloat.add (tb_tokens lim) refill in
  let tokens := if PrimFloat.ltb (float_of_int (tb_burst lim)) tokens
                then float_of_int (tb_burst lim) else tokens in
  if PrimFloat.leb 1 tokens
  then (true, mkBucket (tb_rate lim) (tb_burst lim) (PrimFloat.sub tokens 1) now)
  else (false, lim).

#[export] Instance tokenBucketLimiter : RateLimiter TokenBucket :=
  {| NewLimiter := newTokenBucket; Allow := allowTokenBucket |}.

(** The first property of section 8, for two tokens per second and a
    burst of three: three calls at once succeed, the fourth fails, and
    half a second later exactly one more succeeds. *)
Example tokenBucket_burst :
  let l0 := newTokenBucket 2 3 in
  let '(a1, l1) := allowTokenBucket l0 1000 in
  let '(a2, l2) := allowTokenBucket l1 1000 in
  let '(a3, l3) := allowTokenBucket l2 1000 in
  let '(a4, l4) := allowTokenBucket l3 1000 in
  let '(a5, l5) := allowTokenBucket l4 (1000 + 500 * Millisecond) in
  let '(a6, l6) := allowTokenBucket l5 (1000 + 500 * Millisecond) in
  [a1; a2; a3; a4; a5; a6] = [true; true; true; false; true; false].
Proof. by vm_compute. Qed.

(** A [*rate.Limiter] is a location in a heap of limiter states. *)
Definition loc : Type := nat.

(** The calls a filter makes on limiters, in the order it makes them. *)
Inductive Effect : Type :=
  | LimiterFound (key : string) (l : loc)
  | LimiterCreated (key : string) (l : loc)
  | LimiterAllow (l : loc) (ok : bool).

Record World (L : Type) : Type := mkWorld {
  heap : list L;
  log : list Effect
}.
Arguments mkWorld {L}.
Arguments heap {L}.
Arguments log {L}.

(** The outcome of code that may dereference a nil pointer. *)
Inductive Result (A : Type) : Type :=
  | Ok (a : A)
  | Panic.
Arguments Ok {A}.
Arguments Panic {A}.

Section Limiters.
Context {L : Type} `{RateLimiter L}.

#[local] Instance limiter_inhabited : Inhabited L :=
  populate (NewLimiter 0%float 0).

Definition emit (w : World L) (e : Effect) : World L :=
  mkWorld (heap w) (log w ++ [e]).

(** [rate.NewLimiter(r, b)]: a fresh location. *)
Definition allocLimiter (w : World L) (r : float) (b : Z) : loc * World L :=
  (length (heap w), mkWorld (heap w ++ [NewLimiter r b]) (log w)).

(** [lim.Allow()] through the pointer [l]. *)
Definition allowAt (w : World L) (l : loc) (now : Time) : bool * World L :=
  let '(ok, lim) := Allow (heap w !!! l) now in
  (ok, mkWorld (<[l := lim]> (heap w)) (log w ++ [LimiterAllow l ok])).

(** The get-or-create sequence of the three filters that keep limiters in
    a cache: [Get], and on a miss [NewLimiter] followed by [Add]. *)
Definition getOrCreate (c : LRU.t loc) (w : World L) (key : string)
    (r : float) (b : Z) (now : Time) : loc * LRU.t loc * World L :=
  match LRU.Get c key now with
  | (Some l, c') => (l, c', emit w (LimiterFound key l))
  | (None, c') =>
      let '(l, w') := allocLimiter w r b in
      (l, LRU.Add c' key l now, emit w' (LimiterCreated key l))
  end.

Lemma allowAt_log w l now :
  log (snd (allowAt w l now)) = log w ++ [LimiterAllow l (fst (allowAt w l now))].
Proof. unfold allowAt. by destruct (Allow (heap w !!! l) now). Qed.

Lemma allowAt_other w l now l' :
  l' <> l -> heap (snd (allowAt w l now)) !! l' = heap w !! l'.
Proof.
  intros Hne. unfold allowAt. destruct (Allow (heap w !!! l) now). simpl.
  by apply list_lookup_insert_ne.
Qed.

Lemma getOrCreate_old c w key r b now l' :
  (l' < length (heap w))%nat ->
  heap (snd (getOrCreate c w key r b now)) !! l' = heap w !! l'.
Proof.
  intros Hlt. unfold getOrCreate.
  destruct (LRU.Get c key now) as [[l|] c']; simpl; [done|].
  by apply lookup_app_l.
Qed.

Lemma getOrCreate_installed c w key r b now :
  LRU.Lookup (snd (fst (getOrCreate c w key r b now))) key =
    Some (fst (fst (getOrCreate c w key r b now))).
Proof.
  unfold getOrCreate, LRU.Get.
  destruct (LRU.find key (LRU.items c)) as [e|] eqn:F; simpl.
  - destruct (LRU.expiresAt e <? now); simpl.
    + by rewrite LRU.Lookup_Add_same.
    + unfold LRU.Lookup. simpl.
      by rewrite (LRU.find_key _ _ _ F).
  - by rewrite LRU.Lookup_Add_same.
Qed.

(** What a get-or-create does to the world: one [LimiterFound] or
    [LimiterCreated] logged, and no limiter that existed is touched. *)
Lemma getOrCreate_world c w key r b now :
  let l := fst (fst (getOrCreate c w key r b now)) in
  let w' := snd (getOrCreate c w key r b now) in
  (exists e, (e = LimiterFound key l \/ e = LimiterCreated key l) /\
             log w' = log w ++ [e]) /\
  (forall l', (l' < length (heap w))%nat -> heap w' !! l' = heap w !! l').
Proof.
  intros l w'. split.
  - subst l w'. unfold getOrCreate.
    destruct (LRU.Get c key now) as [[l|] c']; simpl; eauto.
  - intros l' Hl'. by apply getOrCreate_old.
Qed.

(** *** What the calls on the cache and on a limiter do

    In terms of the operations of the two libraries only.
    [lookedUpOrCreated c w key r b now l c' w']: [key] is looked up in the
    cache [c]; on a hit [l] is the limiter the cache holds, nothing is
    made and [LimiterFound] is logged; on a miss [l] is a new limiter
    made from [r] and [b], it is added to the cache under [key] and
    [LimiterCreated] is logged.  [c'] and [w'] are the cache and the
    world after that. *)
Definition lookedUpOrCreated (c : LRU.t loc) (w : World L) (key : string)
    (r : float) (b : Z) (now : Time) (l : loc) (c' : LRU.t loc) (w' : World L) : Prop :=
  match fst (LRU.Get c key now) with
  | Some held =>
      l = held /\ c' = snd (LRU.Get c key now) /\
      heap w' = heap w /\ log w' = log w ++ [LimiterFound key l]
  | None =>
      l = length (heap w) /\ c' = LRU.Add (snd (LRU.Get c key now)) key l now /\
      heap w' = heap w ++ [NewLimiter r b] /\
      log w' = log w ++ [LimiterCreated key l]
  end.

(** [asked w l now ok w']: [Allow] is called once on the limiter [l], in
    the state it has in [w]; [ok] is its answer, [w'] has the limiter in
    the state the call leaves and the call logged, and no other limiter
    is touched. *)
Definition asked (w : World L) (l : loc) (now : Time) (ok : bool) (w' : World L) : Prop :=
  ok = fst (Allow (heap w !!! l) now) /\
  heap w' = <[l := snd (Allow (heap w !!! l) now)]> (heap w) /\
  log w' = log w ++ [LimiterAllow l ok].

Lemma getOrCreate_exact c w key r b now :
  lookedUpOrCreated c w key r b now
    (fst (fst (getOrCreate c w key r b now)))
    (snd (fst (getOrCreate c w key r b now)))
    (snd (getOrCreate c w key r b now)).
Proof.
  unfold lookedUpOrCreated, getOrCreate.
  by destruct (LRU.Get c key now) as [[l|] c'].
Qed.

Lemma allowAt_exact w l now :
  asked w l now (fst (allowAt w l now)) (snd (allowAt w l now)).
Proof. unfold asked, allowAt. by destruct (Allow (heap w !!! l) now). Qed.

Lemma asked_other w l now ok w' l' :
  asked w l now ok w' -> l' <> l -> heap w' !! l' = heap w !! l'.
Proof. intros (_ & -> & _) Hne. by apply list_lookup_insert_ne. Qed.

Lemma world_eq (w w' : World L) : heap w = heap w' -> log w = log w' -> w = w'.
Proof. destruct w, w'. simpl. by intros -> ->. Qed.

End Limiters.

(** ** RateLimiterFilter ([policy/rate_limiter_filter.go]) *)
Module RateLimit.

(** The values of [config.RateLimiterConfig.By] the filter tells apart:
    the three constants of the [switch], and any other value. *)
Inductive RateBy : Type :=
  | RateByIP
  | RateByPubKey
  | RateByBoth
  | RateByOther.

Record RateLimitRule : Type := mkRule {
  Description : string;
  Kinds : list Z;
  Rate : float;
  Burst : Z
}.

Record RateLimiterConfig : Type := mkConfig {
  Enabled : bool;
  By : RateBy;
  DefaultRate : float;
  DefaultBurst : Z;
  Rules : list RateLimitRule;
  CacheSize : Z;
  TTL : Duration
}.

Record processedRateRule : Type := mkProcessed {
  rule : RateLimitRule;
  id : string
}.

Record RateLimiterFilter : Type := mkFilter {
  cfg : RateLimiterConfig;
  limiters : LRU.t loc;
  kindToRule : gmap Z processedRateRule
}.

(** The inner loop of the constructor: every kind of the rule is mapped
    to it, replacing an earlier rule for the same kind. *)
Fixpoint addKinds (kinds : list Z) (p : processedRateRule)
    (m : gmap Z processedRateRule) : gmap Z processedRateRule :=
  match kinds with
  | [] => m
  | k :: rest => addKinds rest p (<[k := p]> m)
  end.

(** The outer loop, from the rule of index [i] on. *)
Fixpoint addRules (i : nat) (rules : list RateLimitRule)
    (m : gmap Z processedRateRule) : gmap Z processedRateRule :=
  match rules with
  | [] => m
  | r :: rest =>
      addRules (S i) rest
        (addKinds (Kinds r) (mkProcessed r ("rule-" +:+ pretty (Z.of_nat i))) m)
  end.

Definition NewRateLimiterFilter (c : RateLimiterConfig) : RateLimiterFilter :=
  let size := if CacheSize c <=? 0 then 65536 else CacheSize c in
  let ttl := if TTL c <=? 0 then Minute * 10 else TTL c in
  {| cfg := c;
     limiters := LRU.NewLRU loc size ttl;
     kindToRule := addRules 0 (Rules c) ∅ |}.

(** The rate, burst, identifier and description [Match] resolves for a
    kind. *)
Definition resolve (f : RateLimiterFilter) (kind : Z)
    : float * Z * string * string :=
  match kindToRule f !! kind with
  | Some processed =>
      (Rate (rule processed), Burst (rule processed), id processed,
       Description (rule processed))
  | None =>
      (DefaultRate (cfg f), DefaultBurst (cfg f), "default"%string, "default"%string)
  end.

Definition ipKey (remoteIP : string) : list string :=
  if String.eqb remoteIP "" then [] else ["ip:" +:+ remoteIP].

Definition pkKey (pk : string) : list string :=
  if String.eqb pk "" then [] else ["pk:" +:+ pk].

(** [userKeys] after the [switch]. *)
Definition userKeys (by_ : RateBy) (remoteIP pk : string) : list string :=
  match by_ with
  | RateByIP => ipKey remoteIP
  | RateByPubKey => pkKey pk
  | RateByBoth => ipKey remoteIP ++ pkKey pk
  | RateByOther => []
  end.

(** [fmt.Sprintf("%s:%s", ruleID, userKey)] *)
Definition cacheKey (ruleID userKey : string) : string :=
  ruleID +:+ ":" +:+ userKey.

(** [fmt.Errorf("blocked: rate limit exceeded for %s", ruleDescription)] *)
Definition rateLimitError (ruleDescription : string) : string :=
  "blocked: rate limit exceeded for " +:+ ruleDescription.

Section WithLimiter.
Context {L : Type} `{RateLimiter L}.

Definition getLimiter (f : RateLimiterFilter) (w : World L) (key : string)
    (r : float) (b : Z) (now : Time) : loc * RateLimiterFilter * World L :=
  let '(l, c, w') := getOrCreate (limiters f) w key r b now in
  (l, mkFilter (cfg f) c (kindToRule f), w').

(** The loop over [userKeys]. *)
Fixpoint checkKeys (keys : list string) (f : RateLimiterFilter) (w : World L)
    (ruleID ruleDescription : string) (r : float) (b : Z) (now : Time)
    : Verdict string * RateLimiterFilter * World L :=
  match keys with
  | [] => (allowed, f, w)
  | userKey :: rest =>
      let '(l, f1, w1) := getLimiter f w (cacheKey ruleID userKey) r b now in
      let '(ok, w2) := allowAt w1 l now in
      if ok then checkKeys rest f1 w2 ruleID ruleDescription r b now
      else (rejected (rateLimitError ruleDescription), f1, w2)
  end.

Definition Match (f : RateLimiterFilter) (w : World L) (event : Event)
    (meta : gmap string Any) (now : Time)
    : Verdict string * RateLimiterFilter * World L :=
  if negb (Enabled (cfg f)) then (allowed, f, w)
  else
    let '(currentRate, currentBurst, ruleID, ruleDescription) :=
      resolve f (Kind event) in
    if PrimFloat.leb currentRate 0 then (allowed, f, w)
    else
      let remoteIP := fst (remote_ip_of meta) in
      checkKeys (userKeys (By (cfg f)) remoteIP (PubKey event)) f w
                ruleID ruleDescription currentRate currentBurst now.

Lemma getLimiter_eq f w key r b now :
  getLimiter f w key r b now =
    (fst (fst (getOrCreate (limiters f) w key r b now)),
     mkFilter (cfg f) (snd (fst (getOrCreate (limiters f) w key r b now))) (kindToRule f),
     snd (getOrCreate (limiters f) w key r b now)).
Proof.
  unfold getLimiter. by destruct (getOrCreate (limiters f) w key r b now) as [[l c] w'].
Qed.

(** One turn of the loop: the limiter of the key is found or created
    under the composite key, then asked; limiters that existed before,
    other than the one asked, keep their state. *)
Lemma checkKey_step f w ruleID userKey r b now :
  let '(l, f1, w1) := getLimiter f w (cacheKey ruleID userKey) r b now in
  let '(ok, w2) := allowAt w1 l now in
  LRU.Lookup (limiters f1) (cacheKey ruleID userKey) = Some l /\
  (exists e,
     (e = LimiterFound (cacheKey ruleID userKey) l \/
      e = LimiterCreated (cacheKey ruleID userKey) l) /\
     log w2 = log w ++ [e; LimiterAllow l ok]) /\
  (forall l', l' <> l -> (l' < length (heap w))%nat -> heap w2 !! l' = heap w !! l').
Proof.
  rewrite getLimiter_eq.
  destruct (allowAt _ _ now) as [ok w2] eqn:A.
  pose proof (getOrCreate_world (limiters f) w (cacheKey ruleID userKey) r b now)
    as [(e & He & Hlog) Hold]. simpl in *.
  split; [apply getOrCreate_installed|]. split.
  - exists e. split; [done|].
    pose proof (allowAt_log (snd (getOrCreate (limiters f) w (cacheKey ruleID userKey) r b now))
                 (fst (fst (getOrCreate (limiters f) w (cacheKey ruleID userKey) r b now))) now) as Hl.
    rewrite A in Hl. simpl in Hl. rewrite Hl, Hlog. by rewrite <- app_assoc.
  - intros l' Hne Hlt.
    pose proof (allowAt_other (snd (getOrCreate (limiters f) w (cacheKey ruleID userKey) r b now))
                 (fst (fst (getOrCreate (limiters f) w (cacheKey ruleID userKey) r b now))) now l' Hne) as Ho.
    rewrite A in Ho. simpl in Ho. rewrite Ho. by apply Hold.
Qed.

(** For an enabled filter and a positive rate, [Match] is the loop over
    the keys of the configured dimension. *)
Lemma Match_checkKeys f w event meta now r b rid desc :
  Enabled (cfg f) = true ->
  resolve f (Kind event) = (r, b, rid, desc) ->
  PrimFloat.leb r 0 = false ->
  Match f w event meta now =
    checkKeys (userKeys (By (cfg f)) (fst (remote_ip_of meta)) (PubKey event))
              f w rid desc r b now.
Proof.
  intros He Hres Hr. unfold Match. by rewrite He, Hres, Hr.
Qed.

(** C3. With the dimension [both], a positive resolved rate, an address
    and a public key, [Match] first looks up the limiter of the address
    in the shared cache under the key [ruleID:ip:address], creating it
    from the resolved rate and burst and adding it on a miss, and calls
    [Allow] on it.  If that denies, the verdict is the rejection that
    names the description of the rule, and the call ends there: the cache
    and the world are as the first key left them, so the limiter of the
    public key is not looked up, not created and not asked.  If it
    allows, the same is done next for the public key under
    [ruleID:pk:pubkey], in the cache as the first key left it, and the
    answer of [Allow] on that limiter is the verdict. *)
Theorem Match_both_order f w event meta now r b rid desc ip :
  Enabled (cfg f) = true ->
  By (cfg f) = RateByBoth ->
  resolve f (Kind event) = (r, b, rid, desc) ->
  PrimFloat.leb r 0 = false ->
  fst (remote_ip_of meta) = ip -> ip <> ""%string ->
  PubKey event <> ""%string ->
  let kip := cacheKey rid ("ip:" +:+ ip) in
  let kpk := cacheKey rid ("pk:" +:+ PubKey event) in
  let '(verdict, f', w') := Match f w event meta now in
  cfg f' = cfg f /\ kindToRule f' = kindToRule f /\
  exists (lip : loc) (c1 : LRU.t loc) (w1 : World L) (okip : bool) (w2 : World L),
    lookedUpOrCreated (limiters f) w kip r b now lip c1 w1 /\
    asked w1 lip now okip w2 /\
    if okip
    then exists (lpk : loc) (c2 : LRU.t loc) (w3 : World L) (okpk : bool),
           lookedUpOrCreated c1 w2 kpk r b now lpk c2 w3 /\
           asked w3 lpk now okpk w' /\
           limiters f' = c2 /\
           verdict = (if okpk then allowed else rejected (rateLimitError desc))
    else w' = w2 /\ limiters f' = c1 /\
         verdict = rejected (rateLimitError desc).
Proof.
  intros He Hby Hres Hr Hip Hne Hpk kip kpk.
  rewrite (Match_checkKeys f w event meta now r b rid desc He Hres Hr).
  rewrite Hby, Hip. unfold userKeys, ipKey, pkKey.
  apply String.eqb_neq in Hne, Hpk. rewrite Hne, Hpk. cbn [app checkKeys].
  fold kip kpk. rewrite getLimiter_eq.
  pose proof (getOrCreate_exact (limiters f) w kip r b now) as G1.
  destruct (getOrCreate (limiters f) w kip r b now) as [[lip c1] w1].
  cbn [fst snd] in G1 |- *.
  pose proof (allowAt_exact w1 lip now) as A1.
  destruct (allowAt w1 lip now) as [okip w2]. cbn [fst snd] in A1.
  destruct okip.
  - rewrite getLimiter_eq. cbn [limiters cfg kindToRule].
    pose proof (getOrCreate_exact c1 w2 kpk r b now) as G2.
    destruct (getOrCreate c1 w2 kpk r b now) as [[lpk c2] w3].
    cbn [fst snd] in G2 |- *.
    pose proof (allowAt_exact w3 lpk now) as A2.
    destruct (allowAt w3 lpk now) as [okpk w4]. cbn [fst snd] in A2.
    assert (exists (lip0 : loc) (c10 : LRU.t loc) (w10 : World L) (okip0 : bool)
                   (w20 : World L),
              lookedUpOrCreated (limiters f) w kip r b now lip0 c10 w10 /\
              asked w10 lip0 now okip0 w20 /\
              if okip0
              then exists (lpk0 : loc) (c20 : LRU.t loc) (w30 : World L) (okpk0 : bool),
                     lookedUpOrCreated c10 w20 kpk r b now lpk0 c20 w30 /\
                     asked w30 lpk0 now okpk0 w4 /\
                     c2 = c20 /\
                     (if okpk then allowed else rejected (rateLimitError desc)) =
                       (if okpk0 then allowed else rejected (rateLimitError desc))
              else w4 = w20 /\ c2 = c10 /\
                   (if okpk then allowed else rejected (rateLimitError desc)) =
                     rejected (rateLimitError desc)) as Hall.
    { exists lip, c1, w1, true, w2. split; [done|]. split; [done|].
      exists lpk, c2, w3, okpk. done. }
    destruct okpk; cbn beta iota zeta; cbn [cfg kindToRule limiters];
      (split; [done|]); (split; [done|]); exact Hall.
  - cbn beta iota zeta. cbn [cfg kindToRule limiters].
    split; [done|]. split; [done|].
    exists lip, c1, w1, false, w2. done.
Qed.

(** The dimension yields no identity key. *)
Definition no_identity (by_ : RateBy) (meta : gmap string Any) (event : Event) : Prop :=
  match by_ with
  | RateByIP => fst (remote_ip_of meta) = ""%string
  | RateByPubKey => PubKey event = ""%string
  | RateByBoth => fst (remote_ip_of meta) = ""%string /\ PubKey event = ""%string
  | RateByOther => True
  end.

(** C8. For an enabled filter and a positive resolved rate, an event for
    which the configured dimension yields no identity key is allowed, and
    the filter, the limiters and the log of limiter calls are unchanged. *)
Theorem Match_no_identity f w event meta now r b rid desc :
  Enabled (cfg f) = true ->
  resolve f (Kind event) = (r, b, rid, desc) ->
  PrimFloat.leb r 0 = false ->
  no_identity (By (cfg f)) meta event ->
  Match f w event meta now = (allowed, f, w).
Proof.
  intros He Hres Hr Hno.
  rewrite (Match_checkKeys f w event meta now r b rid desc He Hres Hr).
  unfold no_identity in Hno. unfold userKeys, ipKey, pkKey.
  destruct (By (cfg f)); simpl.
  - by rewrite Hno.
  - by rewrite Hno.
  - destruct Hno as [-> ->]. done.
  - done.
Qed.

End WithLimiter.

(** An absent, empty or non-string [remote_ip] entry gives no address. *)
Lemma remote_ip_missing (meta : gmap string Any) :
  meta !! "remote_ip"%string = None \/
  meta !! "remote_ip"%string = Some (AnyString "") \/
  (exists v, meta !! "remote_ip"%string = Some v /\ forall s, v <> AnyString s) ->
  fst (remote_ip_of meta) = ""%string.
Proof.
  unfold remote_ip_of. intros [->|[->|(v & -> & Hv)]]; [done|done|].
  destruct v; try done. by destruct (Hv s).
Qed.

(** *** A worked example: one note per second and per identity, both
    dimensions, two public keys behind one address *)

Definition exampleConfig : RateLimiterConfig :=
  {| Enabled := true; By := RateByBoth;
     DefaultRate := 0; DefaultBurst := 0;
     Rules := [mkRule "notes" [1] 1 1];
     CacheSize := 0; TTL := 0 |}.

Definition exampleMeta : gmap string Any :=
  {[ "remote_ip"%string := AnyString "203.0.113.77" ]}.

Definition exampleWorld : World TokenBucket := mkWorld [] [].

Definition firstNote : Event := mkEvent 1 "alice" "hello" [].
Definition secondNote : Event := mkEvent 1 "bob" "hello" [].
Definition anonymousNote : Event := mkEvent 1 "" "hello" [].

(** The filter and the world after [firstNote], which is allowed. *)
Definition afterFirst : RateLimiterFilter * World TokenBucket :=
  let '(_, f, w) := Match (NewRateLimiterFilter exampleConfig) exampleWorld
                          firstNote exampleMeta 1000 in
  (f, w).

Example example_first_allowed :
  fst (fst (Match (NewRateLimiterFilter exampleConfig) exampleWorld
                  firstNote exampleMeta 1000)) = allowed /\
  log (snd afterFirst) =
    [LimiterCreated "rule-0:ip:203.0.113.77" 0%nat; LimiterAllow 0%nat true;
     LimiterCreated "rule-0:pk:alice" 1%nat; LimiterAllow 1%nat true].
Proof. by vm_compute. Qed.

(** [secondNote] comes from the same address: the limiter of the address
    denies, and no limiter is created or asked for [bob]. *)
Example example_second_rejected :
  let '(verdict, f, w) :=
    Match (fst afterFirst) (snd afterFirst) secondNote exampleMeta 1000 in
  verdict = rejected "blocked: rate limit exceeded for notes"%string /\
  log w = log (snd afterFirst) ++
          [LimiterFound "rule-0:ip:203.0.113.77" 0%nat; LimiterAllow 0%nat false] /\
  LRU.Lookup (limiters f) "rule-0:pk:bob" = None /\
  length (heap w) = 2%nat.
Proof. by vm_compute. Qed.

(** [secondNote] after [firstNote], from the same address: the limiter
    of the address is found in the cache and denies, and that is all. *)
Lemma Match_both_order_witness :
  let '(verdict, f', w') :=
    Match (fst afterFirst) (snd afterFirst) secondNote exampleMeta 1000 in
  verdict = rejected (rateLimitError "notes") /\
  lookedUpOrCreated (limiters (fst afterFirst)) (snd afterFirst)
    "rule-0:ip:203.0.113.77" 1 1 1000 0%nat (limiters f')
    (mkWorld (heap (snd afterFirst))
             (log (snd afterFirst) ++ [LimiterFound "rule-0:ip:203.0.113.77" 0%nat])) /\
  asked (mkWorld (heap (snd afterFirst))
                 (log (snd afterFirst) ++ [LimiterFound "rule-0:ip:203.0.113.77" 0%nat]))
        0%nat 1000 false w'.
Proof.
  pose proof (Match_both_order (fst afterFirst) (snd afterFirst) secondNote exampleMeta
                1000 1%float 1 "rule-0" "notes" "203.0.113.77"
                eq_refl eq_refl eq_refl eq_refl eq_refl
                ltac:(discriminate) ltac:(discriminate)) as HM.
  cbv zeta in HM.
  destruct (Match (fst afterFirst) (snd afterFirst) secondNote exampleMeta 1000)
    as [[verdict f'] w'].
  destruct HM as (_ & _ & lip & c1 & w1 & okip & w2 & HG & HA & Hrest).
  assert (lip = 0%nat /\ c1 = snd (LRU.Get (limiters (fst afterFirst))
                                     "rule-0:ip:203.0.113.77" 1000) /\
          heap w1 = heap (snd afterFirst) /\
          log w1 = log (snd afterFirst) ++ [LimiterFound "rule-0:ip:203.0.113.77" lip])
    as (-> & -> & Hh & Hl) by exact HG.
  assert (w1 = mkWorld (heap (snd afterFirst))
                 (log (snd afterFirst) ++ [LimiterFound "rule-0:ip:203.0.113.77" 0%nat]))
    as -> by (by apply world_eq).
  assert (okip = false) as -> by (destruct HA as (-> & _); vm_compute; reflexivity).
  destruct Hrest as (-> & -> & ->).
  split; [reflexivity|]. split; [|exact HA].
  split; [reflexivity|]. split; [reflexivity|]. split; reflexivity.
Defined.

Lemma Match_no_identity_witness :
  Match (mkFilter (mkConfig true RateByPubKey 0 0 [mkRule "notes" [1] 1 1] 0 0)
                  (limiters (fst afterFirst)) (kindToRule (fst afterFirst)))
        (snd afterFirst) anonymousNote exampleMeta 1000
  = (allowed,
     mkFilter (mkConfig true RateByPubKey 0 0 [mkRule "notes" [1] 1 1] 0 0)
              (limiters (fst afterFirst)) (kindToRule (fst afterFirst)),
     snd afterFirst).
Proof.
  exact (Match_no_identity
           (mkFilter (mkConfig true RateByPubKey 0 0 [mkRule "notes" [1] 1 1] 0 0)
                     (limiters (fst afterFirst)) (kindToRule (fst afterFirst)))
           (snd afterFirst) anonymousNote exampleMeta 1000
           1%float 1 "rule-0" "notes" eq_refl eq_refl eq_refl eq_refl).
Defined.

End RateLimit.

(** ** Addresses: the part of Go's [net] package that
    [normalizeIPWithOptionalPrefixes] calls

    [net] is Go's standard library.  An [IP] and an [IPMask] are byte
    slices: lists of octets, the nil slice being the empty list.  A
    conversion to [byte] or [uint8] keeps the low eight bits. *)
Module NetIP.

Definition IP : Type := list Z.
Definition IPMask : Type := list Z.

Definition octet (z : Z) : Z := z mod 256.

Definition isNil (b : list Z) : bool :=
  match b with [] => true | _ => false end.

Definition v4InV6Prefix : list Z := [0; 0; 0; 0; 0; 0; 0; 0; 0; 0; 255; 255].

Definition bytesEqual (a b : list Z) : bool :=
  bool_decide (a = b).

(** *** Parsing ([netip.ParseAddr] behind [net.ParseIP]) *)

Definition asciiZ (c : ascii) : Z := Z.of_N (N_of_ascii c).

Definition isDigit (c : ascii) : bool := (48 <=? asciiZ c) && (asciiZ c <=? 57).

Definition hexVal (c : ascii) : option Z :=
  let n := asciiZ c in
  if (48 <=? n) && (n <=? 57) then Some (n - 48)
  else if (97 <=? n) && (n <=? 102) then Some (n - 97 + 10)
  else if (65 <=? n) && (n <=? 70) then Some (n - 65 + 10)
  else None.

Definition isEmpty (s : string) : bool :=
  match s with EmptyString => true | _ => false end.

(** [parseIPv4Fields]: the scan of a dotted quad, writing the octets into
    [fields] from index [base] on.  [first] tells that the character is the
    first one, [prevDot] that the previous one was a dot. *)
Fixpoint parseIPv4Fields (s : string) (first prevDot : bool) (val digLen : Z)
    (pos : nat) (base : nat) (fields : list Z) : option (list Z) :=
  match s with
  | EmptyString =>
      if (pos <? 3)%nat then None
      else Some (<[(base + 3)%nat := octet val]> fields)
  | String c rest =>
      if isDigit c then
        if (digLen =? 1) && (val =? 0) then None
        else
          let val' := val * 10 + (asciiZ c - 48) in
          if 255 <? val' then None
          else parseIPv4Fields rest false false val' (digLen + 1) pos base fields
      else if Ascii.eqb c "." then
        if first || isEmpty rest || prevDot then None
        else if (pos =? 3)%nat then None
        else parseIPv4Fields rest false true 0 0 (S pos) base
               (<[(base + pos)%nat := octet val]> fields)
      else None
  end.

(** [parseIPv4] followed by [As16]: the IPv4-mapped form. *)
Definition parseIPv4 (s : string) : option (list Z) :=
  match parseIPv4Fields s true false 0 0 0 0 [0; 0; 0; 0] with
  | Some fields => Some (v4InV6Prefix ++ fields)
  | None => None
  end.

(** The hexadecimal number at the head of [s]: the number of its digits,
    its value and what follows it; an error on a fifth digit. *)
Fixpoint hexGroup (s : string) (off : nat) (acc : Z) : option (nat * Z * string) :=
  match s with
  | String c rest =>
      match hexVal c with
      | Some d =>
          let acc' := acc * 16 + d in
          if (3 <? off)%nat then None
          else if 65535 <? acc' then None
          else hexGroup rest (S off) acc'
      | None => Some (off, acc, s)
      end
  | EmptyString => Some (off, acc, s)
  end.

Definition startsWith (c : ascii) (s : string) : bool :=
  match s with
  | String d _ => Ascii.eqb c d
  | EmptyString => false
  end.

Definition tail (s : string) : string :=
  match s with
  | String _ rest => rest
  | EmptyString => EmptyString
  end.

(** The loop of [parseIPv6] over the groups; [i] is the index of the next
    octet and [ellipsis] the index where [::] stood.  Each turn writes two
    octets at least, so [fuel] turns suffice from [i = 16 - 2 * fuel].
    The result is the state at the exit of the loop. *)
Fixpoint parseIPv6Groups (fuel : nat) (s : string) (i : nat)
    (ellipsis : option nat) (ip : list Z)
    : option (string * nat * option nat * list Z) :=
  match fuel with
  | O => Some (s, i, ellipsis, ip)
  | S fuel' =>
      if (16 <=? i)%nat then Some (s, i, ellipsis, ip)
      else
        match hexGroup s 0 0 with
        | None => None
        | Some (off, acc, rest) =>
            if (off =? 0)%nat then None
            else if startsWith "." rest then
              if bool_decide (ellipsis = None) && negb (i =? 12)%nat then None
              else if (16 <? i + 4)%nat then None
              else
                match parseIPv4Fields s true false 0 0 0 i ip with
                | Some ip' => Some (EmptyString, (i + 4)%nat, ellipsis, ip')
                | None => None
                end
            else
              let ip1 := <[S i := octet acc]> (<[i := octet (Z.shiftr acc 8)]> ip) in
              let i1 := (i + 2)%nat in
              if isEmpty rest then Some (rest, i1, ellipsis, ip1)
              else if negb (startsWith ":" rest) then None
              else if isEmpty (tail rest) then None
              else
                let s1 := tail rest in
                if startsWith ":" s1 then
                  if bool_decide (ellipsis = None) then
                    if isEmpty (tail s1) then Some (tail s1, i1, Some i1, ip1)
                    else parseIPv6Groups fuel' (tail s1) i1 (Some i1) ip1
                  else None
                else parseIPv6Groups fuel' s1 i1 ellipsis ip1
        end
  end.

Fixpoint contains (c : ascii) (s : string) : bool :=
  match s with
  | String d rest => Ascii.eqb c d || contains c rest
  | EmptyString => false
  end.

(** The end of [parseIPv6]: the whole string must be used, and a short
    address is completed with zeros where [::] stood. *)
Definition expandEllipsis (st : string * nat * option nat * list Z)
    : option (list Z) :=
  let '(s, i, ellipsis, ip) := st in
  if negb (isEmpty s) then None
  else if (i <? 16)%nat then
    match ellipsis with
    | None => None
    | Some e =>
        let n := (16 - i)%nat in
        Some (take e ip ++ replicate n 0 ++ take (i - e) (drop e ip))
    end
  else
    match ellipsis with
    | Some _ => None
    | None => Some ip
    end.

(** [parseIPv6], for [net.ParseIP], which refuses an address with a
    zone. *)
Definition parseIPv6 (s : string) : option (list Z) :=
  if contains "%" s then None
  else
    let zero := replicate 16 0 in
    if startsWith ":" s && startsWith ":" (tail s) then
      let s' := tail (tail s) in
      if isEmpty s' then Some zero
      else
        match parseIPv6Groups 8 s' 0 (Some 0%nat) zero with
        | Some st => expandEllipsis st
        | None => None
        end
    else
      match parseIPv6Groups 8 s 0 None zero with
      | Some st => expandEllipsis st
      | None => None
      end.

(** [netip.ParseAddr] looks for the first of [.], [:] and [%]. *)
Fixpoint parseAddrFrom (rest whole : string) : option (list Z) :=
  match rest with
  | EmptyString => None
  | String c rest' =>
      if Ascii.eqb c "." then parseIPv4 whole
      else if Ascii.eqb c ":" then parseIPv6 whole
      else if Ascii.eqb c "%" then None
      else parseAddrFrom rest' whole
  end.

(** [net.ParseIP]: nil or the 16 octets of the address. *)
Definition ParseIP (s : string) : IP :=
  match parseAddrFrom s s with
  | Some ip => ip
  | None => []
  end.

(** *** [To4], [CIDRMask], [Mask] *)

Definition isZeros (b : list Z) : bool := forallb (Z.eqb 0) b.

Definition To4 (ip : IP) : IP :=
  if (length ip =? 4)%nat then ip
  else if (length ip =? 16)%nat && isZeros (take 10 ip) &&
          (ip !!! 10%nat =? 255) && (ip !!! 11%nat =? 255)
  then drop 12 ip
  else [].

(** The loop of [CIDRMask] over [l] octets with [n] ones left. *)
Fixpoint maskOctets (l : nat) (n : Z) : list Z :=
  match l with
  | O => []
  | S l' =>
      if 8 <=? n then 255 :: maskOctets l' (n - 8)
      else Z.lxor 255 (Z.shiftr 255 n) :: maskOctets l' 0
  end.

Definition CIDRMask (ones bits : Z) : IPMask :=
  if negb (bits =? 32) && negb (bits =? 128) then []
  else if (ones <? 0) || (bits <? ones) then []
  else maskOctets (Z.to_nat (bits / 8)) ones.

Definition allFF (b : list Z) : bool := forallb (Z.eqb 255) b.

Fixpoint andOctets (ip mask : list Z) : list Z :=
  match ip, mask with
  | x :: ip', m :: mask' => Z.land x m :: andOctets ip' mask'
  | _, _ => []
  end.

Definition Mask (ip : IP) (mask : IPMask) : IP :=
  let mask :=
    if (length mask =? 16)%nat && (length ip =? 4)%nat && allFF (take 12 mask)
    then drop 12 mask else mask in
  let ip :=
    if (length mask =? 4)%nat && (length ip =? 16)%nat &&
       bytesEqual (take 12 ip) v4InV6Prefix
    then drop 12 ip else ip in
  if negb (length ip =? length mask)%nat then []
  else andOctets ip mask.

(** *** Rendering *)

Definition hexDigit (d : Z) : ascii :=
  if d <? 10 then ascii_of_N (Z.to_N (48 + d)) else ascii_of_N (Z.to_N (87 + d)).

(** Two lowercase hexadecimal digits per octet. *)
Fixpoint hexString (b : list Z) : string :=
  match b with
  | [] => EmptyString
  | x :: b' => String (hexDigit (Z.shiftr x 4)) (String (hexDigit (Z.land x 15)) (hexString b'))
  end.

(** [appendHex]: a 16-bit field without leading zeros. *)
Definition appendHex (x : Z) : string :=
  let d3 := Z.shiftr x 12 in
  let d2 := Z.land (Z.shiftr x 8) 15 in
  let d1 := Z.land (Z.shiftr x 4) 15 in
  let d0 := Z.land x 15 in
  if negb (d3 =? 0) then
    String (hexDigit d3) (String (hexDigit d2) (String (hexDigit d1) (String (hexDigit d0) EmptyString)))
  else if negb (d2 =? 0) then
    String (hexDigit d2) (String (hexDigit d1) (String (hexDigit d0) EmptyString))
  else if negb (d1 =? 0) then
    String (hexDigit d1) (String (hexDigit d0) EmptyString)
  else String (hexDigit d0) EmptyString.

Definition string4 (b : list Z) : string :=
  pretty (b !!! 0%nat) +:+ "." +:+ pretty (b !!! 1%nat) +:+ "." +:+
  pretty (b !!! 2%nat) +:+ "." +:+ pretty (b !!! 3%nat).

(** The eight 16-bit fields of an address of 16 octets. *)
Fixpoint fields16 (b : list Z) : list Z :=
  match b with
  | hi :: lo :: b' => (hi * 256 + lo) :: fields16 b'
  | _ => []
  end.

(** The length of the run of zero fields at the head of [f]. *)
Fixpoint zeroRun (f : list Z) : nat :=
  match f with
  | x :: f' => if x =? 0 then S (zeroRun f') else O
  | [] => O
  end.

(** The first longest run of two or more zero fields: the loop of
    [appendTo6] that sets [zeroStart] and [zeroEnd], from field [i] on,
    with the best run so far. *)
Fixpoint longestZeroRun (f : list Z) (i : nat) (best : option (nat * nat))
    : option (nat * nat) :=
  match f with
  | [] => best
  | _ :: f' =>
      let l := zeroRun f in
      let bestLen := match best with Some (a, b) => (b - a)%nat | None => O end in
      let best' :=
        if (2 <=? l)%nat && (bestLen <? l)%nat then Some (i, (i + l)%nat) else best in
      longestZeroRun f' (S i) best'
  end.

(** The second loop of [appendTo6], from field [i] on. *)
Fixpoint renderFields (fuel : nat) (f : list Z) (i : nat) (zero : option (nat * nat))
    : string :=
  match fuel with
  | O => EmptyString
  | S fuel' =>
      if (8 <=? i)%nat then EmptyString
      else
        match zero with
        | Some (zs, ze) =>
            if (i =? zs)%nat then
              if (8 <=? ze)%nat then "::"
              else "::" +:+ appendHex (f !!! ze) +:+ renderFields fuel' f (S ze) zero
            else
              (if (0 <? i)%nat then ":" else "") +:+
              appendHex (f !!! i) +:+ renderFields fuel' f (S i) zero
        | None =>
            (if (0 <? i)%nat then ":" else "") +:+
            appendHex (f !!! i) +:+ renderFields fuel' f (S i) zero
        end
  end.

Definition string6 (b : list Z) : string :=
  let f := fields16 b in
  renderFields 8 f 0 (longestZeroRun f 0 None).

(** [IP.String] *)
Definition IP_String (ip : IP) : string :=
  if (length ip =? 0)%nat then "<nil>"
  else if negb (length ip =? 4)%nat && negb (length ip =? 16)%nat
  then "?" +:+ hexString ip
  else if (length (To4 ip) =? 4)%nat then string4 (To4 ip)
  else string6 ip.

(** [IPMask.String] *)
Definition IPMask_String (m : IPMask) : string :=
  if (length m =? 0)%nat then "<nil>" else hexString m.

(** The number of leading ones of an octet whose other bits are zero. *)
Definition octetOnes (v : Z) : option Z :=
  if v =? 0 then Some 0 else if v =? 128 then Some 1 else if v =? 192 then Some 2
  else if v =? 224 then Some 3 else if v =? 240 then Some 4 else if v =? 248 then Some 5
  else if v =? 252 then Some 6 else if v =? 254 then Some 7 else None.

(** [simpleMaskLength]: the number of leading ones, or -1 if the mask is
    not ones followed by zeros. *)
Fixpoint simpleMaskLength (mask : IPMask) : Z :=
  match mask with
  | [] => 0
  | v :: rest =>
      if v =? 255 then
        let n := simpleMaskLength rest in
        if n =? -1 then -1 else 8 + n
      else
        match octetOnes v with
        | Some k => if isZeros rest then k else -1
        | None => -1
        end
  end.

Record IPNet : Type := mkIPNet {
  net_IP : IP;
  net_Mask : IPMask
}.

Definition networkNumberAndMask (n : IPNet) : IP * IPMask :=
  let ip4 := To4 (net_IP n) in
  let ip := if isNil ip4 then net_IP n else ip4 in
  if isNil ip4 && negb (length ip =? 16)%nat then ([], [])
  else if (length (net_Mask n) =? 4)%nat then
    if negb (length ip =? 4)%nat then ([], []) else (ip, net_Mask n)
  else if (length (net_Mask n) =? 16)%nat then
    if (length ip =? 4)%nat then (ip, drop 12 (net_Mask n)) else (ip, net_Mask n)
  else ([], []).

(** [IPNet.String] *)
Definition IPNet_String (n : IPNet) : string :=
  let '(nn, m) := networkNumberAndMask n in
  if isNil nn || isNil m then "<nil>"
  else
    let l := simpleMaskLength m in
    if l =? -1 then IP_String nn +:+ "/" +:+ IPMask_String m
    else IP_String nn +:+ "/" +:+ pretty l.

(** [normalizeIPWithOptionalPrefixes] of [policy/emergency_filter.go] *)
Definition normalizeIPWithOptionalPrefixes (ipStr : string) (v4Prefix v6Prefix : Z)
    : string :=
  let ip := ParseIP ipStr in
  if isNil ip then ipStr
  else
    let v4 := To4 ip in
    if negb (isNil v4) then
      if 0 <? v4Prefix
      then IPNet_String (mkIPNet (Mask v4 (CIDRMask v4Prefix 32)) (CIDRMask v4Prefix 32))
      else IP_String v4
    else if 0 <? v6Prefix
    then IPNet_String (mkIPNet (Mask ip (CIDRMask v6Prefix 128)) (CIDRMask v6Prefix 128))
    else IP_String ip.

(** *** What [ParseIP] returns: nil or 16 octets *)

Definition isOctet (z : Z) : Prop := 0 <= z < 256.

Lemma octet_isOctet z : isOctet (octet z).
Proof. unfold isOctet, octet. apply Z.mod_pos_bound. lia. Qed.

Lemma parseIPv4Fields_inv s first prevDot val digLen pos base fields out :
  parseIPv4Fields s first prevDot val digLen pos base fields = Some out ->
  length out = length fields /\ (Forall isOctet fields -> Forall isOctet out).
Proof.
  revert first prevDot val digLen pos fields.
  induction s as [|c s IH]; intros first prevDot val digLen pos fields; simpl.
  - destruct (pos <? 3)%nat; [done|]. intros [= <-].
    split; [by rewrite length_insert|].
    intros Hf. apply Forall_insert; [done|apply octet_isOctet].
  - destruct (isDigit c).
    + destruct ((digLen =? 1) && (val =? 0)); [done|].
      destruct (255 <? val * 10 + (asciiZ c - 48)); [done|]. apply IH.
    + destruct (Ascii.eqb c "."); [|done].
      destruct (first || isEmpty s || prevDot); [done|].
      destruct (pos =? 3)%nat; [done|].
      intros Hp. apply IH in Hp as [Hl Hf].
      rewrite length_insert in Hl. split; [done|].
      intros Hfields. apply Hf, Forall_insert; [done|apply octet_isOctet].
Qed.

(** The state of the loop of [parseIPv6]: 16 octets, and [::] not after
    the next octet. *)
Definition groupsInv (i : nat) (ellipsis : option nat) (ip : list Z) : Prop :=
  length ip = 16%nat /\ Forall isOctet ip /\
  (forall e, ellipsis = Some e -> (e <= i)%nat).

Lemma parseIPv6Groups_inv fuel s i ellipsis ip s' i' ellipsis' ip' :
  groupsInv i ellipsis ip ->
  parseIPv6Groups fuel s i ellipsis ip = Some (s', i', ellipsis', ip') ->
  groupsInv i' ellipsis' ip'.
Proof.
  revert s i ellipsis ip.
  induction fuel as [|fuel IH]; intros s i ellipsis ip Hinv;
    cbn [parseIPv6Groups].
  - by intros ?; simplify_eq.
  - destruct (16 <=? i)%nat; [by intros ?; simplify_eq|].
    destruct (hexGroup s 0 0) as [[[off acc] rest]|]; [|done].
    destruct (off =? 0)%nat; [done|].
    destruct Hinv as (Hlen & Hoct & Hell).
    destruct (startsWith "." rest).
    + destruct (bool_decide (ellipsis = None) && negb (i =? 12)%nat); [done|].
      destruct (16 <? i + 4)%nat; [done|].
      destruct (parseIPv4Fields s true false 0 0 0 i ip) as [out|] eqn:P; [|done].
      intros ?; simplify_eq.
      apply parseIPv4Fields_inv in P as [Hl Hf].
      split; [congruence|]. split; [auto|].
      intros e He. specialize (Hell e He). lia.
    + assert (groupsInv (i + 2) ellipsis
                (<[S i := octet acc]> (<[i := octet (Z.shiftr acc 8)]> ip))) as Hnext.
      { split; [by rewrite !length_insert|]. split.
        - apply Forall_insert; [|apply octet_isOctet].
          apply Forall_insert; [done|apply octet_isOctet].
        - intros e He. specialize (Hell e He). lia. }
      assert (groupsInv (i + 2) (Some (i + 2)%nat)
                (<[S i := octet acc]> (<[i := octet (Z.shiftr acc 8)]> ip))) as Hnew.
      { destruct Hnext as (? & ? & _). split; [done|]. split; [done|].
        by intros e [= <-]. }
      destruct (isEmpty rest); [by intros ?; simplify_eq|].
      destruct (negb (startsWith ":" rest)); [done|].
      destruct (isEmpty (tail rest)); [done|].
      destruct (startsWith ":" (tail rest)).
      * destruct (bool_decide (ellipsis = None)); [|done].
        destruct (isEmpty (tail (tail rest))); [by intros ?; simplify_eq|].
        by apply IH.
      * by apply IH.
Qed.

Lemma expandEllipsis_inv s i ellipsis ip out :
  groupsInv i ellipsis ip ->
  expandEllipsis (s, i, ellipsis, ip) = Some out ->
  length out = 16%nat /\ Forall isOctet out.
Proof.
  intros (Hlen & Hoct & Hell). unfold expandEllipsis.
  destruct (negb (isEmpty s)); [done|].
  destruct (i <? 16)%nat eqn:Hi.
  - destruct ellipsis as [e|]; [|done]. intros [= <-].
    apply Nat.ltb_lt in Hi. specialize (Hell e eq_refl).
    split.
    + rewrite !length_app, !length_take, length_replicate, length_drop. lia.
    + apply Forall_app. split; [by apply Forall_take|].
      apply Forall_app. split; [by apply Forall_replicate|].
      by apply Forall_take, Forall_drop.
  - destruct ellipsis; [done|]. by intros [= <-].
Qed.

Lemma zeros_octets : Forall isOctet (replicate 16 0).
Proof. apply Forall_replicate. unfold isOctet. lia. Qed.

Lemma zero_groupsInv ellipsis :
  (forall e, ellipsis = Some e -> e = 0%nat) ->
  groupsInv 0 ellipsis (replicate 16 0).
Proof.
  intros He. split; [done|]. split; [exact zeros_octets|].
  intros e Hs. rewrite (He e Hs). lia.
Qed.

Lemma parseIPv6_inv s out :
  parseIPv6 s = Some out -> length out = 16%nat /\ Forall isOctet out.
Proof.
  unfold parseIPv6. destruct (contains "%" s); [done|].
  destruct (startsWith ":" s && startsWith ":" (tail s)).
  - destruct (isEmpty (tail (tail s))).
    + intros [= <-]. split; [done|exact zeros_octets].
    + destruct (parseIPv6Groups 8 (tail (tail s)) 0 (Some 0%nat) (replicate 16 0))
        as [[[[s' i'] e'] ip']|] eqn:G; [|done].
      apply expandEllipsis_inv.
      eapply parseIPv6Groups_inv; [|exact G].
      apply zero_groupsInv. by intros e [= <-].
  - destruct (parseIPv6Groups 8 s 0 None (replicate 16 0))
      as [[[[s' i'] e'] ip']|] eqn:G; [|done].
    apply expandEllipsis_inv.
    eapply parseIPv6Groups_inv; [|exact G].
    apply zero_groupsInv. done.
Qed.

Lemma parseIPv4_inv s out :
  parseIPv4 s = Some out -> length out = 16%nat /\ Forall isOctet out.
Proof.
  unfold parseIPv4.
  destruct (parseIPv4Fields s true false 0 0 0 0 [0; 0; 0; 0]) as [f|] eqn:P; [|done].
  intros [= <-]. apply parseIPv4Fields_inv in P as [Hl Hf].
  unfold v4InV6Prefix. simpl. split; [by rewrite Hl|].
  repeat (apply Forall_cons; split; [unfold isOctet; lia|]).
  apply Hf. unfold isOctet. repeat constructor; lia.
Qed.

Lemma ParseIP_inv s :
  ParseIP s = [] \/ (length (ParseIP s) = 16%nat /\ Forall isOctet (ParseIP s)).
Proof.
  unfold ParseIP.
  destruct (parseAddrFrom s s) as [ip|] eqn:P; [right|by left].
  revert P. generalize s at 1 as rest.
  induction rest as [|c rest IH]; simpl; [done|].
  destruct (Ascii.eqb c "."); [apply parseIPv4_inv|].
  destruct (Ascii.eqb c ":"); [apply parseIPv6_inv|].
  destruct (Ascii.eqb c "%"); [done|]. apply IH.
Qed.

(** *** Masks of a valid length *)

Definition prefixLengths (n : nat) : list Z := map Z.of_nat (seq 0 (S n)).

Lemma in_prefixLengths n p : 0 <= p <= Z.of_nat n -> In p (prefixLengths n).
Proof.
  intros Hp. unfold prefixLengths. apply in_map_iff.
  exists (Z.to_nat p). split; [lia|]. apply in_seq. lia.
Qed.

(** What is checked of the mask of each length: its size, its octets,
    that [simpleMaskLength] gives the length back, that its bit [8j+k]
    from the left is set exactly below the length, and that an octet 11
    of ones comes after ones only. *)
Definition maskFacts (bits p : Z) : bool :=
  let m := CIDRMask p bits in
  (length m =? Z.to_nat (bits / 8))%nat &&
  forallb (fun v => (0 <=? v) && (v <? 256)) m &&
  (simpleMaskLength m =? p) &&
  forallb (fun j =>
    forallb (fun k =>
      Bool.eqb (Z.testbit (m !!! j) (7 - Z.of_nat k))
               (8 * Z.of_nat j + Z.of_nat k <? p)) (seq 0 8))
    (seq 0 (length m)) &&
  implb (m !!! 11%nat =? 255) (allFF (take 12 m)).

Lemma maskFacts_32 : forallb (maskFacts 32) (prefixLengths 32) = true.
Proof. by vm_compute. Qed.

Lemma maskFacts_128 : forallb (maskFacts 128) (prefixLengths 128) = true.
Proof. by vm_compute. Qed.

Lemma maskFacts_valid bits p :
  (bits = 32 \/ bits = 128) -> 0 <= p <= bits -> maskFacts bits p = true.
Proof.
  intros [-> | ->] Hp.
  - pose proof maskFacts_32 as F. rewrite forallb_forall in F.
    apply F, (in_prefixLengths 32). lia.
  - pose proof maskFacts_128 as F. rewrite forallb_forall in F.
    apply F, (in_prefixLengths 128). lia.
Qed.

Lemma CIDRMask_length bits p :
  (bits = 32 \/ bits = 128) -> 0 <= p <= bits ->
  length (CIDRMask p bits) = Z.to_nat (bits / 8).
Proof.
  intros Hb Hp. pose proof (maskFacts_valid bits p Hb Hp) as F.
  unfold maskFacts in F. repeat (apply andb_true_iff in F as [F ?]).
  by apply Nat.eqb_eq.
Qed.

Lemma CIDRMask_simple bits p :
  (bits = 32 \/ bits = 128) -> 0 <= p <= bits ->
  simpleMaskLength (CIDRMask p bits) = p.
Proof.
  intros Hb Hp. pose proof (maskFacts_valid bits p Hb Hp) as F.
  unfold maskFacts in F. repeat (apply andb_true_iff in F as [F ?]).
  by apply Z.eqb_eq.
Qed.

Lemma CIDRMask_octets bits p :
  (bits = 32 \/ bits = 128) -> 0 <= p <= bits ->
  Forall isOctet (CIDRMask p bits).
Proof.
  intros Hb Hp. pose proof (maskFacts_valid bits p Hb Hp) as F.
  unfold maskFacts in F. repeat (apply andb_true_iff in F as [F ?]).
  apply Forall_forall. intros v Hv.
  match goal with H : forallb _ (CIDRMask p bits) = true |- _ =>
    rewrite forallb_forall in H; apply list_elem_of_In, H in Hv end.
  unfold isOctet. lia.
Qed.

(** Bit [k] from the left of octet [j] of the mask is set exactly when
    its position [8j+k] is below the prefix length. *)
Lemma CIDRMask_bit bits p (j k : nat) :
  (bits = 32 \/ bits = 128) -> 0 <= p <= bits ->
  (j < Z.to_nat (bits / 8))%nat -> (k < 8)%nat ->
  Z.testbit (CIDRMask p bits !!! j) (7 - Z.of_nat k) =
    (8 * Z.of_nat j + Z.of_nat k <? p).
Proof.
  intros Hb Hp Hj Hk. pose proof (maskFacts_valid bits p Hb Hp) as F.
  unfold maskFacts in F. repeat (apply andb_true_iff in F as [F ?]).
  match goal with H : forallb _ (seq 0 (length _)) = true |- _ =>
    rewrite forallb_forall in H; specialize (H j) end.
  rewrite (CIDRMask_length bits p Hb Hp) in *.
  match goal with H : In j _ -> _ |- _ =>
    specialize (H ltac:(apply in_seq; lia));
    rewrite forallb_forall in H; specialize (H k ltac:(apply in_seq; lia)) end.
  by apply Bool.eqb_prop.
Qed.

Lemma land_255 x : isOctet x -> Z.land x 255 = x.
Proof.
  intros Hx. change 255 with (Z.ones 8).
  rewrite Z.land_ones by lia. apply Z.mod_small. exact Hx.
Qed.

Lemma land_255_inv x m : isOctet m -> Z.land x m = 255 -> m = 255.
Proof.
  intros Hm Hx.
  assert (Z.land m (Z.land x m) = Z.land x m) as A
    by (rewrite (Z.land_comm x m), Z.land_assoc, Z.land_diag; reflexivity).
  rewrite Hx, land_255 in A; done.
Qed.

Lemma length_4 {A} (l : list A) :
  length l = 4%nat -> exists a b c d, l = [a; b; c; d].
Proof.
  destruct l as [|a [|b [|c [|d [|? ?]]]]]; try done. eauto.
Qed.

Lemma length_16 {A} (l : list A) :
  length l = 16%nat ->
  exists a0 a1 a2 a3 a4 a5 a6 a7 a8 a9 a10 a11 a12 a13 a14 a15,
    l = [a0; a1; a2; a3; a4; a5; a6; a7; a8; a9; a10; a11; a12; a13; a14; a15].
Proof.
  do 17 (destruct l as [|? l]; try done). repeat eexists.
Qed.

(** [To4] gives nil or four octets. *)
Lemma To4_length ip :
  length ip = 16%nat -> To4 ip = [] \/ length (To4 ip) = 4%nat.
Proof.
  intros Hl. unfold To4. rewrite Hl.
  change (16 =? 4)%nat with false. change (16 =? 16)%nat with true. cbn [andb].
  match goal with |- context [if ?c then _ else _] => destruct c end.
  - right. rewrite length_drop. lia.
  - left. reflexivity.
Qed.

(** The rendering of the network of an IPv4 address. *)
Lemma IPNet_String_v4 v4 p :
  length v4 = 4%nat -> 0 <= p <= 32 ->
  IPNet_String (mkIPNet (Mask v4 (CIDRMask p 32)) (CIDRMask p 32)) =
    IP_String (andOctets v4 (CIDRMask p 32)) +:+ "/" +:+ pretty p.
Proof.
  intros Hv Hp.
  pose proof (CIDRMask_length 32 p (or_introl eq_refl) Hp) as Hlen.
  pose proof (CIDRMask_simple 32 p (or_introl eq_refl) Hp) as Hsimple.
  change (Z.to_nat (32 / 8)) with 4%nat in Hlen.
  remember (CIDRMask p 32) as m eqn:Hm. clear Hm.
  apply length_4 in Hv as (a & b & c & d & ->).
  apply length_4 in Hlen as (m0 & m1 & m2 & m3 & ->).
  unfold IPNet_String, networkNumberAndMask, Mask, To4. cbn -[simpleMaskLength pretty].
  rewrite Hsimple.
  assert ((p =? -1) = false) as -> by (apply Z.eqb_neq; lia).
  reflexivity.
Qed.

(** Masking an address that is not IPv4-mapped does not make it so. *)
Lemma To4_masked_nil ip p :
  length ip = 16%nat -> Forall isOctet ip -> To4 ip = [] -> 0 <= p <= 128 ->
  To4 (andOctets ip (CIDRMask p 128)) = [].
Proof.
  intros Hl Hoct Hnil Hp.
  pose proof (CIDRMask_length 128 p (or_intror eq_refl) Hp) as Hlen.
  pose proof (CIDRMask_octets 128 p (or_intror eq_refl) Hp) as Hmo.
  pose proof (maskFacts_valid 128 p (or_intror eq_refl) Hp) as F.
  unfold maskFacts in F. apply andb_true_iff in F as [_ Hpre].
  change (Z.to_nat (128 / 8)) with 16%nat in Hlen.
  remember (CIDRMask p 128) as m eqn:Hm. clear Hm.
  apply length_16 in Hl
    as (a0 & a1 & a2 & a3 & a4 & a5 & a6 & a7 & a8 & a9 & a10 & a11 &
        a12 & a13 & a14 & a15 & ->).
  apply length_16 in Hlen
    as (m0 & m1 & m2 & m3 & m4 & m5 & m6 & m7 & m8 & m9 & m10 & m11 &
        m12 & m13 & m14 & m15 & ->).
  unfold To4 in *. cbn -[Z.eqb Z.land] in Hnil, Hpre |- *.
  destruct (Z.land a11 m11 =? 255) eqn:E11; [|by rewrite !andb_false_r].
  apply Z.eqb_eq in E11.
  assert (m11 = 255) as -> .
  { eapply land_255_inv; [|exact E11].
    rewrite !Forall_cons in Hmo. tauto. }
  rewrite Z.eqb_refl in Hpre. cbn -[Z.eqb Z.land] in Hpre.
  rewrite !andb_true_iff in Hpre.
  destruct Hpre as (E0 & E1 & E2 & E3 & E4 & E5 & E6 & E7 & E8 & E9 & E10 & _).
  apply Z.eqb_eq in E0, E1, E2, E3, E4, E5, E6, E7, E8, E9, E10. subst.
  rewrite !Forall_cons in Hoct.
  destruct Hoct as (O0 & O1 & O2 & O3 & O4 & O5 & O6 & O7 & O8 & O9 & O10 & O11 & _).
  rewrite !land_255 by assumption.
  rewrite land_255 in E11 by assumption. subst a11.
  rewrite Z.eqb_refl in Hnil.
  match type of Hnil with (if ?c then _ else _) = _ => destruct c; [done|] end.
  reflexivity.
Qed.

Lemma length_andOctets a m :
  length (andOctets a m) = Nat.min (length a) (length m).
Proof.
  revert m. induction a as [|x a IH]; intros [|y m]; simpl; try done.
  by rewrite IH.
Qed.

Lemma andOctets_lookup a m (j : nat) :
  (j < length a)%nat -> (j < length m)%nat ->
  andOctets a m !!! j = Z.land (a !!! j) (m !!! j).
Proof.
  revert m j. induction a as [|x a IH]; intros [|y m] j Ha Hm; simpl in *; try lia.
  destruct j as [|j]; [done|].
  change (andOctets a m !!! j = Z.land (a !!! j) (m !!! j)). apply IH; lia.
Qed.

(** Masking keeps the bits of the address below the prefix length and
    clears the others: bit [k] from the left of octet [j]. *)
Lemma masked_bit bits p a (j k : nat) :
  (bits = 32 \/ bits = 128) -> 0 <= p <= bits ->
  length a = Z.to_nat (bits / 8) -> (j < length a)%nat -> (k < 8)%nat ->
  Z.testbit (andOctets a (CIDRMask p bits) !!! j) (7 - Z.of_nat k) =
    Z.testbit (a !!! j) (7 - Z.of_nat k) && (8 * Z.of_nat j + Z.of_nat k <? p).
Proof.
  intros Hb Hp Ha Hj Hk.
  pose proof (CIDRMask_length bits p Hb Hp) as Hm.
  rewrite andOctets_lookup by lia.
  rewrite Z.land_spec. f_equal. apply CIDRMask_bit; try done. lia.
Qed.

Lemma Mask_same_length ip m :
  length ip = length m -> (length ip = 4%nat \/ length ip = 16%nat) ->
  Mask ip m = andOctets ip m.
Proof.
  intros Hm Hl. assert (length m = length ip) as Hm' by done. unfold Mask.
  destruct Hl as [Hl|Hl]; rewrite Hl in Hm';
    do 3 (rewrite ?Hm', ?Hl; cbn [Nat.eqb andb negb]); reflexivity.
Qed.

(** The rendering of the network of an address that is not IPv4. *)
Lemma IPNet_String_v6 ip p :
  length ip = 16%nat -> Forall isOctet ip -> To4 ip = [] -> 0 <= p <= 128 ->
  IPNet_String (mkIPNet (Mask ip (CIDRMask p 128)) (CIDRMask p 128)) =
    IP_String (andOctets ip (CIDRMask p 128)) +:+ "/" +:+ pretty p.
Proof.
  intros Hl Hoct Hnil Hp.
  pose proof (CIDRMask_length 128 p (or_intror eq_refl) Hp) as Hlen.
  pose proof (CIDRMask_simple 128 p (or_intror eq_refl) Hp) as Hsimple.
  pose proof (To4_masked_nil ip p Hl Hoct Hnil Hp) as Hmasked.
  change (Z.to_nat (128 / 8)) with 16%nat in Hlen.
  rewrite Mask_same_length by (rewrite ?Hl, ?Hlen; auto).
  assert (length (andOctets ip (CIDRMask p 128)) = 16%nat) as Hlm
    by (rewrite length_andOctets, Hl, Hlen; done).
  remember (andOctets ip (CIDRMask p 128)) as masked eqn:E1. clear E1.
  remember (CIDRMask p 128) as m eqn:E2. clear E2.
  unfold IPNet_String, networkNumberAndMask. cbn [net_IP net_Mask].
  rewrite Hmasked. cbn [isNil andb]. rewrite Hlm, Hlen.
  cbn [isNil Nat.eqb andb negb].
  destruct masked as [|x masked]; [done|]. destruct m as [|y m]; [done|].
  cbn [isNil orb]. rewrite Hsimple.
  assert ((p =? -1) = false) as -> by (apply Z.eqb_neq; lia).
  reflexivity.
Qed.

Lemma isNil_false (l : list Z) : l <> [] -> isNil l = false.
Proof. by destruct l. Qed.

(** C5, for prefix lengths the address family has.  An input that
    [net.ParseIP] refuses is returned unchanged.  For an IPv4 address
    (one for which [To4] is not nil) the result is the address masked to
    [v4Prefix] bits, a slash and [v4Prefix] when [0 < v4Prefix <= 32], and
    the address itself when [v4Prefix <= 0].  For any other address the
    same holds with [v6Prefix] and 128.  ([masked_bit] says which bits the
    masking keeps.) *)
Theorem normalizeIP_spec ipStr v4Prefix v6Prefix :
  let ip := ParseIP ipStr in
  let result := normalizeIPWithOptionalPrefixes ipStr v4Prefix v6Prefix in
  (ip = [] -> result = ipStr) /\
  (ip <> [] -> To4 ip <> [] ->
     (0 < v4Prefix <= 32 ->
        result = IP_String (andOctets (To4 ip) (CIDRMask v4Prefix 32))
                 +:+ "/" +:+ pretty v4Prefix) /\
     (v4Prefix <= 0 -> result = IP_String (To4 ip))) /\
  (ip <> [] -> To4 ip = [] ->
     (0 < v6Prefix <= 128 ->
        result = IP_String (andOctets ip (CIDRMask v6Prefix 128))
                 +:+ "/" +:+ pretty v6Prefix) /\
     (v6Prefix <= 0 -> result = IP_String ip)).
Proof.
  intros ip result. subst result. unfold normalizeIPWithOptionalPrefixes. fold ip.
  destruct (ParseIP_inv ipStr) as [Hnil | [Hlen Hoct]]; fold ip in Hnil || fold ip in Hlen, Hoct.
  - rewrite Hnil. cbn [isNil]. repeat split; done.
  - assert (ip <> []) as Hne by (intros E; by rewrite E in Hlen).
    rewrite (isNil_false ip Hne).
    split; [done|]. split.
    + intros _ H4. rewrite (isNil_false _ H4). cbn [negb].
      destruct (To4_length ip Hlen) as [E | H4len]; [done|].
      split.
      * intros Hp. assert ((0 <? v4Prefix) = true) as -> by (apply Z.ltb_lt; lia).
        apply IPNet_String_v4; [done|lia].
      * intros Hp. assert ((0 <? v4Prefix) = false) as -> by (apply Z.ltb_ge; lia).
        reflexivity.
    + intros _ H4. rewrite H4. cbn [isNil negb].
      split.
      * intros Hp. assert ((0 <? v6Prefix) = true) as -> by (apply Z.ltb_lt; lia).
        apply IPNet_String_v6; try done. lia.
      * intros Hp. assert ((0 <? v6Prefix) = false) as -> by (apply Z.ltb_ge; lia).
        reflexivity.
Qed.

(** The example of the specification, from the theorem. *)
Lemma normalizeIP_spec_witness :
  normalizeIPWithOptionalPrefixes "203.0.113.77" 24 64 = "203.0.113.0/24"%string.
Proof.
  destruct (normalizeIP_spec "203.0.113.77" 24 64) as (_ & H4 & _).
  destruct H4 as [Hmask _]; [discriminate|discriminate|].
  rewrite Hmask by lia. reflexivity.
Defined.

Example normalizeIP_examples :
  normalizeIPWithOptionalPrefixes "203.0.113.200" 24 64 = "203.0.113.0/24"%string /\
  normalizeIPWithOptionalPrefixes "203.0.113.77" 0 64 = "203.0.113.77"%string /\
  normalizeIPWithOptionalPrefixes "2001:DB8:0:0:8:800:200C:417A" 24 64 = "2001:db8::/64"%string /\
  normalizeIPWithOptionalPrefixes "2001:DB8:0:0:8:800:200C:417A" 24 0 =
    "2001:db8::8:800:200c:417a"%string /\
  normalizeIPWithOptionalPrefixes "::ffff:203.0.113.77" 24 64 = "203.0.113.0/24"%string /\
  normalizeIPWithOptionalPrefixes "fe80::1%eth0" 24 64 = "fe80::1%eth0"%string /\
  normalizeIPWithOptionalPrefixes "not an address" 24 64 = "not an address"%string.
Proof. by vm_compute. Qed.

(** With a prefix length of 33 an IPv4 address does not give a CIDR
    string: [CIDRMask] refuses the length, [Mask] then returns nil, and
    the result is the rendering of a nil network, for every IPv4 address. *)
Lemma normalizeIP_prefix_33 :
  To4 (ParseIP "203.0.113.77") <> [] /\ 0 < 33 /\
  normalizeIPWithOptionalPrefixes "203.0.113.77" 33 0 = "<nil>"%string /\
  normalizeIPWithOptionalPrefixes "198.51.100.1" 33 0 = "<nil>"%string /\
  forall a : string,
    normalizeIPWithOptionalPrefixes "203.0.113.77" 33 0 <> a +:+ "/" +:+ pretty 33.
Proof.
  split; [discriminate|]. split; [lia|].
  split; [reflexivity|]. split; [reflexivity|].
  intros a H. vm_compute in H.
  do 5 (destruct a as [|? a]; [discriminate H|]; injection H as _ H).
  destruct a; discriminate H.
Qed.

End NetIP.

(** ** EmergencyFilter ([policy/emergency_filter.go]) *)
Module Emergency.

(** The fields of [config.EmergencyFilterConfig] the constructor reads. *)
Record PerIPConfig : Type := mkPerIP {
  PerIP_Enabled : bool;
  PerIP_Rate : float;
  PerIP_Burst : Z;
  PerIP_CacheSize : Z;
  PerIP_TTL : Duration;
  IPv4Prefix : Z;
  IPv6Prefix : Z
}.

Record EmergencyFilterConfig : Type := mkConfig {
  Enabled : bool;
  NewKeysRate : float;
  NewKeysBurst : Z;
  CacheSize : Z;
  TTL : Duration;
  PerIP : PerIPConfig
}.

(** The pointers of the struct are nil ([None]) in the zero value. *)
Record EmergencyFilter : Type := mkFilter {
  newKeyLimiter : option loc;
  recentSeen : option (LRU.t unit);
  perIPEnabled : bool;
  perIPLimiters : option (LRU.t loc);
  perIPRate : float;
  perIPBurst : Z;
  ipv4Prefix : Z;
  ipv6Prefix : Z
}.

(** [&EmergencyFilter{}] *)
Definition zeroFilter : EmergencyFilter :=
  mkFilter None None false None 0%float 0 0 0.

Definition perIPError : string :=
  "blocked: emergency per-ip limit for new pubkeys exceeded".

Definition globalError : string :=
  "blocked: emergency global limit for new pubkeys exceeded".

Definition withSeen (f : EmergencyFilter) (c : LRU.t unit) : EmergencyFilter :=
  mkFilter (newKeyLimiter f) (Some c) (perIPEnabled f) (perIPLimiters f)
           (perIPRate f) (perIPBurst f) (ipv4Prefix f) (ipv6Prefix f).

Definition withPerIP (f : EmergencyFilter) (c : LRU.t loc) : EmergencyFilter :=
  mkFilter (newKeyLimiter f) (recentSeen f) (perIPEnabled f) (Some c)
           (perIPRate f) (perIPBurst f) (ipv4Prefix f) (ipv6Prefix f).

Section WithLimiter.
Context {L : Type} `{RateLimiter L}.

(** The constructor; the limiter for new keys is allocated in the world. *)
Definition NewEmergencyFilter (cfg : option EmergencyFilterConfig) (w : World L)
    : EmergencyFilter * World L :=
  match cfg with
  | None => (zeroFilter, w)
  | Some c =>
      if negb (Enabled c) then (zeroFilter, w)
      else
        let '(g, w') := allocLimiter w (NewKeysRate c) (NewKeysBurst c) in
        let seen := LRU.NewLRU unit (CacheSize c) (TTL c) in
        if PerIP_Enabled (PerIP c) then
          (mkFilter (Some g) (Some seen) true
             (Some (LRU.NewLRU loc (PerIP_CacheSize (PerIP c)) (PerIP_TTL (PerIP c))))
             (PerIP_Rate (PerIP c)) (PerIP_Burst (PerIP c))
             (IPv4Prefix (PerIP c)) (IPv6Prefix (PerIP c)), w')
        else
          (mkFilter (Some g) (Some seen) false None 0%float 0 0 0, w')
  end.

(** The per-address block of [Match]: whether the event passes it. *)
Definition perIPCheck (f : EmergencyFilter) (w : World L) (meta : gmap string Any)
    (now : Time) : Result (bool * EmergencyFilter * World L) :=
  if perIPEnabled f then
    match remote_ip_of meta with
    | (remoteIP, true) =>
        if negb (String.eqb remoteIP "") then
          let key := NetIP.normalizeIPWithOptionalPrefixes remoteIP
                       (ipv4Prefix f) (ipv6Prefix f) in
          match perIPLimiters f with
          | None => Panic
          | Some c =>
              let '(l, c', w1) := getOrCreate c w key (perIPRate f) (perIPBurst f) now in
              let '(ok, w2) := allowAt w1 l now in
              Ok (ok, withPerIP f c', w2)
          end
        else Ok (true, f, w)
    | (_, false) => Ok (true, f, w)
    end
  else Ok (true, f, w).

Definition Match (f : EmergencyFilter) (w : World L) (ev : Event)
    (meta : gmap string Any) (now : Time)
    : Result (Verdict string * EmergencyFilter * World L) :=
  match newKeyLimiter f with
  | None => Ok (allowed, f, w)
  | Some g =>
      let pk := PubKey ev in
      if String.eqb pk "" then Ok (allowed, f, w)
      else
        match recentSeen f with
        | None => Panic
        | Some seen =>
            match LRU.Get seen pk now with
            | (Some _, seen1) => Ok (allowed, withSeen f seen1, w)
            | (None, seen1) =>
                match perIPCheck (withSeen f seen1) w meta now with
                | Panic => Panic
                | Ok (false, f2, w2) => Ok (rejected perIPError, f2, w2)
                | Ok (true, f2, w2) =>
                    let '(ok, w3) := allowAt w2 g now in
                    if ok
                    then Ok (allowed, withSeen f2 (LRU.Add seen1 pk tt now), w3)
                    else Ok (rejected globalError, f2, w3)
                end
            end
        end
  end.

(** A sequence of calls, each with its metadata and clock reading: the
    verdicts, or a panic. *)
Fixpoint MatchAll (f : EmergencyFilter) (w : World L)
    (calls : list (Event * gmap string Any * Time)) : Result (list (Verdict string)) :=
  match calls with
  | [] => Ok []
  | (ev, meta, now) :: rest =>
      match Match f w ev meta now with
      | Panic => Panic
      | Ok (v, f', w') =>
          match MatchAll f' w' rest with
          | Panic => Panic
          | Ok vs => Ok (v :: vs)
          end
      end
  end.

(** *** Well-formed filters

    What the constructor establishes and [Match] keeps: with a limiter
    for new keys come the cache of seen keys and, if the per-address
    throttle is on, its cache, whose limiters are other objects than the
    limiter for new keys. *)
Definition wf (f : EmergencyFilter) (w : World L) : Prop :=
  match newKeyLimiter f with
  | None => True
  | Some g =>
      (g < length (heap w))%nat /\
      is_Some (recentSeen f) /\
      (perIPEnabled f = true ->
       exists c, perIPLimiters f = Some c /\
                 Forall (fun e => LRU.evalue e <> g) (LRU.items c))
  end.

(** The key is in the cache of seen keys and has not expired. *)
Definition recentlySeen (f : EmergencyFilter) (pk : string) (now : Time) : bool :=
  match recentSeen f with
  | Some seen => bool_decide (is_Some (fst (LRU.Get seen pk now)))
  | None => false
  end.

(** The key of the per-address limiter, when the throttle is on and the
    metadata hold a non-empty address. *)
Definition perIPKey (f : EmergencyFilter) (meta : gmap string Any) : option string :=
  if perIPEnabled f then
    match remote_ip_of meta with
    | (remoteIP, true) =>
        if negb (String.eqb remoteIP "") then
          Some (NetIP.normalizeIPWithOptionalPrefixes remoteIP (ipv4Prefix f) (ipv6Prefix f))
        else None
    | (_, false) => None
    end
  else None.

Lemma NewEmergencyFilter_wf cfg w :
  wf (fst (NewEmergencyFilter cfg w)) (snd (NewEmergencyFilter cfg w)).
Proof.
  unfold NewEmergencyFilter, wf. destruct cfg as [c|]; [|done].
  destruct (Enabled c); simpl; [|done].
  destruct (PerIP_Enabled (PerIP c)); simpl.
  - rewrite length_app. simpl. split; [lia|]. split; [by eexists|].
    intros _. eexists. split; [done|]. constructor.
  - rewrite length_app. simpl. split; [lia|]. split; [by eexists|]. done.
Qed.

Lemma getOrCreate_loc (c : LRU.t loc) (w : World L) key r b now :
  let l := fst (fst (getOrCreate c w key r b now)) in
  (exists e, In e (LRU.items c) /\ LRU.evalue e = l) \/ l = length (heap w).
Proof.
  unfold getOrCreate. destruct (LRU.Get c key now) as [[l|] c'] eqn:G; simpl.
  - left. apply (LRU.Get_found c key now). by rewrite G.
  - by right.
Qed.

Lemma getOrCreate_heap_length (c : LRU.t loc) (w : World L) key r b now :
  (length (heap w) <= length (heap (snd (getOrCreate c w key r b now))))%nat.
Proof.
  unfold getOrCreate. destruct (LRU.Get c key now) as [[l|] c']; simpl; [done|].
  rewrite length_app. lia.
Qed.

Lemma getOrCreate_items (P : LRU.Entry loc -> Prop) (c : LRU.t loc) (w : World L)
    key r b now :
  Forall P (LRU.items c) ->
  (forall t, P (LRU.mkEntry key (length (heap w)) t)) ->
  Forall P (LRU.items (snd (fst (getOrCreate c w key r b now)))).
Proof.
  intros HP Hnew. unfold getOrCreate.
  pose proof (LRU.Get_items P c key now HP) as HG.
  destruct (LRU.Get c key now) as [[l|] c']; simpl in *; [done|].
  by apply LRU.Add_items.
Qed.

Lemma allowAt_heap_length (w : World L) l now :
  length (heap (snd (allowAt w l now))) = length (heap w).
Proof.
  unfold allowAt. destruct (Allow (heap w !!! l) now). simpl.
  by rewrite length_insert.
Qed.

(** The per-address block, for a well-formed filter: it does not panic;
    without a key it does nothing; with a key it finds or creates the
    limiter of the key, which is not the limiter for new keys, and asks
    it, leaving the other limiters as they were. *)
Lemma perIPCheck_spec f w meta now g :
  newKeyLimiter f = Some g -> wf f w ->
  exists ok f2 w2,
    perIPCheck f w meta now = Ok (ok, f2, w2) /\
    newKeyLimiter f2 = Some g /\ recentSeen f2 = recentSeen f /\ wf f2 w2 /\
    match perIPKey f meta with
    | None => ok = true /\ f2 = f /\ w2 = w
    | Some key =>
        exists lip eip,
          (eip = LimiterFound key lip \/ eip = LimiterCreated key lip) /\
          lip <> g /\
          log w2 = log w ++ [eip; LimiterAllow lip ok] /\
          heap w2 !! g = heap w !! g
    end.
Proof.
  intros Hg Hwf. unfold perIPCheck, perIPKey.
  destruct (perIPEnabled f) eqn:Hen; [|by exists true, f, w].
  destruct (remote_ip_of meta) as [remoteIP [|]]; [|by exists true, f, w].
  destruct (negb (String.eqb remoteIP "")); [|by exists true, f, w].
  pose proof Hwf as Hwf'. unfold wf in Hwf'. rewrite Hg in Hwf'.
  destruct Hwf' as (Hlt & Hseen & Hper).
  destruct (Hper Hen) as (c & Hc & Hne). rewrite Hc.
  set (key := NetIP.normalizeIPWithOptionalPrefixes remoteIP (ipv4Prefix f) (ipv6Prefix f)).
  pose proof (getOrCreate_world c w key (perIPRate f) (perIPBurst f) now)
    as [(eip & Heip & Hlog) Hold].
  pose proof (getOrCreate_loc c w key (perIPRate f) (perIPBurst f) now) as Hloc.
  pose proof (getOrCreate_heap_length c w key (perIPRate f) (perIPBurst f) now) as Hlen.
  pose proof (getOrCreate_items (fun e => LRU.evalue e <> g) c w key
                (perIPRate f) (perIPBurst f) now Hne) as Hitems.
  destruct (getOrCreate c w key (perIPRate f) (perIPBurst f) now) as [[lip c'] w1].
  simpl in *.
  assert (lip <> g) as Hlip.
  { destruct Hloc as [(e & He & <-) | ->]; [|lia].
    rewrite Forall_forall in Hne. by apply Hne, list_elem_of_In. }
  pose proof (allowAt_log w1 lip now) as Hlog2.
  pose proof (allowAt_other w1 lip now g ltac:(done)) as Hother.
  pose proof (allowAt_heap_length w1 lip now) as Hlen2.
  destruct (allowAt w1 lip now) as [ok w2]. simpl in *.
  exists ok, (withPerIP f c'), w2. split; [done|]. split; [done|]. split; [done|].
  split.
  - unfold wf. simpl. rewrite Hg. split; [lia|]. split; [done|].
    intros _. exists c'. split; [done|]. apply Hitems. simpl. lia.
  - exists lip, eip. split; [done|]. split; [done|]. split.
    + rewrite Hlog2, Hlog. by rewrite <- app_assoc.
    + rewrite Hother. by apply Hold.
Qed.

(** The per-address block in terms of the calls it makes: without a key
    it does nothing; with a key it looks the limiter of the key up in its
    cache, or creates and adds it, and asks it once. *)
Lemma perIPCheck_exact f w meta now :
  match perIPKey f meta with
  | None => perIPCheck f w meta now = Ok (true, f, w)
  | Some key =>
      match perIPLimiters f with
      | None => perIPCheck f w meta now = Panic
      | Some c =>
          exists (lip : loc) (c1 : LRU.t loc) (w1 : World L) (okip : bool) (w2 : World L),
            lookedUpOrCreated c w key (perIPRate f) (perIPBurst f) now lip c1 w1 /\
            asked w1 lip now okip w2 /\
            perIPCheck f w meta now = Ok (okip, withPerIP f c1, w2)
      end
  end.
Proof.
  unfold perIPCheck, perIPKey.
  destruct (perIPEnabled f); [|done].
  destruct (remote_ip_of meta) as [remoteIP [|]]; [|done].
  destruct (negb (String.eqb remoteIP "")); [|done].
  destruct (perIPLimiters f) as [c|]; [|done].
  set (key := NetIP.normalizeIPWithOptionalPrefixes remoteIP (ipv4Prefix f) (ipv6Prefix f)).
  pose proof (getOrCreate_exact c w key (perIPRate f) (perIPBurst f) now) as G.
  destruct (getOrCreate c w key (perIPRate f) (perIPBurst f) now) as [[lip c1] w1].
  cbn [fst snd] in G.
  pose proof (allowAt_exact w1 lip now) as A.
  destruct (allowAt w1 lip now) as [okip w2]. cbn [fst snd] in A.
  by exists lip, c1, w1, okip, w2.
Qed.

(** The limiter a lookup-or-create gives is one the cache held or a new
    one, and it leaves the limiters that existed as they were. *)
Lemma lookedUpOrCreated_loc (c : LRU.t loc) (w : World L) key r b now l c' w' :
  lookedUpOrCreated c w key r b now l c' w' ->
  ((exists e, In e (LRU.items c) /\ LRU.evalue e = l) \/ l = length (heap w)) /\
  (forall l', (l' < length (heap w))%nat -> heap w' !! l' = heap w !! l').
Proof.
  unfold lookedUpOrCreated.
  destruct (fst (LRU.Get c key now)) as [held|] eqn:G.
  - intros (-> & _ & -> & _). split; [|done]. left. by apply (LRU.Get_found c key now).
  - intros (-> & _ & -> & _). split; [by right|].
    intros l' Hl'. by apply lookup_app_l.
Qed.

(** C2. For a well-formed filter, [Match] does not panic and:
    - without a limiter for new keys (a disabled filter), with an empty
      public key, or with a public key that is in the cache of seen keys,
      the event is allowed and the world is untouched: no limiter is made
      or asked;
    - otherwise, when the per-address throttle is on and the metadata hold
      an address, the limiter of the normalised address is looked up in
      the cache of the throttle, or created from its rate and burst and
      added, and [Allow] is called on it; if that denies, the event is
      rejected and the call ends there: the limiter for new keys keeps its
      state and the cache of seen keys is unchanged; if it allows, [Allow]
      is called next on the limiter for new keys, in the state it had
      before the call of [Match];
    - with no per-address check, [Allow] is called on the limiter for new
      keys and on nothing else;
    - the answer of the limiter for new keys is the verdict, and the
      public key is added to the cache of seen keys exactly when it
      allows. *)
Theorem Match_order f w ev meta now :
  wf f w ->
  exists v f' w',
    Match f w ev meta now = Ok (v, f', w') /\
    match newKeyLimiter f with
    | None => v = allowed /\ f' = f /\ w' = w
    | Some g =>
        if bool_decide (PubKey ev = ""%string) || recentlySeen f (PubKey ev) now
        then v = allowed /\ w' = w /\ perIPLimiters f' = perIPLimiters f
        else
          exists seen : LRU.t unit,
            recentSeen f = Some seen /\
            match perIPKey f meta with
            | Some key =>
                exists (c : LRU.t loc) (lip : loc) (c1 : LRU.t loc) (w1 : World L)
                       (okip : bool) (w2 : World L),
                  perIPLimiters f = Some c /\
                  lookedUpOrCreated c w key (perIPRate f) (perIPBurst f) now lip c1 w1 /\
                  asked w1 lip now okip w2 /\
                  lip <> g /\ perIPLimiters f' = Some c1 /\
                  if okip
                  then exists okg : bool,
                         asked w2 g now okg w' /\
                         heap w2 !! g = heap w !! g /\
                         v = (if okg then allowed else rejected globalError) /\
                         recentSeen f' =
                           Some (if okg then LRU.Add seen (PubKey ev) tt now else seen)
                  else w' = w2 /\
                       v = rejected perIPError /\
                       heap w' !! g = heap w !! g /\
                       recentSeen f' = Some seen
            | None =>
                exists okg : bool,
                  asked w g now okg w' /\
                  perIPLimiters f' = perIPLimiters f /\
                  v = (if okg then allowed else rejected globalError) /\
                  recentSeen f' =
                    Some (if okg then LRU.Add seen (PubKey ev) tt now else seen)
            end
    end.
Proof.
  intros Hwf. unfold Match.
  destruct (newKeyLimiter f) as [g|] eqn:Hg; [|by exists allowed, f, w].
  destruct (String.eqb (PubKey ev) "") eqn:Hpk.
  { apply String.eqb_eq in Hpk. exists allowed, f, w.
    split; [done|]. by rewrite bool_decide_eq_true_2. }
  apply String.eqb_neq in Hpk. rewrite (bool_decide_eq_false_2 _ Hpk). cbn [orb].
  pose proof Hwf as Hwf'. unfold wf in Hwf'. rewrite Hg in Hwf'.
  destruct Hwf' as (Hlt & [seen Hseen] & Hper).
  unfold recentlySeen. rewrite Hseen.
  pose proof (LRU.Get_miss_same seen (PubKey ev) now) as Hmiss.
  destruct (LRU.Get seen (PubKey ev) now) as [[[]|] seen1]; simpl in *.
  { exists allowed, (withSeen f seen1), w. split; [done|].
    rewrite ?bool_decide_eq_true_2 by (by eexists). done. }
  rewrite ?bool_decide_eq_false_2 by (by intros [? [=]]).
  rewrite Hmiss by done. clear Hmiss seen1.
  assert (withSeen f seen = f) as -> by (destruct f; simpl in *; by subst).
  pose proof (perIPCheck_exact f w meta now) as HE.
  pose proof (allowAt_exact w g now) as AG0.
  destruct (perIPKey f meta) as [key|] eqn:Hk.
  - assert (perIPEnabled f = true) as Hen.
    { unfold perIPKey in Hk. by destruct (perIPEnabled f). }
    destruct (Hper Hen) as (c & Hc & Hne). rewrite Hc in HE.
    destruct HE as (lip & c1 & w1 & okip & w2 & HG & HA & ->).
    destruct (lookedUpOrCreated_loc c w key _ _ now lip c1 w1 HG) as [Hloc Hold].
    assert (lip <> g) as Hlip.
    { destruct Hloc as [(e & He & <-) | ->]; [|lia].
      rewrite Forall_forall in Hne. by apply Hne, list_elem_of_In. }
    assert (heap w2 !! g = heap w !! g) as Hgg.
    { rewrite (asked_other w1 lip now okip w2 g HA) by done. by apply Hold. }
    destruct okip.
    + pose proof (allowAt_exact w2 g now) as AG.
      destruct (allowAt w2 g now) as [okg w3]. cbn [fst snd] in AG.
      destruct okg.
      * eexists _, _, _. split; [done|]. exists seen. split; [done|].
        exists c, lip, c1, w1, true, w2. cbn [withSeen withPerIP perIPLimiters recentSeen].
        split; [done|]. split; [done|]. split; [done|]. split; [done|]. split; [done|].
        exists true. done.
      * eexists _, _, _. split; [done|]. exists seen. split; [done|].
        exists c, lip, c1, w1, true, w2. cbn [withSeen withPerIP perIPLimiters recentSeen].
        split; [done|]. split; [done|]. split; [done|]. split; [done|]. split; [done|].
        exists false. rewrite Hseen. done.
    + eexists _, _, _. split; [done|]. exists seen. split; [done|].
      exists c, lip, c1, w1, false, w2. cbn [withSeen withPerIP perIPLimiters recentSeen].
      split; [done|]. split; [done|]. split; [done|]. split; [done|]. split; [done|].
      split; [done|]. split; [done|]. split; [done|]. exact Hseen.
  - rewrite HE. destruct (allowAt w g now) as [okg w3]. cbn [fst snd] in AG0.
    destruct okg.
    + eexists _, _, _. split; [done|]. exists seen. split; [done|].
      exists true. done.
    + eexists _, _, _. split; [done|]. exists seen. split; [done|].
      exists false. done.
Qed.

(** [Match] keeps a filter well formed. *)
Lemma Match_wf f w ev meta now v f' w' :
  wf f w -> Match f w ev meta now = Ok (v, f', w') -> wf f' w'.
Proof.
  intros Hwf. unfold Match.
  destruct (newKeyLimiter f) as [g|] eqn:Hg; [|by intros [= <- <- <-]].
  destruct (String.eqb (PubKey ev) ""); [by intros [= <- <- <-]|].
  pose proof Hwf as Hwf'. unfold wf in Hwf'. rewrite Hg in Hwf'.
  destruct Hwf' as (Hlt & [seen Hseen] & Hper). rewrite Hseen.
  assert (forall c, wf (withSeen f c) w) as Hws.
  { intros c. unfold wf. simpl. rewrite Hg. split; [done|]. split; [by eexists|done]. }
  destruct (LRU.Get seen (PubKey ev) now) as [[[]|] seen1]; [by intros [= <- <- <-]|].
  destruct (perIPCheck_spec (withSeen f seen1) w meta now g Hg (Hws seen1))
    as (ok & f2 & w2 & -> & Hg2 & Hs2 & Hwf2 & _).
  destruct ok; [|by intros [= <- <- <-]].
  pose proof (allowAt_heap_length w2 g now) as Hlen.
  destruct (allowAt w2 g now) as [okg w3]. simpl in Hlen.
  unfold wf in Hwf2. rewrite Hg2 in Hwf2. destruct Hwf2 as (Hlt2 & Hs & Hp2).
  destruct okg; intros [= <- <- <-]; unfold wf; simpl; rewrite Hg2.
  - split; [lia|]. split; [by eexists|done].
  - split; [lia|]. done.
Qed.

(** C10. A filter constructed from a nil configuration, or from one with
    [Enabled] false, allows every event, returns no error, and is not
    changed by the call; so is every event of any sequence of calls. *)
Theorem disabled_allows_all cfg w :
  (cfg = None \/ exists c, cfg = Some c /\ Enabled c = false) ->
  let f := fst (NewEmergencyFilter cfg w) in
  let w0 := snd (NewEmergencyFilter cfg w) in
  w0 = w /\
  (forall ev meta now, Match f w0 ev meta now = Ok (allowed, f, w0)) /\
  (forall calls, MatchAll f w0 calls = Ok (map (fun _ => allowed) calls)).
Proof.
  intros Hcfg f w0.
  assert (f = zeroFilter /\ w0 = w) as [Hf Hw].
  { subst f w0. unfold NewEmergencyFilter.
    destruct Hcfg as [-> | (c & -> & ->)]; done. }
  rewrite Hf, Hw. split; [done|].
  assert (forall ev meta now, Match zeroFilter w ev meta now = Ok (allowed, zeroFilter, w))
    as HM by done.
  split; [done|].
  induction calls as [|[[ev meta] now] rest IH]; simpl; [done|].
  by rewrite IH.
Qed.

End WithLimiter.

(** *** A worked example: ten new keys per second overall, one per
    second and per /24 network *)

Definition exampleConfig : EmergencyFilterConfig :=
  {| Enabled := true; NewKeysRate := 10; NewKeysBurst := 10;
     CacheSize := 1000; TTL := Hour;
     PerIP := {| PerIP_Enabled := true; PerIP_Rate := 1; PerIP_Burst := 1;
                 PerIP_CacheSize := 1000; PerIP_TTL := Hour;
                 IPv4Prefix := 24; IPv6Prefix := 64 |} |}.

Definition metaFrom (ip : string) : gmap string Any :=
  {[ "remote_ip"%string := AnyString ip ]}.

Definition alice : Event := mkEvent 1 "alice" "hello" [].
Definition bob : Event := mkEvent 1 "bob" "hello" [].

Definition initial : EmergencyFilter * World TokenBucket :=
  NewEmergencyFilter (Some exampleConfig) (mkWorld [] []).

(** After the first event of [alice], from 203.0.113.77. *)
Definition afterAlice : EmergencyFilter * World TokenBucket :=
  match Match (fst initial) (snd initial) alice (metaFrom "203.0.113.77") 1000 with
  | Ok (_, f, w) => (f, w)
  | Panic => initial
  end.

Example example_new_key_allowed :
  exists f w,
    Match (fst initial) (snd initial) alice (metaFrom "203.0.113.77") 1000
      = Ok (allowed, f, w) /\
    log w = [LimiterCreated "203.0.113.0/24" 1%nat; LimiterAllow 1%nat true;
             LimiterAllow 0%nat true] /\
    recentlySeen f "alice" 1000 = true.
Proof. eexists _, _. by vm_compute. Qed.

(** A repeat of [alice] goes through the cache of seen keys. *)
Example example_seen_key_bypass :
  exists f,
    Match (fst afterAlice) (snd afterAlice) alice (metaFrom "203.0.113.77") 1000
      = Ok (allowed, f, snd afterAlice).
Proof. eexists. by vm_compute. Qed.

(** [bob] comes from the same /24: the limiter of the network denies and
    the limiter for new keys (location 0) is not asked. *)
Example example_per_ip_rejection :
  exists f w,
    Match (fst afterAlice) (snd afterAlice) bob (metaFrom "203.0.113.200") 1000
      = Ok (rejected perIPError, f, w) /\
    log w = log (snd afterAlice) ++
            [LimiterFound "203.0.113.0/24" 1%nat; LimiterAllow 1%nat false] /\
    heap w !! 0%nat = heap (snd afterAlice) !! 0%nat /\
    recentlySeen f "bob" 1000 = false.
Proof. eexists _, _. by vm_compute. Qed.

Lemma afterAlice_wf : wf (fst afterAlice) (snd afterAlice).
Proof.
  eapply (Match_wf (fst initial) (snd initial) alice (metaFrom "203.0.113.77") 1000).
  - apply NewEmergencyFilter_wf.
  - vm_compute. reflexivity.
Defined.

(** [bob] after [alice], from the same /24: the limiter of the network is
    found in the cache of the throttle and denies; the limiter for new
    keys (location 0) and the cache of seen keys stay as they were. *)
Lemma Match_order_witness :
  exists f' w' c c1,
    Match (fst afterAlice) (snd afterAlice) bob (metaFrom "203.0.113.200") 1000
      = Ok (rejected perIPError, f', w') /\
    perIPLimiters (fst afterAlice) = Some c /\
    lookedUpOrCreated c (snd afterAlice) "203.0.113.0/24" 1 1 1000 1%nat c1
      (mkWorld (heap (snd afterAlice))
               (log (snd afterAlice) ++ [LimiterFound "203.0.113.0/24" 1%nat])) /\
    asked (mkWorld (heap (snd afterAlice))
                   (log (snd afterAlice) ++ [LimiterFound "203.0.113.0/24" 1%nat]))
          1%nat 1000 false w' /\
    heap w' !! 0%nat = heap (snd afterAlice) !! 0%nat /\
    recentSeen f' = recentSeen (fst afterAlice).
Proof.
  destruct (Match_order (fst afterAlice) (snd afterAlice) bob
              (metaFrom "203.0.113.200") 1000 afterAlice_wf)
    as (v & f' & w' & HM & Hspec).
  assert (newKeyLimiter (fst afterAlice) = Some 0%nat) as E1 by (vm_compute; reflexivity).
  rewrite E1 in Hspec.
  assert (bool_decide (PubKey bob = ""%string) ||
          recentlySeen (fst afterAlice) (PubKey bob) 1000 = false) as E2
    by (vm_compute; reflexivity).
  rewrite E2 in Hspec. destruct Hspec as (seen & Hseen & Hspec).
  assert (perIPKey (fst afterAlice) (metaFrom "203.0.113.200") =
          Some "203.0.113.0/24"%string) as E3 by (vm_compute; reflexivity).
  rewrite E3 in Hspec.
  destruct Hspec as (c & lip & c1 & w1 & okip & w2 & Hc & HG & HA & Hne & Hc1 & Hrest).
  assert (c = default (LRU.NewLRU loc 0 0) (perIPLimiters (fst afterAlice))) as Ec
    by (by rewrite Hc).
  rewrite Ec in HG.
  assert (lip = 1%nat /\
          c1 = snd (LRU.Get (default (LRU.NewLRU loc 0 0) (perIPLimiters (fst afterAlice)))
                            "203.0.113.0/24" 1000) /\
          heap w1 = heap (snd afterAlice) /\
          log w1 = log (snd afterAlice) ++ [LimiterFound "203.0.113.0/24" lip])
    as (-> & Ec1 & Hh & Hl) by exact HG.
  assert (w1 = mkWorld (heap (snd afterAlice))
                 (log (snd afterAlice) ++ [LimiterFound "203.0.113.0/24" 1%nat]))
    as -> by (by apply world_eq).
  assert (okip = false) as -> by (destruct HA as (-> & _); vm_compute; reflexivity).
  destruct Hrest as (-> & -> & Hg & Hs).
  exists f', w2, c, c1. split; [exact HM|]. split; [exact Hc|].
  split; [rewrite Ec; exact HG|]. split; [exact HA|]. split; [exact Hg|].
  by rewrite Hs, Hseen.
Defined.

Lemma disabled_allows_all_witness :
  Match (fst (NewEmergencyFilter None (mkWorld ([] : list TokenBucket) [])))
        (mkWorld [] []) alice (metaFrom "203.0.113.77") 1000
  = Ok (allowed, zeroFilter, mkWorld [] []).
Proof.
  destruct (disabled_allows_all None (mkWorld ([] : list TokenBucket) [])
              (or_introl eq_refl)) as (_ & HM & _).
  exact (HM alice (metaFrom "203.0.113.77") 1000).
Defined.

End Emergency.

(** ** EphemeralChatFilter ([policy/ephemeral_chat_filter.go]) *)
Module Chat.

(** The fields of [config.EphemeralChatFilterConfig] the filter reads. *)
Record EphemeralChatFilterConfig : Type := mkConfig {
  Enabled : bool;
  Kinds : list Z;
  MinDelay : Duration;
  MaxCapsRatio : float;
  MinLettersForCapsCheck : Z;
  MaxRepeatChars : Z;
  MaxWordLength : Z;
  BlockZalgo : bool;
  RateLimitRate : float;
  RateLimitBurst : Z;
  RequiredPoWOnLimit : Z;
  CacheSize : Z
}.

(** [zalgoRegex] is nil or the one compiled expression; [wordRegex] is nil
    or [\S{n,}] for the [n] it holds. *)
Record EphemeralChatFilter : Type := mkFilter {
  cfg : EphemeralChatFilterConfig;
  zalgoRegex : bool;
  wordRegex : option Z;
  lastSeen : option (LRU.t Time);
  limiters : option (LRU.t loc)
}.

(** The rejections of [Match], with the values their messages print (the
    delay is printed rounded to the millisecond). *)
Inductive ChatError : Type :=
  | ErrTooFrequent (delay limit : Duration)
  | ErrCapitals (ratio limit : float)
  | ErrRepetition (count limit : Z)
  | ErrWordTooLong (limit : Z)
  | ErrZalgo
  | ErrRateLimit (difficulty : Z).

(** *** Runes *)

Definition RuneError : Z := 65533.

Definition byteZ (c : ascii) : Z := Z.of_N (N_of_ascii c).

Definition between (lo hi x : Z) : bool := (lo <=? x) && (x <=? hi).

(** The bounds of the second byte after the leading byte [b0] of a
    sequence of [n] bytes: [first] and [acceptRanges] of [unicode/utf8]. *)
Definition leading (b0 : Z) : option (nat * Z * Z) :=
  if between 194 223 b0 then Some (2%nat, 128, 191)
  else if b0 =? 224 then Some (3%nat, 160, 191)
  else if between 225 236 b0 || between 238 239 b0 then Some (3%nat, 128, 191)
  else if b0 =? 237 then Some (3%nat, 128, 159)
  else if b0 =? 240 then Some (4%nat, 144, 191)
  else if between 241 243 b0 then Some (4%nat, 128, 191)
  else if b0 =? 244 then Some (4%nat, 128, 143)
  else None.

Definition cont (b : Z) : bool := between 128 191 b.

Definition low6 (b : Z) : Z := Z.land b 63.

(** The runes of a string, as [range] and [[]rune(s)] decode them: an
    invalid byte gives [RuneError] and is skipped alone. *)
Fixpoint runes (s : string) : list Z :=
  match s with
  | EmptyString => []
  | String c0 r0 =>
      let b0 := byteZ c0 in
      if b0 <? 128 then b0 :: runes r0
      else
        match leading b0, r0 with
        | Some (n, lo, hi), String c1 r1 =>
            let b1 := byteZ c1 in
            if negb (between lo hi b1) then RuneError :: runes r0
            else if (n =? 2)%nat then
              (Z.shiftl (Z.land b0 31) 6 + low6 b1) :: runes r1
            else
              match r1 with
              | String c2 r2 =>
                  let b2 := byteZ c2 in
                  if negb (cont b2) then RuneError :: runes r0
                  else if (n =? 3)%nat then
                    (Z.shiftl (Z.land b0 15) 12 + Z.shiftl (low6 b1) 6 + low6 b2)
                    :: runes r2
                  else
                    match r2 with
                    | String c3 r3 =>
                        let b3 := byteZ c3 in
                        if negb (cont b3) then RuneError :: runes r0
                        else
                          (Z.shiftl (Z.land b0 7) 18 + Z.shiftl (low6 b1) 12 +
                           Z.shiftl (low6 b2) 6 + low6 b3) :: runes r3
                    | EmptyString => RuneError :: runes r0
                    end
              | EmptyString => RuneError :: runes r0
              end
        | _, _ => RuneError :: runes r0
        end
  end.

(** The class of [zalgoRegex]. *)
Definition isZalgo (r : Z) : bool :=
  between 768 879 r || between 6832 6911 r || between 7616 7679 r ||
  between 8400 8447 r || between 65056 65071 r.

(** [\S]: any rune but tab, line feed, form feed, carriage return and
    space. *)
Definition isNonSpace (r : Z) : bool :=
  negb ((r =? 9) || (r =? 10) || (r =? 12) || (r =? 13) || (r =? 32)).

(** [\S{n,}] matches where [n] runes in a row are not spaces; [run] is the
    length of the run that ends before the list. *)
Fixpoint hasLongWord (n : Z) (run : Z) (l : list Z) : bool :=
  (n <=? run) ||
  match l with
  | [] => false
  | r :: l' => if isNonSpace r then hasLongWord n (run + 1) l' else hasLongWord n 0 l'
  end.

(** The loop of the repetition check, from [runes[i]] on, with the
    previous rune and the count so far: the count that reaches the limit,
    if one does. *)
Fixpoint repeatLoop (limit : Z) (prev : Z) (count : Z) (l : list Z) : option Z :=
  match l with
  | [] => None
  | r :: l' =>
      let count' := if r =? prev then count + 1 else 1 in
      if limit <=? count' then Some count' else repeatLoop limit r count' l'
  end.

Section WithTables.
(** [unicode.IsLetter] and [unicode.IsUpper] read the tables of Go's
    [unicode] package; [nip.IsPoWValid] checks the proof of work of an
    event against a difficulty. *)
Variable IsLetter : Z -> bool.
Variable IsUpper : Z -> bool.
Variable IsPoWValid : Event -> Z -> bool.

(** The loop that counts [letters] and [caps]; the counts are bounded by
    the length of the content. *)
Fixpoint countLetters (l : list Z) (letters caps : Z) : Z * Z :=
  match l with
  | [] => (letters, caps)
  | r :: l' =>
      if IsLetter r then
        countLetters l' (letters + 1) (if IsUpper r then caps + 1 else caps)
      else countLetters l' letters caps
  end.

(** The minimum the check uses: 20 unless a positive one is configured. *)
Definition minLettersOf (c : EphemeralChatFilterConfig) : Z :=
  if MinLettersForCapsCheck c <=? 0 then 20 else MinLettersForCapsCheck c.

(** The capital-letter block of [Match]: its rejection, if any. *)
Definition capsCheck (c : EphemeralChatFilterConfig) (content : string)
    : option ChatError :=
  if PrimFloat.ltb 0 (MaxCapsRatio c) then
    let '(letters, caps) := countLetters (runes content) 0 0 in
    let minLetters := minLettersOf c in
    if minLetters <? letters then
      let ratio := PrimFloat.div (float_of_int caps) (float_of_int letters) in
      if PrimFloat.ltb (MaxCapsRatio c) ratio
      then Some (ErrCapitals ratio (MaxCapsRatio c))
      else None
    else None
  else None.

(** The repetition block. *)
Definition repeatCheck (c : EphemeralChatFilterConfig) (content : string)
    : option ChatError :=
  if 0 <? MaxRepeatChars c then
    let rs := runes content in
    if MaxRepeatChars c <=? Z.of_nat (length rs) then
      match rs with
      | [] => None
      | r0 :: rest =>
          match repeatLoop (MaxRepeatChars c) r0 1 rest with
          | Some count => Some (ErrRepetition count (MaxRepeatChars c))
          | None => None
          end
      end
    else None
  else None.

Definition wordCheck (f : EphemeralChatFilter) (content : string) : option ChatError :=
  match wordRegex f with
  | Some n =>
      if hasLongWord n 0 (runes content)
      then Some (ErrWordTooLong (MaxWordLength (cfg f)))
      else None
  | None => None
  end.

Definition zalgoCheck (f : EphemeralChatFilter) (content : string) : option ChatError :=
  if zalgoRegex f && existsb isZalgo (runes content) then Some ErrZalgo else None.

(** The four checks on the content, in the order of [Match]. *)
Definition contentChecks (f : EphemeralChatFilter) (content : string)
    : option ChatError :=
  match capsCheck (cfg f) content with
  | Some e => Some e
  | None =>
      match repeatCheck (cfg f) content with
      | Some e => Some e
      | None =>
          match wordCheck f content with
          | Some e => Some e
          | None => zalgoCheck f content
          end
      end
  end.

(** The constructor; [None] is the error for a [MaxWordLength] that
    [regexp.Compile] refuses (a repetition count above 1000). *)
Definition NewEphemeralChatFilter (c : EphemeralChatFilterConfig)
    : option EphemeralChatFilter :=
  if negb (Enabled c) then Some (mkFilter c false None None None)
  else if (0 <? MaxWordLength c) && (1000 <? MaxWordLength c) then None
  else
    let size := if CacheSize c <=? 0 then 10000 else CacheSize c in
    Some (mkFilter c (BlockZalgo c)
            (if 0 <? MaxWordLength c then Some (MaxWordLength c) else None)
            (Some (LRU.NewLRU Time size (5 * Minute)))
            (Some (LRU.NewLRU loc size (15 * Minute)))).

Definition withLastSeen (f : EphemeralChatFilter) (c : LRU.t Time) : EphemeralChatFilter :=
  mkFilter (cfg f) (zalgoRegex f) (wordRegex f) (Some c) (limiters f).

Definition withLimiters (f : EphemeralChatFilter) (c : LRU.t loc) : EphemeralChatFilter :=
  mkFilter (cfg f) (zalgoRegex f) (wordRegex f) (lastSeen f) (Some c).

(** The minimum-delay block: its rejection, if any, and the filter after
    it. *)
Definition delayCheck (f : EphemeralChatFilter) (pk : string) (now : Time)
    : option ChatError * EphemeralChatFilter :=
  match lastSeen f with
  | Some seen =>
      if 0 <? MinDelay (cfg f) then
        match LRU.Get seen pk now with
        | (Some last, seen1) =>
            let delay := now - last in
            if delay <? MinDelay (cfg f)
            then (Some (ErrTooFrequent delay (MinDelay (cfg f))), withLastSeen f seen1)
            else (None, withLastSeen f (LRU.Add seen1 pk now now))
        | (None, seen1) => (None, withLastSeen f (LRU.Add seen1 pk now now))
        end
      else (None, f)
  | None => (None, f)
  end.

Context {L : Type} `{RateLimiter L}.

Definition getLimiter (f : EphemeralChatFilter) (w : World L) (key : string)
    (now : Time) : Result (loc * EphemeralChatFilter * World L) :=
  match limiters f with
  | None => Panic
  | Some c =>
      let '(l, c', w') :=
        getOrCreate c w key (RateLimitRate (cfg f)) (RateLimitBurst (cfg f)) now in
      Ok (l, withLimiters f c', w')
  end.

Definition Match (f : EphemeralChatFilter) (w : World L) (event : Event)
    (meta : gmap string Any) (now : Time)
    : Result (Verdict ChatError * EphemeralChatFilter * World L) :=
  if negb (Enabled (cfg f)) || negb (bool_decide (Kind event ∈ Kinds (cfg f)))
  then Ok (allowed, f, w)
  else
    match delayCheck f (PubKey event) now with
    | (Some e, f1) => Ok (rejected e, f1, w)
    | (None, f1) =>
        match contentChecks f1 (Content event) with
        | Some e => Ok (rejected e, f1, w)
        | None =>
            match getLimiter f1 w (PubKey event) now with
            | Panic => Panic
            | Ok (l, f2, w1) =>
                let '(ok, w2) := allowAt w1 l now in
                if ok then Ok (allowed, f2, w2)
                else if IsPoWValid event (RequiredPoWOnLimit (cfg f))
                then Ok (allowed, f2, w2)
                else Ok (rejected (ErrRateLimit (RequiredPoWOnLimit (cfg f))), f2, w2)
            end
        end
    end.

(** *** The capital-letter check *)

(** The runes of the content that are letters, and those that are
    uppercase letters. *)
Definition lettersOf (content : string) : list Z :=
  List.filter IsLetter (runes content).

Definition capitalsOf (content : string) : list Z :=
  List.filter (fun r => IsLetter r && IsUpper r) (runes content).

Lemma countLetters_spec l letters caps :
  countLetters l letters caps =
    (letters + Z.of_nat (length (List.filter IsLetter l)),
     caps + Z.of_nat (length (List.filter (fun r => IsLetter r && IsUpper r) l))).
Proof.
  revert letters caps. induction l as [|r l IH]; intros letters caps; simpl.
  - f_equal; lia.
  - destruct (IsLetter r); simpl.
    + rewrite IH. destruct (IsUpper r); simpl; f_equal; lia.
    + apply IH.
Qed.

(** The check only looks at the two counts. *)
Lemma capsCheck_counts c content :
  capsCheck c content =
    let letters := Z.of_nat (length (lettersOf content)) in
    let caps := Z.of_nat (length (capitalsOf content)) in
    if PrimFloat.ltb 0 (MaxCapsRatio c) then
      if minLettersOf c <? letters then
        let ratio := PrimFloat.div (float_of_int caps) (float_of_int letters) in
        if PrimFloat.ltb (MaxCapsRatio c) ratio
        then Some (ErrCapitals ratio (MaxCapsRatio c))
        else None
      else None
    else None.
Proof.
  unfold capsCheck, lettersOf, capitalsOf. rewrite countLetters_spec. simpl.
  reflexivity.
Qed.

(** The check of the specification: among the letters only, skipped when
    their number is below the minimum, and otherwise a rejection when the
    uppercase fraction exceeds the maximum. *)
Definition specCapsCheck (c : EphemeralChatFilterConfig) (content : string)
    : option ChatError :=
  if PrimFloat.ltb 0 (MaxCapsRatio c) then
    let letters := Z.of_nat (length (lettersOf content)) in
    let caps := Z.of_nat (length (capitalsOf content)) in
    if letters <? minLettersOf c then None
    else
      let ratio := PrimFloat.div (float_of_int caps) (float_of_int letters) in
      if PrimFloat.ltb (MaxCapsRatio c) ratio
      then Some (ErrCapitals ratio (MaxCapsRatio c))
      else None
  else None.

(** Away from the minimum the block of [Match] is the check of the
    specification; with exactly the minimum number of letters the block
    does nothing. *)
Lemma capsCheck_vs_spec c content :
  (Z.of_nat (length (lettersOf content)) <> minLettersOf c ->
     capsCheck c content = specCapsCheck c content) /\
  (Z.of_nat (length (lettersOf content)) = minLettersOf c ->
     capsCheck c content = None).
Proof.
  rewrite capsCheck_counts. unfold specCapsCheck. cbn zeta.
  destruct (PrimFloat.ltb 0 (MaxCapsRatio c)); [|done].
  split; intros Hn.
  - destruct (Z.ltb_spec (minLettersOf c) (Z.of_nat (length (lettersOf content))));
      destruct (Z.ltb_spec (Z.of_nat (length (lettersOf content))) (minLettersOf c));
      try reflexivity; lia.
  - rewrite Hn, Z.ltb_irrefl. reflexivity.
Qed.

(** The block of [Match] as the code has it.  With a positive
    [MaxCapsRatio], the check counts the letters of the content and the
    uppercase ones among them; it is skipped exactly when the number of
    letters is at most the minimum (the configured one, or 20 if that is
    not positive), and otherwise it rejects exactly when the uppercase
    fraction, computed in [float64], exceeds [MaxCapsRatio]. *)
Lemma capsCheck_spec c content :
  PrimFloat.ltb 0 (MaxCapsRatio c) = true ->
  let letters := Z.of_nat (length (lettersOf content)) in
  let caps := Z.of_nat (length (capitalsOf content)) in
  (letters <= minLettersOf c -> capsCheck c content = None) /\
  (minLettersOf c < letters ->
     capsCheck c content =
       if PrimFloat.ltb (MaxCapsRatio c)
            (PrimFloat.div (float_of_int caps) (float_of_int letters))
       then Some (ErrCapitals (PrimFloat.div (float_of_int caps) (float_of_int letters))
                              (MaxCapsRatio c))
       else None).
Proof.
  intros Hmax letters caps. rewrite capsCheck_counts. fold letters caps.
  cbn zeta. rewrite Hmax. split.
  - intros Hle. assert ((minLettersOf c <? letters) = false) as ->
      by (apply Z.ltb_ge; lia). reflexivity.
  - intros Hlt. assert ((minLettersOf c <? letters) = true) as ->
      by (apply Z.ltb_lt; lia). reflexivity.
Qed.

(** A rejection by the capital-letter check is the verdict of [Match]
    when the filter applies to the event and the minimum delay is
    respected. *)
Lemma Match_capitals f w event meta now e :
  Enabled (cfg f) = true -> Kind event ∈ Kinds (cfg f) ->
  fst (delayCheck f (PubKey event) now) = None ->
  capsCheck (cfg f) (Content event) = Some e ->
  Match f w event meta now =
    Ok (rejected e, snd (delayCheck f (PubKey event) now), w).
Proof.
  intros He Hk Hd Hc. unfold Match. rewrite He.
  rewrite (bool_decide_eq_true_2 _ Hk). cbn [negb orb].
  destruct (delayCheck f (PubKey event) now) as [[d|] f1] eqn:D; [done|].
  simpl in *. unfold contentChecks.
  assert (cfg f1 = cfg f) as ->; [|by rewrite Hc].
  unfold delayCheck in D. destruct (lastSeen f); [|by simplify_eq].
  destruct (0 <? MinDelay (cfg f)); [|by simplify_eq].
  destruct (LRU.Get t (PubKey event) now) as [[last|] seen1].
  - destruct (now - last <? MinDelay (cfg f)); by simplify_eq.
  - by simplify_eq.
Qed.

End WithTables.

(** *** The examples of the specification, on ASCII text *)

(** [unicode.IsLetter] and [unicode.IsUpper] on the runes below 128. *)
Definition asciiIsLetter (r : Z) : bool := between 65 90 r || between 97 122 r.
Definition asciiIsUpper (r : Z) : bool := between 65 90 r.

(** [MaxCapsRatio] is the [float64] nearest to 0.7. *)
Definition exampleConfig : EphemeralChatFilterConfig :=
  {| Enabled := true; Kinds := [20000; 23333];
     MinDelay := 0; MaxCapsRatio := 0x1.6666666666666p-1; MinLettersForCapsCheck := 20;
     MaxRepeatChars := 0; MaxWordLength := 0; BlockZalgo := false;
     RateLimitRate := 1; RateLimitBurst := 5; RequiredPoWOnLimit := 16;
     CacheSize := 0 |}.

(** 25 letters, 23 of them uppercase. *)
Definition shout25 : string := "THIS IS A VERY LOUD MESsAGe, YES!".

(** 10 letters, 9 of them uppercase. *)
Definition shout10 : string := "HEY YOU, STOp!".

(** 20 letters, all uppercase. *)
Definition shout20 : string := "ABCDE FGHIJ KLMNO PQRST".

Example example_counts :
  (length (lettersOf asciiIsLetter shout25), length (capitalsOf asciiIsLetter asciiIsUpper shout25)) = (25, 23)%nat /\
  (length (lettersOf asciiIsLetter shout10), length (capitalsOf asciiIsLetter asciiIsUpper shout10)) = (10, 9)%nat /\
  (length (lettersOf asciiIsLetter shout20), length (capitalsOf asciiIsLetter asciiIsUpper shout20)) = (20, 20)%nat.
Proof. by vm_compute. Qed.

Example example_25_rejected :
  exists ratio,
    capsCheck asciiIsLetter asciiIsUpper exampleConfig shout25
      = Some (ErrCapitals ratio 0x1.6666666666666p-1).
Proof. eexists. by vm_compute. Qed.

Example example_10_unchecked :
  capsCheck asciiIsLetter asciiIsUpper exampleConfig shout10 = None.
Proof. by vm_compute. Qed.

(** A message with exactly the minimum number of letters is not checked:
    20 letters, all uppercase, a fraction of 1 above the maximum of 0.7,
    and the check passes. *)
Lemma capsCheck_at_minimum :
  PrimFloat.ltb 0 (MaxCapsRatio exampleConfig) = true /\
  Z.of_nat (length (lettersOf asciiIsLetter shout20)) = minLettersOf exampleConfig /\
  ~ (Z.of_nat (length (lettersOf asciiIsLetter shout20)) < minLettersOf exampleConfig) /\
  PrimFloat.ltb (MaxCapsRatio exampleConfig)
    (PrimFloat.div
       (float_of_int (Z.of_nat (length (capitalsOf asciiIsLetter asciiIsUpper shout20))))
       (float_of_int (Z.of_nat (length (lettersOf asciiIsLetter shout20))))) = true /\
  capsCheck asciiIsLetter asciiIsUpper exampleConfig shout20 = None.
Proof.
  split; [reflexivity|]. split; [reflexivity|].
  split; [vm_compute; discriminate|].
  split; reflexivity.
Qed.

Example capsCheck_spec_witness :
  capsCheck asciiIsLetter asciiIsUpper exampleConfig shout10 = None /\
  exists ratio,
    capsCheck asciiIsLetter asciiIsUpper exampleConfig shout25
      = Some (ErrCapitals ratio 0x1.6666666666666p-1).
Proof.
  split.
  - apply (capsCheck_spec asciiIsLetter asciiIsUpper exampleConfig shout10 eq_refl).
    vm_compute. discriminate.
  - eexists.
    rewrite (proj2 (capsCheck_spec asciiIsLetter asciiIsUpper exampleConfig shout25 eq_refl))
      by (vm_compute; reflexivity).
    vm_compute. reflexivity.
Defined.

(** C4.  The capital-letter block of [Match] guards its comparison by
    [letters > minLetters].  Whenever the number of letters differs from
    the minimum it decides as the specification says: skipped below the
    minimum, and otherwise a rejection exactly when the uppercase fraction
    exceeds the maximum; so the 25-letter message with 23 capitals is
    rejected and the 10-letter one passes unchecked.  With exactly the
    minimum number of letters the block is skipped although the count is
    not below the minimum: 20 letters, all of them capitals, pass at a
    minimum of 20 and a maximum of 0.7, where the check of the
    specification rejects. *)
Theorem capsCheck_off_by_one :
  (forall (IsLetter IsUpper : Z -> bool) (c : EphemeralChatFilterConfig) (content : string),
     (Z.of_nat (length (lettersOf IsLetter content)) <> minLettersOf c ->
        capsCheck IsLetter IsUpper c content = specCapsCheck IsLetter IsUpper c content) /\
     (Z.of_nat (length (lettersOf IsLetter content)) = minLettersOf c ->
        capsCheck IsLetter IsUpper c content = None)) /\
  (exists ratio,
     capsCheck asciiIsLetter asciiIsUpper exampleConfig shout25
       = Some (ErrCapitals ratio (MaxCapsRatio exampleConfig)) /\
     specCapsCheck asciiIsLetter asciiIsUpper exampleConfig shout25
       = Some (ErrCapitals ratio (MaxCapsRatio exampleConfig))) /\
  capsCheck asciiIsLetter asciiIsUpper exampleConfig shout10 = None /\
  specCapsCheck asciiIsLetter asciiIsUpper exampleConfig shout10 = None /\
  Z.of_nat (length (lettersOf asciiIsLetter shout20)) = MinLettersForCapsCheck exampleConfig /\
  length (capitalsOf asciiIsLetter asciiIsUpper shout20) = length (lettersOf asciiIsLetter shout20) /\
  capsCheck asciiIsLetter asciiIsUpper exampleConfig shout20 = None /\
  specCapsCheck asciiIsLetter asciiIsUpper exampleConfig shout20
    = Some (ErrCapitals 1 (MaxCapsRatio exampleConfig)).
Proof.
  split; [intros IsLetter IsUpper c content; apply capsCheck_vs_spec|].
  split; [eexists; split; vm_compute; reflexivity|].
  repeat split; vm_compute; reflexivity.
Qed.

End Chat.

(** ** Two callers of a get-or-create

    [getLimiter] of [RateLimiterFilter] and of [EphemeralChatFilter] makes
    two calls on the cache, [Get] and then, on a miss, [Add] of a new
    limiter.  The cache serialises each call, and nothing serialises the
    pair: between the two calls of one caller the other caller can run.
    A caller is at its [Get], at its [Add], or holds the limiter its
    [getLimiter] returned. *)
Module Race.

Inductive Caller : Type :=
  | AtGet
  | AtAdd
  | Holds (l : loc).

Record Shared (L : Type) : Type := mkShared {
  cache : LRU.t loc;
  world : World L
}.
Arguments mkShared {L}.
Arguments cache {L}.
Arguments world {L}.

Section WithLimiter.
Context {L : Type} `{RateLimiter L}.

(** The next call of a caller on the shared cache. *)
Definition step (key : string) (r : float) (b : Z) (now : Time)
    (c : Caller) (sh : Shared L) : Caller * Shared L :=
  match c with
  | AtGet =>
      match LRU.Get (cache sh) key now with
      | (Some l, c') => (Holds l, mkShared c' (emit (world sh) (LimiterFound key l)))
      | (None, c') => (AtAdd, mkShared c' (world sh))
      end
  | AtAdd =>
      let '(l, w') := allocLimiter (world sh) r b in
      (Holds l, mkShared (LRU.Add (cache sh) key l now) (emit w' (LimiterCreated key l)))
  | Holds l => (Holds l, sh)
  end.

(** Two callers and a schedule: [true] lets the first caller make its next
    call, [false] the second. *)
Fixpoint run (key : string) (r : float) (b : Z) (now : Time)
    (schedule : list bool) (a1 a2 : Caller) (sh : Shared L)
    : Caller * Caller * Shared L :=
  match schedule with
  | [] => (a1, a2, sh)
  | true :: rest =>
      let '(a1', sh') := step key r b now a1 sh in
      run key r b now rest a1' a2 sh'
  | false :: rest =>
      let '(a2', sh') := step key r b now a2 sh in
      run key r b now rest a1 a2' sh'
  end.

(** One caller alone: its two calls are the get-or-create of the
    filters. *)
Lemma step_step_getOrCreate key r b now sh :
  let '(l, c', w') := getOrCreate (cache sh) (world sh) key r b now in
  let '(a, sh1) := step key r b now AtGet sh in
  step key r b now a sh1 = (Holds l, mkShared c' w').
Proof.
  unfold getOrCreate, step.
  destruct (LRU.Get (cache sh) key now) as [[l|] c']; reflexivity.
Qed.

Lemma RateLimit_getLimiter_steps (f : RateLimit.RateLimiterFilter) w key r b now :
  let '(l, f', w') := RateLimit.getLimiter f w key r b now in
  let '(a, sh1) := step key r b now AtGet (mkShared (RateLimit.limiters f) w) in
  step key r b now a sh1 = (Holds l, mkShared (RateLimit.limiters f') w').
Proof.
  unfold RateLimit.getLimiter.
  pose proof (step_step_getOrCreate key r b now (mkShared (RateLimit.limiters f) w)) as S.
  simpl in S.
  destruct (getOrCreate (RateLimit.limiters f) w key r b now) as [[l c'] w'].
  exact S.
Qed.

Lemma Chat_getLimiter_steps (f : Chat.EphemeralChatFilter) w key now c :
  Chat.limiters f = Some c ->
  let r := Chat.RateLimitRate (Chat.cfg f) in
  let b := Chat.RateLimitBurst (Chat.cfg f) in
  exists l c' w',
    Chat.getLimiter f w key now = Ok (l, Chat.withLimiters f c', w') /\
    let '(a, sh1) := step key r b now AtGet (mkShared c w) in
    step key r b now a sh1 = (Holds l, mkShared c' w').
Proof.
  intros Hc r b. unfold Chat.getLimiter. rewrite Hc.
  pose proof (step_step_getOrCreate key r b now (mkShared c w)) as S.
  simpl in S. fold r b.
  destruct (getOrCreate c w key r b now) as [[l c'] w'].
  by exists l, c', w'.
Qed.

(** When both callers miss before either adds, each creates a limiter and
    holds its own; the second [Add] replaces the first in the cache, so the
    limiter the first caller holds, and charges, is not the one later
    callers find. *)
Lemma race_two_instances key r b now sh :
  fst (LRU.Get (cache sh) key now) = None ->
  let '(a1, a2, sh') := run key r b now [true; false; true; false] AtGet AtGet sh in
  a1 = Holds (length (heap (world sh))) /\
  a2 = Holds (S (length (heap (world sh)))) /\
  LRU.Lookup (cache sh') key = Some (S (length (heap (world sh)))) /\
  length (heap (world sh')) = S (S (length (heap (world sh)))).
Proof.
  intros Hmiss. cbn [run step].
  pose proof (LRU.Get_miss_same (cache sh) key now Hmiss) as Hsame.
  destruct (LRU.Get (cache sh) key now) as [[l|] c'] eqn:G; simpl in Hmiss; [done|].
  simpl in Hsame. subst c'. cbn [cache world]. rewrite G.
  unfold step, allocLimiter, emit. cbn [cache world heap log].
  rewrite LRU.Lookup_Add_same, !length_app. simpl.
  split; [done|]. split; [f_equal; lia|]. split; [f_equal; lia|]. lia.
Qed.

End WithLimiter.

(** *** The race on the rate limiter of the worked example

    One note per second with a burst of one, limited per public key.  Two
    notes of [alice] arrive together. *)

Definition raceConfig : RateLimit.RateLimiterConfig :=
  RateLimit.mkConfig true RateLimit.RateByPubKey 0 0
    [RateLimit.mkRule "notes" [1] 1 1] 0 0.

Definition raceKey : string := RateLimit.cacheKey "rule-0" "pk:alice".

Definition raceStart : Shared TokenBucket :=
  mkShared (RateLimit.limiters (RateLimit.NewRateLimiterFilter raceConfig))
           (mkWorld [] []).

(** Each caller asks the limiter it holds, the first caller first. *)
Definition askBoth (st : Caller * Caller * Shared TokenBucket) (now : Time)
    : list bool :=
  match st with
  | (Holds l1, Holds l2, sh) =>
      let '(ok1, w1) := allowAt (world sh) l1 now in
      let '(ok2, _) := allowAt w1 l2 now in
      [ok1; ok2]
  | _ => []
  end.

(** One caller after the other: one limiter, and the second note is
    denied. *)
Example sequential_callers :
  let st := run raceKey 1 1 1000 [true; true; false; false] AtGet AtGet raceStart in
  fst st = (Holds 0%nat, Holds 0%nat) /\ askBoth st 1000 = [true; false].
Proof. by vm_compute. Qed.

(** C7.  When the two callers interleave, two limiters are created for the
    one key: the callers hold different limiters, the cache keeps the
    second only, and both notes are allowed although the burst is one. *)
Theorem getLimiter_race :
  let st := run raceKey 1 1 1000 [true; false; true; false] AtGet AtGet raceStart in
  fst st = (Holds 0%nat, Holds 1%nat) /\
  LRU.Lookup (cache (snd st)) raceKey = Some 1%nat /\
  length (heap (world (snd st))) = 2%nat /\
  askBoth st 1000 = [true; true].
Proof. by vm_compute. Qed.

End Race.

(** * Further properties of the filters *)

(** ** More on the cache *)
Module LRUFacts.

Section Facts.
Context {V : Type}.

Lemma ttl_Get (c : LRU.t V) k now : LRU.ttl (snd (LRU.Get c k now)) = LRU.ttl c.
Proof.
  unfold LRU.Get. destruct (LRU.find k (LRU.items c)) as [e|]; [|done].
  by destruct (LRU.expiresAt e <? now).
Qed.

Lemma ttl_Add (c : LRU.t V) k v now : LRU.ttl (LRU.Add c k v now) = LRU.ttl c.
Proof.
  unfold LRU.Add. destruct (LRU.find k (LRU.items c)); [done|].
  by match goal with |- context [if ?b then _ else _] => destruct b end.
Qed.

Lemma ttl_Poke (c : LRU.t V) k v : LRU.ttl (LRU.Poke c k v) = LRU.ttl c.
Proof. done. Qed.

(** [Get] reorders the entries and changes none. *)
Lemma Lookup_Get (c : LRU.t V) k now k' :
  LRU.Lookup (snd (LRU.Get c k now)) k' = LRU.Lookup c k'.
Proof.
  unfold LRU.Get, LRU.Lookup.
  destruct (LRU.find k (LRU.items c)) as [e|] eqn:F; [|done].
  destruct (LRU.expiresAt e <? now); [done|]. simpl.
  pose proof (LRU.find_key _ _ _ F) as K.
  destruct (String.eqb (LRU.ekey e) k') eqn:E.
  - apply String.eqb_eq in K, E. subst. by rewrite F.
  - rewrite LRU.find_remove_other; [done|].
    apply String.eqb_eq in K. apply String.eqb_neq in E. congruence.
Qed.

Lemma fst_Get (c : LRU.t V) k now :
  fst (LRU.Get c k now) =
    match LRU.find k (LRU.items c) with
    | Some e => if LRU.expiresAt e <? now then None else Some (LRU.evalue e)
    | None => None
    end.
Proof.
  unfold LRU.Get. destruct (LRU.find k (LRU.items c)) as [e|]; [|done].
  by destruct (LRU.expiresAt e <? now).
Qed.

Lemma find_Add_same (c : LRU.t V) k v now :
  LRU.find k (LRU.items (LRU.Add c k v now)) = Some (LRU.mkEntry k v (now + LRU.ttl c)).
Proof.
  unfold LRU.Add. destruct (LRU.find k (LRU.items c)) eqn:F; simpl.
  - by rewrite String.eqb_refl.
  - match goal with |- context [if ?b then _ else _] => destruct b eqn:B end; simpl.
    + destruct (LRU.items c) as [|e' l'].
      * apply andb_true_iff in B as [B1%Z.ltb_lt B2%Z.ltb_lt]. simpl in B2. lia.
      * simpl. by rewrite String.eqb_refl.
    + by rewrite String.eqb_refl.
Qed.

(** What was added is found until its time to live has passed. *)
Lemma Get_Add_same (c : LRU.t V) k v now now' :
  fst (LRU.Get (LRU.Add c k v now) k now') =
    if now + LRU.ttl c <? now' then None else Some v.
Proof. rewrite fst_Get, find_Add_same. done. Qed.

Lemma find_removelast k (l : list (LRU.Entry V)) :
  LRU.find k (removelast l) = LRU.find k l \/ LRU.find k (removelast l) = None.
Proof.
  induction l as [|x l IH]; [by left|].
  destruct l as [|y l]; [by right|].
  change (removelast (x :: y :: l)) with (x :: removelast (y :: l)).
  cbn [LRU.find]. destruct (String.eqb (LRU.ekey x) k); [by left|]. exact IH.
Qed.

(** [Add] leaves the entries of the other keys as they are, or evicts one
    when the cache is full. *)
Lemma Lookup_Add_other (c : LRU.t V) k v now k' :
  k' <> k ->
  LRU.Lookup (LRU.Add c k v now) k' = LRU.Lookup c k' \/
  (LRU.Lookup (LRU.Add c k v now) k' = None /\
   0 < LRU.size c <= Z.of_nat (length (LRU.items c))).
Proof.
  intros Hne. unfold LRU.Lookup, LRU.Add.
  assert (String.eqb k k' = false) as Hkk by (apply String.eqb_neq; congruence).
  destruct (LRU.find k (LRU.items c)) eqn:F; simpl.
  - rewrite Hkk. left. rewrite LRU.find_remove_other; [done|congruence].
  - match goal with |- context [if ?b then _ else _] => destruct b eqn:B end; simpl.
    + apply andb_true_iff in B as [B1%Z.ltb_lt B2%Z.ltb_lt].
      destruct (find_removelast k' (LRU.mkEntry k v (now + LRU.ttl c) :: LRU.items c))
        as [E|E].
      * left. simpl in E. rewrite Hkk in E. simpl in *. by rewrite E.
      * right. simpl in *. rewrite E. split; [done|]. lia.
    + rewrite Hkk. by left.
Qed.

Lemma find_Poke k k' v (l : list (LRU.Entry V)) :
  LRU.find k'
    (map (fun e => if String.eqb (LRU.ekey e) k
                   then LRU.mkEntry (LRU.ekey e) v (LRU.expiresAt e) else e) l) =
    match LRU.find k' l with
    | Some e => Some (if String.eqb (LRU.ekey e) k
                      then LRU.mkEntry (LRU.ekey e) v (LRU.expiresAt e) else e)
    | None => None
    end.
Proof.
  induction l as [|x l IH]; simpl; [done|].
  destruct (String.eqb (LRU.ekey x) k) eqn:E; simpl.
  - destruct (String.eqb (LRU.ekey x) k'); [by rewrite E|apply IH].
  - destruct (String.eqb (LRU.ekey x) k'); [by rewrite E|apply IH].
Qed.

(** A write through the pointer of one entry is not seen under other
    keys. *)
Lemma Lookup_Poke_other (c : LRU.t V) k v k' :
  k' <> k -> LRU.Lookup (LRU.Poke c k v) k' = LRU.Lookup c k'.
Proof.
  intros Hne. unfold LRU.Lookup, LRU.Poke. simpl. rewrite find_Poke.
  destruct (LRU.find k' (LRU.items c)) as [e|] eqn:F; [|done]. simpl.
  pose proof (LRU.find_key _ _ _ F) as K. apply String.eqb_eq in K.
  assert (String.eqb (LRU.ekey e) k = false) as -> by (apply String.eqb_neq; congruence).
  done.
Qed.

(** [Get] moves an entry and changes none. *)
Lemma find_Get (c : LRU.t V) k now k' :
  LRU.find k' (LRU.items (snd (LRU.Get c k now))) = LRU.find k' (LRU.items c).
Proof.
  unfold LRU.Get. destruct (LRU.find k (LRU.items c)) as [e|] eqn:F; [|done].
  destruct (LRU.expiresAt e <? now); [done|]. simpl.
  pose proof (LRU.find_key _ _ _ F) as K.
  destruct (String.eqb (LRU.ekey e) k') eqn:E.
  - apply String.eqb_eq in K, E. subst. by rewrite F.
  - rewrite LRU.find_remove_other; [done|].
    apply String.eqb_eq in K. apply String.eqb_neq in E. congruence.
Qed.

(** [Add] keeps the entries of the other keys, unless it adds a new key
    to a cache that is full. *)
Lemma find_Add_other (c : LRU.t V) k v now k' :
  k' <> k ->
  LRU.find k' (LRU.items (LRU.Add c k v now)) = LRU.find k' (LRU.items c) \/
  (LRU.find k (LRU.items c) = None /\
   0 < LRU.size c <= Z.of_nat (length (LRU.items c))).
Proof.
  intros Hne. unfold LRU.Add.
  assert (String.eqb k k' = false) as Hkk by (apply String.eqb_neq; congruence).
  destruct (LRU.find k (LRU.items c)) eqn:F.
  - left. cbn [LRU.items LRU.with_items LRU.find LRU.ekey]. rewrite Hkk.
    apply LRU.find_remove_other. congruence.
  - match goal with |- context [if ?b then _ else _] => destruct b eqn:B end.
    + apply andb_true_iff in B as [B1%Z.ltb_lt B2%Z.ltb_lt].
      destruct (find_removelast k' (LRU.mkEntry k v (now + LRU.ttl c) :: LRU.items c))
        as [E|E].
      * left. cbn [LRU.items LRU.with_items]. rewrite E.
        cbn [LRU.find LRU.ekey]. by rewrite Hkk.
      * right. split; [done|]. cbn [length] in B2. lia.
    + left. cbn [LRU.items LRU.with_items LRU.find LRU.ekey]. by rewrite Hkk.
Qed.

End Facts.

End LRUFacts.

(** ** More on RepostAbuseFilter *)
Module RepostFacts.
Import Repost.

(** *** The reference pattern

    What the expression [\b(naddr1|nevent1|note1)[0-9a-z]+\b] means: the
    content splits into a part before the match, one of the three prefixes,
    a non-empty body of digits and lowercase letters, and a rest, with a
    word boundary on both sides of the match. *)

Definition refPrefixes : list string := ["naddr1"; "nevent1"; "note1"]%string.

Fixpoint allRefChars (s : string) : bool :=
  match s with
  | EmptyString => true
  | String c s' => is_ref_char c && allRefChars s'
  end.

(** Whether the last character of [s] is a word character; [prev] says so
    for the character before [s]. *)
Fixpoint endsInWord (prev : bool) (s : string) : bool :=
  match s with
  | EmptyString => prev
  | String c s' => endsInWord (is_word c) s'
  end.

Definition beginsWithWord (s : string) : bool :=
  match s with
  | String c _ => is_word c
  | EmptyString => false
  end.

Definition matchesAfter (prev : bool) (s : string) : Prop :=
  exists pre p body post,
    s = (pre +:+ p +:+ body +:+ post)%string /\
    In p refPrefixes /\
    body <> EmptyString /\ allRefChars body = true /\
    endsInWord prev pre = false /\ beginsWithWord post = false.

Definition matchesNIP21 (s : string) : Prop := matchesAfter false s.

Lemma ref_char_is_word c : is_ref_char c = true -> is_word c = true.
Proof.
  unfold is_ref_char, is_word. intros [->| ->]%orb_true_iff; by rewrite ?orb_true_r.
Qed.

Lemma strip_prefix_app p r : strip_prefix p (p +:+ r) = Some r.
Proof.
  induction p as [|c p IH]; simpl; [done|]. by rewrite Ascii.eqb_refl.
Qed.

Lemma strip_prefix_Some p s r : strip_prefix p s = Some r -> s = (p +:+ r)%string.
Proof.
  revert s. induction p as [|c p IH]; intros s; simpl; [by intros [= ->]|].
  destruct s as [|d s]; [done|].
  destruct (Ascii.eqb c d) eqn:E; [|done].
  apply Ascii.eqb_eq in E as ->. intros Hs. by rewrite (IH _ Hs).
Qed.

Lemma ref_prefix_Some s r :
  ref_prefix s = Some r -> exists p, In p refPrefixes /\ s = (p +:+ r)%string.
Proof.
  unfold ref_prefix, refPrefixes.
  destruct (strip_prefix "naddr1" s) as [r1|] eqn:E1.
  { intros [= ->]. exists "naddr1"%string. split; [simpl; auto|by apply strip_prefix_Some]. }
  destruct (strip_prefix "nevent1" s) as [r2|] eqn:E2.
  { intros [= ->]. exists "nevent1"%string. split; [simpl; auto|by apply strip_prefix_Some]. }
  intros E3. exists "note1"%string. split; [simpl; auto|by apply strip_prefix_Some].
Qed.

Lemma ref_prefix_app p r : In p refPrefixes -> ref_prefix (p +:+ r) = Some r.
Proof.
  unfold refPrefixes. simpl. intros [<-|[<-|[<-|[]]]]; reflexivity.
Qed.

Lemma span_ref_spec s :
  exists body,
    s = (body +:+ snd (span_ref s))%string /\
    allRefChars body = true /\
    fst (span_ref s) = String.length body /\
    match snd (span_ref s) with
    | String c _ => is_ref_char c = false
    | EmptyString => True
    end.
Proof.
  induction s as [|c s (body & Hs & Hall & Hn & Hrest)]; simpl.
  - by exists EmptyString.
  - destruct (is_ref_char c) eqn:E.
    + revert Hs Hn Hrest. destruct (span_ref s) as [n rest]. simpl.
      intros Hs Hn Hrest.
      exists (String c body). simpl. rewrite E, Hall.
      split; [rewrite Hs; reflexivity|]. split; [done|]. split; [congruence|done].
    + exists EmptyString. simpl. by rewrite E.
Qed.

Lemma span_ref_app body post :
  allRefChars body = true -> beginsWithWord post = false ->
  span_ref (body +:+ post) = (String.length body, post).
Proof.
  intros Hall Hpost. induction body as [|c body IH]; simpl in *.
  - destruct post as [|d post]; [done|]. simpl in *.
    destruct (is_ref_char d) eqn:E; [|done].
    apply ref_char_is_word in E. congruence.
  - apply andb_true_iff in Hall as [-> Hall]. by rewrite (IH Hall).
Qed.

(** The match at the head of [s]. *)
Lemma ref_here_iff s :
  ref_here s = true <->
  exists p body post,
    s = (p +:+ body +:+ post)%string /\ In p refPrefixes /\
    body <> EmptyString /\ allRefChars body = true /\ beginsWithWord post = false.
Proof.
  unfold ref_here. split.
  - destruct (ref_prefix s) as [r|] eqn:P; [|done].
    apply ref_prefix_Some in P as (p & Hp & ->).
    destruct (span_ref_spec r) as (body & Hr & Hall & Hn & Hrest).
    revert Hr Hn Hrest. destruct (span_ref r) as [n rest]. simpl.
    intros Hr Hn Hrest.
    intros [Hn0 Hb]%andb_true_iff.
    exists p, body, rest. split; [by f_equal|]. split; [done|].
    split; [|split; [done|]].
    + intros ->. by subst n.
    + destruct rest as [|c rest]; [done|]. simpl. by apply negb_true_iff.
  - intros (p & body & post & -> & Hp & Hne & Hall & Hpost).
    rewrite (ref_prefix_app p _ Hp), (span_ref_app body post Hall Hpost).
    apply andb_true_iff. split.
    + destruct body; [done|reflexivity].
    + destruct post as [|c post]; [done|]. simpl in *. by rewrite Hpost.
Qed.

Lemma ref_scan_iff prev s : ref_scan prev s = true <-> matchesAfter prev s.
Proof.
  revert prev. induction s as [|c s IH]; intros prev.
  - simpl. split; [done|].
    intros (pre & p & body & post & Hs & Hp & _).
    destruct pre; [|done]. simpl in Hs.
    unfold refPrefixes in Hp. simpl in Hp.
    destruct Hp as [<-|[<-|[<-|[]]]]; discriminate.
  - cbn [ref_scan]. rewrite orb_true_iff, andb_true_iff, negb_true_iff, IH, ref_here_iff.
    split.
    + intros [[Hprev (p & body & post & Hs & Hp & Hne & Hall & Hpost)] |
              (pre & p & body & post & Hs & Hp & Hne & Hall & Hpre & Hpost)].
      * exists EmptyString, p, body, post. done.
      * exists (String c pre), p, body, post. simpl. by rewrite Hs.
    + intros (pre & p & body & post & Hs & Hp & Hne & Hall & Hpre & Hpost).
      destruct pre as [|d pre]; simpl in Hs, Hpre.
      * left. split; [done|]. by exists p, body, post.
      * injection Hs as -> ->. right. by exists pre, p, body, post.
Qed.

(** X1.  [contentHasNIP21Ref] is true exactly of the contents that have a match
    of the expression. *)
Theorem contentHasNIP21Ref_iff s :
  contentHasNIP21Ref s = true <-> matchesNIP21 s.
Proof. apply ref_scan_iff. Qed.

(** *** The tag test *)

Lemma lower_ascii_q c :
  Ascii.eqb (lower_ascii c) "q" = true -> c = "q"%char \/ c = "Q"%char.
Proof.
  destruct c as [[] [] [] [] [] [] [] []]; vm_compute; intros E;
    first [discriminate E | by left | by right].
Qed.

Lemma EqualFold_q name :
  EqualFold name "q" = true <-> name = "q"%string \/ name = "Q"%string.
Proof.
  split.
  - destruct name as [|c [|d rest]]; simpl; try done.
    + rewrite andb_true_r. intros [->| ->]%lower_ascii_q; auto.
    + by rewrite andb_false_r.
  - by intros [->| ->].
Qed.

(** X2.  [hasTag] finds the tag name [q] in either case, in any tag that has
    a name; empty tags are passed over. *)
Theorem hasTag_q ev :
  hasTag ev "q" = true <->
  exists name rest, In (name :: rest) (Tags ev) /\
                    (name = "q"%string \/ name = "Q"%string).
Proof.
  unfold hasTag. induction (Tags ev) as [|t tags IH]; simpl.
  - split; [done|]. by intros (? & ? & [] & _).
  - destruct t as [|name rest].
    + rewrite IH. split.
      * intros (n & r & Hin & Hq). exists n, r. auto.
      * intros (n & r & [[=]|Hin] & Hq). by exists n, r.
    + destruct (EqualFold name "q") eqn:E.
      * split; [intros _|done]. exists name, rest. split; [by left|].
        by apply EqualFold_q.
      * rewrite IH. split.
        -- intros (n & r & Hin & Hq). exists n, r. auto.
        -- intros (n & r & [[= -> ->]|Hin] & Hq); [|by exists n, r].
           apply EqualFold_q in Hq. congruence.
Qed.

(** *** What [Match] rejects, forgets and leaves alone *)

Lemma Match_cfg f ev t1 t2 : cfg (snd (Match f ev t1 t2)) = cfg f.
Proof.
  unfold Match. destruct (negb (Enabled (cfg f))); [done|].
  destruct (negb (tracked ev)); [done|].
  pose proof (snapshot_cfg f (PubKey ev) t1) as Hc.
  destruct (snapshot f (PubKey ev) t1) as [sc f1]. simpl in Hc.
  unfold commit.
  destruct (decide (cfg f) (isRepostNIP18 (cfg f) ev).1 sc);
    destruct (LRU.Get (stats f1) (PubKey ev) t2); done.
Qed.

(** X3.  [Match] rejects nothing but reposts of identities that have reached
    the minimum number of events: a disabled filter, an untracked kind, an
    original post and a young identity are never rejected. *)
Theorem Match_rejects_only f ev t1 t2 :
  fst (fst (Match f ev t1 t2)) = false ->
  let s := current_stats f (PubKey ev) t1 in
  Enabled (cfg f) = true /\ tracked ev = true /\
  fst (isRepostNIP18 (cfg f) ev) = true /\
  MinEvents (cfg f) <= int_add (OriginalPosts s) (Reposts s).
Proof.
  intros Hrej s.
  destruct (Enabled (cfg f)) eqn:He; [|by unfold Match in Hrej; rewrite He in Hrej].
  destruct (tracked ev) eqn:Ht; [|by unfold Match in Hrej; rewrite He, Ht in Hrej].
  rewrite Match_verdict in Hrej by done. fold s in Hrej.
  destruct (fst (isRepostNIP18 (cfg f) ev)) eqn:Hr; [|done].
  unfold decide in Hrej.
  destruct (MinEvents (cfg f) <=? int_add (OriginalPosts s) (Reposts s)) eqn:M; [|done].
  apply Z.leb_le in M. done.
Qed.

Lemma Get_later {V} (c : LRU.t V) k t1 t2 s :
  t1 <= t2 -> fst (LRU.Get c k t2) = Some s -> fst (LRU.Get c k t1) = Some s.
Proof.
  rewrite !LRUFacts.fst_Get. intros Hle.
  destruct (LRU.find k (LRU.items c)) as [e|]; [|done].
  destruct (LRU.expiresAt e <? t2) eqn:E2; [done|]. intros [= <-].
  apply Z.ltb_ge in E2.
  assert ((LRU.expiresAt e <? t1) = false) as -> by (apply Z.ltb_ge; lia). done.
Qed.

Lemma Get_earlier {V} (c : LRU.t V) k t1 t2 s :
  fst (LRU.Get c k t1) = Some s ->
  fst (LRU.Get c k t2) = Some s \/ fst (LRU.Get c k t2) = None.
Proof.
  rewrite !LRUFacts.fst_Get.
  destruct (LRU.find k (LRU.items c)) as [e|]; [|done].
  destruct (LRU.expiresAt e <? t1); [done|]. intros [= <-].
  destruct (LRU.expiresAt e <? t2); auto.
Qed.

(** X4.  After an identity has been idle for longer than [ResetDuration], its
    history does not count: with a minimum of one event or more the event
    is allowed whatever the counters were, and the counters start again
    from this event. *)
Theorem Match_after_inactivity f ev t1 t2 s :
  Enabled (cfg f) = true -> tracked ev = true -> t1 <= t2 ->
  fst (LRU.Get (stats f) (PubKey ev) t1) = Some s ->
  0 < ResetDuration (cfg f) -> LastEventTime s <> 0 ->
  ResetDuration (cfg f) < t1 - LastEventTime s ->
  1 <= MinEvents (cfg f) ->
  fst (Match f ev t1 t2) = allowed /\
  stored_stats (snd (Match f ev t1 t2)) (PubKey ev) =
    Some (if fst (isRepostNIP18 (cfg f) ev) then mkStats 0 1 t2 else mkStats 1 0 t2).
Proof.
  intros He Ht Hle Hget Hreset Hlast Hidle Hmin.
  assert (forall t, t1 <= t -> resetIfIdle (cfg f) t s = mkStats 0 0 (LastEventTime s))
    as Hzero.
  { intros t Ht1. unfold resetIfIdle, IsZero, Since.
    assert ((0 <? ResetDuration (cfg f)) = true) as -> by (apply Z.ltb_lt; lia).
    assert ((LastEventTime s =? 0) = false) as -> by (apply Z.eqb_neq; lia).
    assert ((ResetDuration (cfg f) <? t - LastEventTime s) = true) as ->
      by (apply Z.ltb_lt; lia).
    done. }
  assert (decide (cfg f) (fst (isRepostNIP18 (cfg f) ev))
            (current_stats f (PubKey ev) t1) = None) as Hdec.
  { rewrite current_stats_unfold, Hget, Hzero by lia.
    unfold decide. destruct (fst (isRepostNIP18 (cfg f) ev)); [|done]. simpl.
    assert ((MinEvents (cfg f) <=? int_add 0 0) = false) as ->; [|done].
    apply Z.leb_gt. rewrite int_add_small by (unfold maxInt; lia). lia. }
  split.
  - rewrite Match_verdict by done. by rewrite Hdec.
  - pose proof (Match_stored f ev t1 t2 He Ht Hle) as Hst. simpl in Hst.
    rewrite Hst, Hdec.
    assert (OriginalPosts (current_stats f (PubKey ev) t2) = 0 /\
            Reposts (current_stats f (PubKey ev) t2) = 0) as [-> ->].
    { rewrite current_stats_unfold.
      destruct (Get_earlier (stats f) (PubKey ev) t1 t2 s Hget) as [-> | ->]; [|done].
      by rewrite Hzero. }
    rewrite int_add_small by (unfold maxInt; lia).
    by destruct (fst (isRepostNIP18 (cfg f) ev)).
Qed.

Lemma length_remove_le {V} k (l : list (LRU.Entry V)) :
  (length (LRU.remove k l) <= length l)%nat.
Proof.
  induction l as [|x l IH]; simpl; [lia|].
  destruct (String.eqb (LRU.ekey x) k); simpl; lia.
Qed.

Lemma length_remove_found {V} k (l : list (LRU.Entry V)) e :
  LRU.find k l = Some e -> (S (length (LRU.remove k l)) <= length l)%nat.
Proof.
  induction l as [|x l IH]; simpl; [done|].
  destruct (String.eqb (LRU.ekey x) k).
  - intros _. pose proof (length_remove_le k l). lia.
  - intros Hf. specialize (IH Hf). simpl. lia.
Qed.

Lemma Get_shape {V} (c : LRU.t V) k now :
  LRU.size (snd (LRU.Get c k now)) = LRU.size c /\
  (length (LRU.items (snd (LRU.Get c k now))) <= length (LRU.items c))%nat.
Proof.
  unfold LRU.Get. destruct (LRU.find k (LRU.items c)) as [e|] eqn:F; [|done].
  destruct (LRU.expiresAt e <? now); [done|]. simpl.
  split; [done|]. by apply (length_remove_found k _ e).
Qed.

Lemma Poke_shape {V} (c : LRU.t V) k v :
  LRU.size (LRU.Poke c k v) = LRU.size c /\
  length (LRU.items (LRU.Poke c k v)) = length (LRU.items c).
Proof. unfold LRU.Poke. simpl. by rewrite length_map. Qed.

Lemma snapshot_frame f pk now pk' :
  pk' <> pk ->
  stored_stats (snd (snapshot f pk now)) pk' = stored_stats f pk' /\
  LRU.size (stats (snd (snapshot f pk now))) = LRU.size (stats f) /\
  (length (LRU.items (stats (snd (snapshot f pk now)))) <= length (LRU.items (stats f)))%nat.
Proof.
  intros Hne. unfold snapshot, stored_stats.
  pose proof (LRUFacts.Lookup_Get (stats f) pk now pk') as HL.
  pose proof (Get_shape (stats f) pk now) as [Hs Hl].
  destruct (LRU.Get (stats f) pk now) as [[s|] c]; cbn [fst snd stats] in *; [|done].
  rewrite LRUFacts.Lookup_Poke_other by done.
  destruct (Poke_shape c pk (resetIfIdle (cfg f) now s)) as [-> ->]. done.
Qed.

(** X5.  [Match] changes the statistics of no identity but the author of the
    event; storing the author's statistics can evict another identity
    when the cache is full, and does nothing else to it. *)
Theorem Match_other_identities f ev t1 t2 pk' :
  pk' <> PubKey ev ->
  stored_stats (snd (Match f ev t1 t2)) pk' = stored_stats f pk' \/
  (stored_stats (snd (Match f ev t1 t2)) pk' = None /\
   0 < LRU.size (stats f) <= Z.of_nat (length (LRU.items (stats f)))).
Proof.
  intros Hne.
  destruct (Enabled (cfg f)) eqn:He; [|left; unfold Match; by rewrite He].
  destruct (tracked ev) eqn:Ht; [|left; unfold Match; by rewrite He, Ht].
  rewrite Match_state by done.
  destruct (snapshot_frame f (PubKey ev) t1 pk' Hne) as (Hst & Hsz & Hlen).
  set (f1 := snd (snapshot f (PubKey ev) t1)) in *.
  unfold commit, stored_stats in *.
  pose proof (LRUFacts.Lookup_Get (stats f1) (PubKey ev) t2 pk') as HL.
  pose proof (Get_shape (stats f1) (PubKey ev) t2) as [Hs2 Hl2].
  destruct (LRU.Get (stats f1) (PubKey ev) t2) as [o c]. simpl in *.
  match goal with |- context [LRU.Add c ?k ?v ?t] =>
    destruct (LRUFacts.Lookup_Add_other c k v t pk' Hne) as [E | [E Hfull]] end.
  - left. rewrite E. congruence.
  - right. split; [done|]. lia.
Qed.

Lemma decide_counters c b s s' :
  OriginalPosts s = OriginalPosts s' -> Reposts s = Reposts s' ->
  decide c b s = decide c b s'.
Proof. intros Ho Hr. unfold decide. by rewrite Ho, Hr. Qed.

Lemma snapshot_ttl f pk now :
  LRU.ttl (stats (snd (snapshot f pk now))) = LRU.ttl (stats f).
Proof.
  unfold snapshot. pose proof (LRUFacts.ttl_Get (stats f) pk now) as Ht.
  destruct (LRU.Get (stats f) pk now) as [[s|] c]; simpl in *; done.
Qed.

(** What a later section reads of the author after [Match] has stored
    the statistics: what was stored, until the time to live has passed. *)
Lemma Match_then_Get f ev t1 t2 t3 :
  Enabled (cfg f) = true -> tracked ev = true ->
  fst (LRU.Get (stats (snd (Match f ev t1 t2))) (PubKey ev) t3) =
    if t2 + LRU.ttl (stats f) <? t3 then None
    else stored_stats (snd (Match f ev t1 t2)) (PubKey ev).
Proof.
  intros He Ht. rewrite Match_state by done. unfold commit, stored_stats.
  pose proof (snapshot_ttl f (PubKey ev) t1) as Httl.
  set (f1 := snd (snapshot f (PubKey ev) t1)) in *.
  pose proof (LRUFacts.ttl_Get (stats f1) (PubKey ev) t2) as Htg.
  destruct (LRU.Get (stats f1) (PubKey ev) t2) as [o c]. simpl in *.
  rewrite LRUFacts.Get_Add_same, LRU.Lookup_Add_same. by rewrite Htg, Httl.
Qed.

(** X6.  A rejection changes no counter, so it does not wear off: with the
    inactivity reset off and the entry of the identity alive, a repost
    that follows a rejected repost is rejected as well. *)
Theorem rejection_is_sticky f ev ev' t1 t2 t3 t4 s :
  Enabled (cfg f) = true -> ResetDuration (cfg f) <= 0 ->
  PubKey ev' = PubKey ev ->
  fst (isRepostNIP18 (cfg f) ev) = true -> fst (isRepostNIP18 (cfg f) ev') = true ->
  t1 <= t2 -> t3 <= t2 + LRU.ttl (stats f) ->
  fst (LRU.Get (stats f) (PubKey ev) t2) = Some s ->
  fst (fst (Match f ev t1 t2)) = false ->
  fst (fst (Match (snd (Match f ev t1 t2)) ev' t3 t4)) = false.
Proof.
  intros He Hreset Hpk Hr Hr' H12 H3 Hget Hrej.
  pose proof (isRepost_tracked _ _ Hr) as Ht.
  pose proof (isRepost_tracked _ _ Hr') as Ht'.
  assert (forall t x, resetIfIdle (cfg f) t x = x) as Hid.
  { intros t x. unfold resetIfIdle.
    assert ((0 <? ResetDuration (cfg f)) = false) as -> by (apply Z.ltb_ge; lia). done. }
  assert (current_stats f (PubKey ev) t1 = s) as Hcur1.
  { rewrite current_stats_unfold, (Get_later _ _ t1 t2 s H12 Hget). apply Hid. }
  assert (current_stats f (PubKey ev) t2 = s) as Hcur2.
  { rewrite current_stats_unfold, Hget. apply Hid. }
  rewrite Match_verdict in Hrej by done. rewrite Hr, Hcur1 in Hrej.
  destruct (decide (cfg f) true s) as [e|] eqn:Hdec; [|done].
  pose proof (Match_stored f ev t1 t2 He Ht H12) as Hst. simpl in Hst.
  rewrite Hr, Hcur1, Hcur2, Hdec in Hst.
  set (f' := snd (Match f ev t1 t2)) in *.
  assert (cfg f' = cfg f) as Hcfg by apply Match_cfg.
  rewrite Match_verdict by (rewrite ?Hcfg; done).
  rewrite Hcfg, Hr', Hpk, current_stats_unfold.
  subst f'. rewrite Match_then_Get by done.
  assert ((t2 + LRU.ttl (stats f) <? t3) = false) as -> by (apply Z.ltb_ge; lia).
  rewrite Hst, Match_cfg, Hid.
  erewrite decide_counters; [rewrite Hdec; done| |];
    by destruct (CountRejectAsActivity (cfg f)).
Qed.

(** *** Examples *)

Lemma Match_rejects_only_witness :
  fst (fst (Match (afterReposts 3) exampleRepost 203 203)) = false /\
  MinEvents exampleConfig <= 4 + 3.
Proof.
  assert (fst (fst (Match (afterReposts 3) exampleRepost 203 203)) = false) as H
    by (vm_compute; reflexivity).
  split; [exact H|].
  destruct (Match_rejects_only (afterReposts 3) exampleRepost 203 203 H)
    as (_ & _ & _ & Hmin).
  vm_compute in Hmin. vm_compute. exact Hmin.
Defined.

(** A filter that forgets after a minute of inactivity, holding an
    identity that has reposted a lot. *)
Definition decayConfig : RepostAbuseFilterConfig :=
  {| Enabled := true; MinEvents := 5; MaxRatio := 0.5;
     ResetDuration := Minute; CountRejectAsActivity := false;
     RequireNIP21InQuote := true; CacheSize := 16; CacheTTL := Hour |}.

Definition decayFilter : RepostAbuseFilter :=
  let f := NewRepostAbuseFilter decayConfig in
  mkFilter (LRU.Add (stats f) "alice" (mkStats 4 6 100) 100) (cfg f).

Example decay_needed :
  fst (fst (Match decayFilter exampleRepost (100 + Second) (100 + Second))) = false.
Proof. by vm_compute. Qed.

Lemma Match_after_inactivity_witness :
  fst (Match decayFilter exampleRepost (100 + 2 * Minute) (101 + 2 * Minute)) = allowed /\
  stored_stats (snd (Match decayFilter exampleRepost (100 + 2 * Minute) (101 + 2 * Minute)))
    "alice" = Some (mkStats 0 1 (101 + 2 * Minute)).
Proof.
  apply (Match_after_inactivity decayFilter exampleRepost
           (100 + 2 * Minute) (101 + 2 * Minute) (mkStats 4 6 100));
    vm_compute; congruence.
Defined.

Lemma Match_other_identities_witness :
  stored_stats (snd (Match exampleFilter exampleRepost 200 200)) "bob" =
    stored_stats exampleFilter "bob" \/
  (stored_stats (snd (Match exampleFilter exampleRepost 200 200)) "bob" = None /\
   0 < LRU.size (stats exampleFilter)
     <= Z.of_nat (length (LRU.items (stats exampleFilter)))).
Proof.
  apply (Match_other_identities exampleFilter exampleRepost 200 200 "bob").
  vm_compute. congruence.
Defined.

Lemma rejection_is_sticky_witness :
  fst (fst (Match (afterReposts 3) exampleRepost 203 203)) = false /\
  fst (fst (Match (snd (Match (afterReposts 3) exampleRepost 203 203))
                  exampleRepost 204 204)) = false.
Proof.
  assert (fst (fst (Match (afterReposts 3) exampleRepost 203 203)) = false) as H
    by (vm_compute; reflexivity).
  split; [exact H|].
  apply (rejection_is_sticky (afterReposts 3) exampleRepost exampleRepost
           203 203 204 204 (mkStats 4 3 202));
    try exact H; vm_compute; congruence.
Defined.

End RepostFacts.

(** ** Strings: separators and decimal numbers *)
Module StringFacts.

Lemma append_nil_l (s : string) : "" +:+ s = s.
Proof. reflexivity. Qed.

Lemma append_cons x (a s : string) : String x a +:+ s = String x (a +:+ s).
Proof. reflexivity. Qed.

(** The character [c] does not occur in [s]. *)
Fixpoint noChar (c : ascii) (s : string) : bool :=
  match s with
  | EmptyString => true
  | String a rest => negb (Ascii.eqb a c) && noChar c rest
  end.

Definition isDigitChar (c : ascii) : bool :=
  ((48 <=? N_of_ascii c) && (N_of_ascii c <=? 57))%N.

Lemma pretty_N_char_digit x : isDigitChar (pretty_N_char x) = true.
Proof. unfold pretty_N_char. by repeat case_match. Qed.

Lemma digit_not_char c x :
  isDigitChar c = false -> Ascii.eqb (pretty_N_char x) c = false.
Proof.
  intros Hc. destruct (Ascii.eqb (pretty_N_char x) c) eqn:E; [|done].
  apply Ascii.eqb_eq in E. subst c. by rewrite pretty_N_char_digit in Hc.
Qed.

Lemma pretty_N_go_noChar c x s :
  isDigitChar c = false -> noChar c s = true -> noChar c (pretty_N_go x s) = true.
Proof.
  intros Hc. revert s. induction (N.lt_wf_0 x) as [x _ IH]; intros s Hs.
  assert (x = 0 \/ 0 < x)%N as [->|Hx] by lia.
  - by rewrite pretty_N_go_0.
  - rewrite pretty_N_go_step by done. apply IH.
    + by apply N.div_lt.
    + cbn [noChar]. by rewrite digit_not_char, Hs.
Qed.

(** The decimal digits of a number that is not negative hold no other
    character. *)
Lemma pretty_nonneg_noChar c (z : Z) :
  0 <= z -> isDigitChar c = false -> noChar c (pretty z) = true.
Proof.
  intros Hz Hc. unfold pretty, pretty_Z. destruct z as [|q|q]; [|  |lia].
  - cbn [noChar]. rewrite andb_true_r. apply negb_true_iff.
    apply (digit_not_char c 0 Hc).
  - unfold pretty, pretty_positive, pretty, pretty_N.
    case_decide; [done|]. by apply pretty_N_go_noChar.
Qed.

(** Two texts cut at the first separator are cut alike. *)
Lemma sep_split c a b u u' :
  noChar c a = true -> noChar c b = true ->
  a +:+ String c u = b +:+ String c u' -> a = b /\ u = u'.
Proof.
  revert b. induction a as [|x a IH]; intros [|y b];
    rewrite ?append_cons, ?append_nil_l; cbn [noChar].
  - intros _ _ [= ->]. done.
  - intros _ [Hy _]%andb_prop [= <- _]. by rewrite Ascii.eqb_refl in Hy.
  - intros [Hx _]%andb_prop _ [= -> _]. by rewrite Ascii.eqb_refl in Hx.
  - intros [_ Ha]%andb_prop [_ Hb]%andb_prop [= -> Heq].
    destruct (IH b Ha Hb Heq) as [-> ->]. done.
Qed.

End StringFacts.

(** ** RateLimiterFilter: rules, keys and the life of a limiter *)
Module RateLimitFacts.
Import RateLimit StringFacts.

Lemma addKinds_lookup ks p m k :
  addKinds ks p m !! k = if bool_decide (k ∈ ks) then Some p else m !! k.
Proof.
  revert m. induction ks as [|a ks IH]; intros m; cbn [addKinds].
  - by rewrite bool_decide_eq_false_2 by apply not_elem_of_nil.
  - rewrite IH. destruct (bool_decide (k ∈ ks)) eqn:E.
    + apply bool_decide_eq_true in E.
      by rewrite bool_decide_eq_true_2 by (by right).
    + apply bool_decide_eq_false in E.
      destruct (decide (k = a)) as [->|Hne].
      * rewrite lookup_insert_eq.
        by rewrite bool_decide_eq_true_2 by left.
      * rewrite lookup_insert_ne by done.
        rewrite bool_decide_eq_false_2; [done|].
        intros [?|?]%elem_of_cons; done.
Qed.

Lemma addRules_lookup i rules m k :
  (Forall (fun r => k ∉ Kinds r) rules /\ addRules i rules m !! k = m !! k) \/
  exists j r,
    rules !! j = Some r /\ k ∈ Kinds r /\
    (forall j' r', (j < j')%nat -> rules !! j' = Some r' -> k ∉ Kinds r') /\
    addRules i rules m !! k =
      Some (mkProcessed r ("rule-" +:+ pretty (Z.of_nat (i + j)))).
Proof.
  revert i m. induction rules as [|r rules IH]; intros i m; simpl.
  - left. by split.
  - destruct (IH (S i)
                (addKinds (Kinds r) (mkProcessed r ("rule-" +:+ pretty (Z.of_nat i))) m))
      as [[Hnone Hlk] | (j & r' & Hj & Hin & Hlast & Hlk)].
    + rewrite addKinds_lookup in Hlk.
      destruct (bool_decide (k ∈ Kinds r)) eqn:E.
      * apply bool_decide_eq_true in E. right. exists 0%nat, r.
        split; [done|]. split; [done|]. split.
        -- intros [|j'] r' Hlt Hr'; [lia|]. simpl in Hr'.
           rewrite Forall_forall in Hnone. apply Hnone.
           by eapply list_elem_of_lookup_2.
        -- by rewrite Nat.add_0_r.
      * apply bool_decide_eq_false in E. left. split; [by constructor|done].
    + right. exists (S j), r'. split; [done|]. split; [done|]. split.
      * intros [|j'] r'' Hlt Hr''; [lia|]. simpl in Hr''.
        apply (Hlast j' r''); [lia|done].
      * rewrite Hlk. by replace (S i + j)%nat with (i + S j)%nat by lia.
Qed.

(** X7.  A kind that several rules list is governed by the last of them, under
    the identifier made of the index of that rule; a kind that no rule
    lists gets the default rate and burst under the identifier
    [default]. *)
Theorem resolve_last_rule c k :
  ((forall r, r ∈ Rules c -> k ∉ Kinds r) /\
   resolve (NewRateLimiterFilter c) k =
     (DefaultRate c, DefaultBurst c, "default"%string, "default"%string)) \/
  exists i r,
    Rules c !! i = Some r /\ k ∈ Kinds r /\
    (forall j r', (i < j)%nat -> Rules c !! j = Some r' -> k ∉ Kinds r') /\
    resolve (NewRateLimiterFilter c) k =
      (Rate r, Burst r, "rule-" +:+ pretty (Z.of_nat i), Description r).
Proof.
  unfold resolve, NewRateLimiterFilter. cbn [kindToRule cfg].
  destruct (addRules_lookup 0 (Rules c) ∅ k)
    as [[Hnone Hlk] | (j & r & Hj & Hin & Hlast & Hlk)].
  - left. rewrite Hlk, lookup_empty. split; [|done].
    by apply Forall_forall.
  - right. exists j, r. rewrite Hlk. done.
Qed.

(** *** Cache keys *)

(** The rule identifiers of [NewRateLimiterFilter] and [Match]: the index
    of a rule, or [default]. *)
Definition ruleID (o : option nat) : string :=
  match o with
  | Some i => "rule-" +:+ pretty (Z.of_nat i)
  | None => "default"
  end.

(** The two forms of user key [Match] builds. *)
Inductive Dimension : Type := ByAddress | ByPubKey.

Definition userKey (d : Dimension) (identity : string) : string :=
  match d with
  | ByAddress => "ip:" +:+ identity
  | ByPubKey => "pk:" +:+ identity
  end.

Lemma userKeys_userKey by_ ip pk u :
  u ∈ userKeys by_ ip pk ->
  u = userKey ByAddress ip \/ u = userKey ByPubKey pk.
Proof.
  unfold userKeys, ipKey, pkKey.
  destruct by_, (String.eqb ip ""), (String.eqb pk ""); simpl;
    rewrite ?elem_of_cons, ?elem_of_nil; tauto.
Qed.

(** X8.  Two cache keys are the same only for the same rule, the same
    dimension and the same identity: limiters are never shared between
    rules, between an address and a public key, or between identities,
    whatever characters the identities contain. *)
Theorem cacheKey_inj o d x o' d' x' :
  cacheKey (ruleID o) (userKey d x) = cacheKey (ruleID o') (userKey d' x') <->
  o = o' /\ d = d' /\ x = x'.
Proof.
  split; [|by intros (-> & -> & ->)].
  unfold cacheKey. intros Heq.
  assert (o = o' /\ userKey d x = userKey d' x') as [-> Hu].
  { destruct o as [i|], o' as [j|]; cbn [ruleID] in Heq.
    - rewrite !append_cons, !append_nil_l in Heq. injection Heq as Heq.
      apply (sep_split ":") in Heq as [Hij ->];
        try (apply pretty_nonneg_noChar; [lia|reflexivity]).
      apply pretty_Z_inj, Nat2Z.inj in Hij. by subst.
    - rewrite !append_cons in Heq. discriminate.
    - rewrite !append_cons in Heq. discriminate.
    - apply (inj (String.append "default")) in Heq.
      apply (inj (String.append ":")) in Heq. done. }
  split; [done|].
  destruct d, d'; cbn [userKey] in Hu; rewrite ?append_cons in Hu; simplify_eq; done.
Qed.

(** *** The life of a limiter *)

Section WithLimiter.
Context {L : Type} `{RateLimiter L}.

(** The cache of the filter holds, under [key], the limiter [l] with the
    expiry [expiry]. *)
Definition holds (f : RateLimiterFilter) (key : string) (l : loc) (expiry : Time) : Prop :=
  LRU.find key (LRU.items (limiters f)) = Some (LRU.mkEntry key l expiry).

(** A call for a key the cache holds: the limiter it holds until the
    expiry, a fresh one after. *)
Lemma holds_use f2 (w2 : World L) key l expiry r' b' now' :
  holds f2 key l expiry ->
  let '(l', f3, w3) := getLimiter f2 w2 key r' b' now' in
  if expiry <? now'
  then l' = length (heap w2) /\ heap w3 = heap w2 ++ [NewLimiter r' b'] /\
       log w3 = log w2 ++ [LimiterCreated key l']
  else l' = l /\ heap w3 = heap w2 /\ log w3 = log w2 ++ [LimiterFound key l] /\
       holds f3 key l expiry.
Proof.
  unfold holds, getLimiter, getOrCreate, LRU.Get. intros ->. cbn [LRU.expiresAt LRU.evalue].
  destruct (expiry <? now'); simpl; [done|].
  by rewrite String.eqb_refl.
Qed.

(** A call for another key keeps the entry, unless it adds a new key to a
    cache that is full. *)
Lemma holds_other f2 (w2 : World L) key l expiry key' r' b' now' :
  holds f2 key l expiry -> key' <> key ->
  let '(_, f3, _) := getLimiter f2 w2 key' r' b' now' in
  holds f3 key l expiry \/
  (LRU.find key' (LRU.items (limiters f2)) = None /\
   0 < LRU.size (limiters f2) <= Z.of_nat (length (LRU.items (limiters f2)))).
Proof.
  unfold holds, getLimiter, getOrCreate, LRU.Get. intros Hh Hne.
  assert (String.eqb key' key = false) as Hkk by (by apply String.eqb_neq).
  destruct (LRU.find key' (LRU.items (limiters f2))) as [e'|] eqn:F.
  - pose proof (LRU.find_key _ _ _ F) as K.
    assert (String.eqb (LRU.ekey e') key = false) as K'.
    { apply String.eqb_eq in K. by rewrite K. }
    destruct (LRU.expiresAt e' <? now'); simpl; left.
    + unfold LRU.Add. rewrite F. simpl. rewrite Hkk.
      by rewrite LRU.find_remove_other.
    + rewrite K'. by rewrite LRU.find_remove_other.
  - simpl. unfold LRU.Add. rewrite F.
    match goal with |- context [if ?b then _ else _] => destruct b eqn:B end; simpl.
    + apply andb_true_iff in B as [B1%Z.ltb_lt B2%Z.ltb_lt].
      destruct (LRUFacts.find_removelast key
                  (LRU.mkEntry key' (length (heap w2)) (now' + LRU.ttl (limiters f2))
                     :: LRU.items (limiters f2))) as [E|E].
      * left.
        change (LRU.find key
                  (removelast
                     (LRU.mkEntry key' (length (heap w2)) (now' + LRU.ttl (limiters f2))
                        :: LRU.items (limiters f2))) = Some (LRU.mkEntry key l expiry)).
        rewrite E. cbn [LRU.find LRU.ekey]. by rewrite Hkk.
      * right. split; [done|]. simpl in B2. lia.
    + rewrite Hkk. by left.
Qed.

(** X9.  A limiter lives for the time to live of the cache, counted from
    its creation, unless its entry is evicted.  A call that misses makes
    a new limiter and the cache then holds it under the key, expiring one
    time to live later.  From any later state of the filter whose cache
    still holds that entry, a call for the key within that time finds the
    same limiter, whatever rate and burst the call names and whatever was
    done to the limiters in between, and the entry stays; a call after
    that time makes a fresh limiter.  A call for another key keeps the
    entry, unless it adds a new key to a cache that is full. *)
Theorem getLimiter_lifetime f (w : World L) key r b now :
  fst (LRU.Get (limiters f) key now) = None ->
  let '(l, f1, w1) := getLimiter f w key r b now in
  let expiry := now + LRU.ttl (limiters f) in
  l = length (heap w) /\ holds f1 key l expiry /\
  forall f2, holds f2 key l expiry ->
    (forall (w2 : World L) r' b' now',
       let '(l', f3, w3) := getLimiter f2 w2 key r' b' now' in
       if expiry <? now'
       then l' = length (heap w2) /\ heap w3 = heap w2 ++ [NewLimiter r' b'] /\
            log w3 = log w2 ++ [LimiterCreated key l']
       else l' = l /\ heap w3 = heap w2 /\ log w3 = log w2 ++ [LimiterFound key l] /\
            holds f3 key l expiry) /\
    (forall (w2 : World L) key' r' b' now', key' <> key ->
       let '(_, f3, _) := getLimiter f2 w2 key' r' b' now' in
       holds f3 key l expiry \/
       (LRU.find key' (LRU.items (limiters f2)) = None /\
        0 < LRU.size (limiters f2) <= Z.of_nat (length (LRU.items (limiters f2))))).
Proof.
  intros Hmiss. unfold getLimiter at 1. unfold getOrCreate.
  pose proof (LRUFacts.ttl_Get (limiters f) key now) as Httl.
  destruct (LRU.Get (limiters f) key now) as [[l0|] c]; [done|].
  cbn [allocLimiter emit]. cbn beta iota zeta. simpl in Httl.
  split; [done|]. split.
  - unfold holds. cbn [limiters]. by rewrite LRUFacts.find_Add_same, Httl.
  - intros f2 Hh. split.
    + intros w2 r' b' now'. by apply holds_use.
    + intros w2 key' r' b' now' Hne. by apply holds_other.
Qed.

End WithLimiter.

Lemma getLimiter_lifetime_witness :
  let f := NewRateLimiterFilter exampleConfig in
  let '(l, f1, w1) := getLimiter f exampleWorld "rule-0:pk:alice" 1 1 1000 in
  let '(_, f2, w2) := getLimiter f1 w1 "rule-0:pk:bob" 1 1 2000 in
  let '(l', f3, w3) := getLimiter f2 w2 "rule-0:pk:alice" 5 5 (1000 + Minute) in
  l = 0%nat /\ holds f2 "rule-0:pk:alice" 0%nat (1000 + LRU.ttl (limiters f)) /\
  l' = 0%nat /\ heap w3 = heap w2 /\
  log w3 = log w2 ++ [LimiterFound "rule-0:pk:alice" 0%nat].
Proof.
  pose proof (getLimiter_lifetime (NewRateLimiterFilter exampleConfig) exampleWorld
                "rule-0:pk:alice" 1 1 1000 eq_refl) as Hl.
  cbv zeta.
  destruct (getLimiter (NewRateLimiterFilter exampleConfig) exampleWorld
              "rule-0:pk:alice" 1 1 1000) as [[l f1] w1] eqn:E1.
  cbv zeta in Hl. destruct Hl as (Hl0 & Hh1 & Hlater).
  assert (l = 0%nat) as -> by exact Hl0.
  pose proof (proj2 (Hlater f1 Hh1) w1 "rule-0:pk:bob"%string 1%float 1 2000) as Hbob.
  destruct (getLimiter f1 w1 "rule-0:pk:bob" 1 1 2000) as [[lb f2] w2] eqn:E2.
  assert (holds f2 "rule-0:pk:alice" 0%nat
            (1000 + LRU.ttl (limiters (NewRateLimiterFilter exampleConfig)))) as Hh2.
  { destruct Hbob as [Hh2|(_ & _ & Hfull)]; [discriminate|exact Hh2|].
    exfalso. injection E1 as <- <-. vm_compute in Hfull. by apply Hfull. }
  pose proof (proj1 (Hlater f2 Hh2) w2 5%float 5 (1000 + Minute)) as Huse.
  destruct (getLimiter f2 w2 "rule-0:pk:alice" 5 5 (1000 + Minute)) as [[l' f3] w3].
  assert ((1000 + LRU.ttl (limiters (NewRateLimiterFilter exampleConfig))
             <? 1000 + Minute) = false) as Hin by (vm_compute; reflexivity).
  rewrite Hin in Huse. destruct Huse as (-> & Hheap & Hlog & _).
  done.
Defined.

(** With room for one limiter only, the limiter of [alice] is evicted by
    the call for [bob] and the next call for [alice] makes a third one. *)
Example example_evicted_limiter :
  let f := NewRateLimiterFilter
             {| Enabled := true; By := RateByPubKey; DefaultRate := 0; DefaultBurst := 0;
                Rules := [mkRule "notes" [1] 1 1]; CacheSize := 1; TTL := 0 |} in
  let '(l, f1, w1) := getLimiter f exampleWorld "rule-0:pk:alice" 1 1 1000 in
  let '(_, f2, w2) := getLimiter f1 w1 "rule-0:pk:bob" 1 1 2000 in
  let '(l', f3, w3) := getLimiter f2 w2 "rule-0:pk:alice" 1 1 3000 in
  l = 0%nat /\ LRU.find "rule-0:pk:alice" (LRU.items (limiters f2)) = None /\
  l' = 2%nat.
Proof. by vm_compute. Qed.

End RateLimitFacts.

(** ** EmergencyFilter: nil pointers, seen keys and networks *)
Module EmergencyFacts.
Import Emergency StringFacts.

Section WithLimiter.
Context {L : Type} `{RateLimiter L}.

Lemma withSeen_wf f (w : World L) c : wf f w -> wf (withSeen f c) w.
Proof.
  unfold wf. cbn [withSeen newKeyLimiter recentSeen perIPEnabled perIPLimiters].
  destruct (newKeyLimiter f); [|done].
  intros (Hlt & _ & Hper). split; [done|]. split; [by eexists|done].
Qed.

Lemma Match_total f (w : World L) ev meta now :
  wf f w -> exists v f' w', Match f w ev meta now = Ok (v, f', w').
Proof.
  intros Hwf. unfold Match.
  destruct (newKeyLimiter f) as [g|] eqn:Hg; [|by eexists _, _, _].
  destruct (String.eqb (PubKey ev) ""); [by eexists _, _, _|].
  pose proof Hwf as Hwf'. unfold wf in Hwf'. rewrite Hg in Hwf'.
  destruct Hwf' as (Hlt & [seen Hseen] & Hper). rewrite Hseen.
  destruct (LRU.Get seen (PubKey ev) now) as [[[]|] seen1]; [by eexists _, _, _|].
  destruct (perIPCheck_spec (withSeen f seen1) w meta now g Hg (withSeen_wf f w seen1 Hwf))
    as (ok & f2 & w2 & -> & _).
  destruct ok; [|by eexists _, _, _].
  destruct (allowAt w2 g now) as [[|] w3]; by eexists _, _, _.
Qed.

Lemma MatchAll_wf f (w : World L) calls :
  wf f w -> exists vs, MatchAll f w calls = Ok vs /\ length vs = length calls.
Proof.
  revert f w. induction calls as [|[[ev meta] now] rest IH]; intros f w Hwf.
  - by exists [].
  - cbn [MatchAll].
    destruct (Match_total f w ev meta now Hwf) as (v & f' & w' & HM). rewrite HM.
    destruct (IH f' w' (Match_wf f w ev meta now v f' w' Hwf HM)) as (vs & -> & Hlen).
    exists (v :: vs). split; [done|]. simpl. by rewrite Hlen.
Qed.

(** X10.  A filter made by the constructor, from any configuration or none,
    never dereferences a nil pointer: every call of any sequence of calls
    returns a verdict. *)
Theorem Emergency_never_panics cfg (w : World L) calls :
  exists vs,
    MatchAll (fst (NewEmergencyFilter cfg w)) (snd (NewEmergencyFilter cfg w)) calls
      = Ok vs /\
    length vs = length calls.
Proof. apply MatchAll_wf, NewEmergencyFilter_wf. Qed.

(** The cache of seen keys holds [pk], with the expiry [expiry]. *)
Definition remembers (f : EmergencyFilter) (pk : string) (expiry : Time) : Prop :=
  exists seen, recentSeen f = Some seen /\
               LRU.find pk (LRU.items seen) = Some (LRU.mkEntry pk tt expiry).

(** The per-address block leaves the limiter for new keys and the cache
    of seen keys alone. *)
Lemma perIPCheck_seen f (w : World L) meta now ok f2 w2 :
  perIPCheck f w meta now = Ok (ok, f2, w2) ->
  newKeyLimiter f2 = newKeyLimiter f /\ recentSeen f2 = recentSeen f.
Proof.
  unfold perIPCheck.
  destruct (perIPEnabled f); [|by intros [= <- <- <-]].
  destruct (remote_ip_of meta) as [remoteIP [|]]; [|by intros [= <- <- <-]].
  destruct (negb (String.eqb remoteIP "")); [|by intros [= <- <- <-]].
  destruct (perIPLimiters f) as [c|]; [|done].
  destruct (getOrCreate c w _ (perIPRate f) (perIPBurst f) now) as [[lip c1] w1].
  destruct (allowAt w1 lip now) as [okip w3]. by intros [= <- <- <-].
Qed.

(** An event of a remembered key is allowed until the expiry, no limiter
    is asked and the key stays remembered. *)
Lemma remembers_bypass f2 (w2 : World L) pk expiry ev' meta' now' :
  remembers f2 pk expiry -> PubKey ev' = pk -> now' <= expiry ->
  exists f3, Match f2 w2 ev' meta' now' = Ok (allowed, f3, w2) /\
             remembers f3 pk expiry.
Proof.
  intros (seen & Hseen & Hfind) Hpk Hle. unfold Match.
  destruct (newKeyLimiter f2); [|exists f2; split; [done|by exists seen]].
  destruct (String.eqb (PubKey ev') ""); [exists f2; split; [done|by exists seen]|].
  rewrite Hseen, Hpk. unfold LRU.Get. rewrite Hfind. cbn [LRU.expiresAt LRU.evalue].
  assert ((expiry <? now') = false) as -> by (apply Z.ltb_ge; lia).
  eexists. split; [reflexivity|].
  eexists. split; [reflexivity|]. cbn [LRU.items LRU.with_items LRU.find LRU.ekey].
  by rewrite String.eqb_refl.
Qed.

(** An event of another key leaves a remembered key remembered, unless
    it is allowed as a new key and added to a cache that is full. *)
Lemma remembers_other f2 (w2 : World L) pk expiry ev' meta' now' v f3 w3 :
  remembers f2 pk expiry -> PubKey ev' <> pk ->
  Match f2 w2 ev' meta' now' = Ok (v, f3, w3) ->
  remembers f3 pk expiry \/
  (v = allowed /\
   exists seen2, recentSeen f2 = Some seen2 /\
     LRU.find (PubKey ev') (LRU.items seen2) = None /\
     0 < LRU.size seen2 <= Z.of_nat (length (LRU.items seen2))).
Proof.
  intros (seen & Hseen & Hfind) Hne. unfold Match.
  destruct (newKeyLimiter f2) as [g|];
    [|intros [= <- <- <-]; left; by exists seen].
  destruct (String.eqb (PubKey ev') "");
    [intros [= <- <- <-]; left; by exists seen|].
  rewrite Hseen.
  pose proof (LRUFacts.find_Get seen (PubKey ev') now' pk) as HG.
  pose proof (LRU.Get_miss_same seen (PubKey ev') now') as Hmiss.
  destruct (LRU.Get seen (PubKey ev') now') as [[[]|] seen1]; cbn [fst snd] in HG, Hmiss.
  { intros [= <- <- <-]. left. exists seen1. split; [done|]. by rewrite HG. }
  specialize (Hmiss eq_refl). subst seen1.
  destruct (perIPCheck (withSeen f2 seen) w2 meta' now') as [[[ok f4] w4]|] eqn:P; [|done].
  apply perIPCheck_seen in P as [_ Hs4]. cbn [withSeen recentSeen] in Hs4.
  destruct ok; [|intros [= <- <- <-]; left; by exists seen].
  destruct (allowAt w4 g now') as [[|] w5];
    [|intros [= <- <- <-]; left; by exists seen].
  intros [= <- <- <-].
  destruct (LRUFacts.find_Add_other seen (PubKey ev') tt now' pk) as [E|E]; [congruence| |].
  - left. eexists. split; [reflexivity|]. by rewrite E.
  - right. split; [done|]. by exists seen.
Qed.

(** X11.  Once the event of a new public key has been allowed, the key is
    remembered for the time to live of the cache of seen keys.  From any
    later state of the filter that still remembers it, the events of the
    key are allowed until then, no limiter is asked for them and the key
    stays remembered.  An event of another key leaves it remembered,
    unless that event is allowed as a new key and added to a cache that
    is full. *)
Theorem seen_key_bypass f (w : World L) ev meta now f' w' g seen :
  newKeyLimiter f = Some g -> PubKey ev <> ""%string ->
  recentSeen f = Some seen ->
  recentlySeen f (PubKey ev) now = false ->
  Match f w ev meta now = Ok (allowed, f', w') ->
  let expiry := now + LRU.ttl seen in
  remembers f' (PubKey ev) expiry /\
  forall f2, remembers f2 (PubKey ev) expiry ->
    (forall (w2 : World L) ev' meta' now',
       PubKey ev' = PubKey ev -> now' <= expiry ->
       exists f3, Match f2 w2 ev' meta' now' = Ok (allowed, f3, w2) /\
                  remembers f3 (PubKey ev) expiry) /\
    (forall (w2 : World L) ev' meta' now' v f3 w3,
       PubKey ev' <> PubKey ev ->
       Match f2 w2 ev' meta' now' = Ok (v, f3, w3) ->
       remembers f3 (PubKey ev) expiry \/
       (v = allowed /\
        exists seen2, recentSeen f2 = Some seen2 /\
          LRU.find (PubKey ev') (LRU.items seen2) = None /\
          0 < LRU.size seen2 <= Z.of_nat (length (LRU.items seen2)))).
Proof.
  intros Hg Hpk Hseen Hnew HM expiry. split.
  - unfold Match in HM. rewrite Hg, Hseen in HM.
    assert (String.eqb (PubKey ev) "" = false) as E by (by apply String.eqb_neq).
    rewrite E in HM. unfold recentlySeen in Hnew. rewrite Hseen in Hnew.
    pose proof (LRUFacts.ttl_Get seen (PubKey ev) now) as Httl.
    destruct (LRU.Get seen (PubKey ev) now) as [[[]|] seen1]; cbn [fst snd] in Hnew, Httl.
    { by rewrite bool_decide_eq_true_2 in Hnew by (by eexists). }
    destruct (perIPCheck (withSeen f seen1) w meta now) as [[[ok f2] w3]|]; [|done].
    destruct ok; [|done].
    destruct (allowAt w3 g now) as [[|] w4]; [|done].
    injection HM as <- <-.
    eexists. split; [reflexivity|].
    rewrite LRUFacts.find_Add_same. unfold expiry. by rewrite Httl.
  - intros f2 Hrem. split.
    + intros w2 ev' meta' now' Hsame Hle. by apply remembers_bypass.
    + intros w2 ev' meta' now' v f3 w3 Hne. by apply remembers_other.
Qed.

End WithLimiter.

Lemma seen_key_bypass_witness :
  exists v fb wb f3,
    Match (fst afterAlice) (snd afterAlice) bob (metaFrom "198.51.100.9") 2000
      = Ok (v, fb, wb) /\
    remembers fb "alice" (1000 + Hour) /\
    Match fb wb alice (metaFrom "198.51.100.1") (1000 + Minute) = Ok (allowed, f3, wb).
Proof.
  destruct (seen_key_bypass (fst initial) (snd initial) alice (metaFrom "203.0.113.77") 1000
              (fst afterAlice) (snd afterAlice) 0%nat (LRU.NewLRU unit 1000 Hour))
    as (Hrem & Hlater).
  - reflexivity.
  - discriminate.
  - reflexivity.
  - vm_compute. reflexivity.
  - vm_compute. reflexivity.
  - destruct (Match (fst afterAlice) (snd afterAlice) bob (metaFrom "198.51.100.9") 2000)
      as [[[v fb] wb]|] eqn:Eb; [|vm_compute in Eb; discriminate].
    assert (remembers fb "alice" (1000 + Hour)) as Hb.
    { destruct (proj2 (Hlater _ Hrem) (snd afterAlice) bob (metaFrom "198.51.100.9") 2000
                  v fb wb ltac:(vm_compute; discriminate) Eb)
        as [Hb|(_ & seen2 & Hs & _ & Hfull)]; [exact Hb|].
      exfalso. vm_compute in Hs. injection Hs as <-. vm_compute in Hfull.
      by apply Hfull. }
    destruct (proj1 (Hlater _ Hb) wb alice (metaFrom "198.51.100.1") (1000 + Minute) eq_refl)
      as (f3 & H3 & _); [vm_compute; discriminate|].
    exists v, fb, wb, f3. split; [reflexivity|]. split; [exact Hb|exact H3].
Defined.

(** With room for one seen key only, [alice] is forgotten when [bob] is
    allowed as a new key, within the time to live. *)
Example example_seen_key_evicted :
  let start := NewEmergencyFilter
                 (Some (mkConfig true 1 5 1 Hour (mkPerIP false 0 0 0 0 0 0)))
                 (mkWorld (L := TokenBucket) [] []) in
  match Match (fst start) (snd start) alice (metaFrom "203.0.113.77") 1000 with
  | Ok (v1, f1, w1) =>
      match Match f1 w1 bob (metaFrom "198.51.100.9") 2000 with
      | Ok (v2, f2, w2) =>
          v1 = allowed /\ v2 = allowed /\
          recentlySeen f1 "alice" 2000 = true /\
          recentlySeen f2 "alice" 3000 = false
      | Panic => False
      end
  | Panic => False
  end.
Proof. by vm_compute. Qed.

(** *** IPv4 addresses are grouped by network *)

Import NetIP.

Lemma noChar_app c a b : noChar c (a +:+ b) = noChar c a && noChar c b.
Proof.
  induction a as [|x a IH]; rewrite ?append_cons, ?append_nil_l; cbn [noChar]; [done|].
  by rewrite IH, andb_assoc.
Qed.

Lemma string4_noSlash a b c d :
  0 <= a -> 0 <= b -> 0 <= c -> 0 <= d ->
  noChar "/" (string4 [a; b; c; d]) = true.
Proof.
  intros. unfold string4. cbn [lookup_total list_lookup_total].
  rewrite !noChar_app, !pretty_nonneg_noChar by done. reflexivity.
Qed.

Lemma string4_inj a b c d a' b' c' d' :
  0 <= a -> 0 <= b -> 0 <= c -> 0 <= d ->
  0 <= a' -> 0 <= b' -> 0 <= c' -> 0 <= d' ->
  string4 [a; b; c; d] = string4 [a'; b'; c'; d'] ->
  [a; b; c; d] = [a'; b'; c'; d'].
Proof.
  intros ? ? ? ? ? ? ? ?. unfold string4. cbn [lookup_total list_lookup_total].
  intros Heq.
  apply (sep_split ".") in Heq as [Ha Heq]; [|by apply pretty_nonneg_noChar..].
  apply (sep_split ".") in Heq as [Hb Heq]; [|by apply pretty_nonneg_noChar..].
  apply (sep_split ".") in Heq as [Hc Hd]; [|by apply pretty_nonneg_noChar..].
  apply pretty_Z_inj in Ha, Hb, Hc, Hd. by subst.
Qed.

Lemma octet_high_bit x n : isOctet x -> 8 <= n -> Z.testbit x n = false.
Proof.
  intros Hx Hn. rewrite <- (Z.mod_small x (2 ^ 8)) by exact Hx.
  apply Z.mod_pow2_bits_high. lia.
Qed.

Lemma To4_octets ip : Forall isOctet ip -> Forall isOctet (To4 ip).
Proof.
  intros Hip. unfold To4. destruct (length ip =? 4)%nat; [done|].
  match goal with |- context [if ?c then _ else _] => destruct c end;
    [by apply Forall_drop|constructor].
Qed.

(** What [To4] gives for a text that is an IPv4 address. *)
Lemma To4_ParseIP s :
  To4 (ParseIP s) <> [] ->
  length (To4 (ParseIP s)) = 4%nat /\ Forall isOctet (To4 (ParseIP s)).
Proof.
  intros Hne. destruct (ParseIP_inv s) as [Hnil | [Hlen Hoct]].
  - by rewrite Hnil in Hne.
  - split; [|by apply To4_octets].
    by destruct (To4_length _ Hlen).
Qed.

Lemma land_nonneg_octet x m : isOctet x -> 0 <= Z.land x m.
Proof. intros [Hx _]. apply Z.land_nonneg. by left. Qed.

(** The key of an IPv4 address under a prefix length. *)
Lemma normalize_v4 s p q :
  To4 (ParseIP s) <> [] -> 0 < p <= 32 ->
  normalizeIPWithOptionalPrefixes s p q =
    string4 (andOctets (To4 (ParseIP s)) (CIDRMask p 32)) +:+ "/" +:+ pretty p.
Proof.
  intros Hne Hp. destruct (To4_ParseIP s Hne) as [Hlen _].
  unfold normalizeIPWithOptionalPrefixes.
  assert (ParseIP s <> []) as Hip by (intros E; by rewrite E in Hne).
  rewrite (isNil_false _ Hip), (isNil_false _ Hne). cbn [negb].
  assert ((0 <? p) = true) as -> by (apply Z.ltb_lt; lia).
  rewrite IPNet_String_v4 by (done || lia).
  pose proof (CIDRMask_length 32 p (or_introl eq_refl) ltac:(lia)) as Hm.
  change (Z.to_nat (32 / 8)) with 4%nat in Hm.
  assert (length (andOctets (To4 (ParseIP s)) (CIDRMask p 32)) = 4%nat) as Hl
    by (rewrite length_andOctets, Hlen, Hm; done).
  destruct (length_4 _ Hl) as (x0 & x1 & x2 & x3 & ->). reflexivity.
Qed.

(** X12.  Under an IPv4 prefix length of [p] bits, two IPv4 addresses get the
    same key exactly when their first [p] bits agree: the addresses of one
    network share a limiter, and no two networks do.  Bit [k] from the
    left of octet [j] is bit [8j+k] of the address. *)
Theorem ipv4_key_iff_network a b p q :
  To4 (ParseIP a) <> [] -> To4 (ParseIP b) <> [] -> 0 < p <= 32 ->
  normalizeIPWithOptionalPrefixes a p q = normalizeIPWithOptionalPrefixes b p q <->
  forall j k : nat, (j < 4)%nat -> (k < 8)%nat -> 8 * Z.of_nat j + Z.of_nat k < p ->
    Z.testbit (To4 (ParseIP a) !!! j) (7 - Z.of_nat k) =
    Z.testbit (To4 (ParseIP b) !!! j) (7 - Z.of_nat k).
Proof.
  intros Ha Hb Hp.
  rewrite !normalize_v4 by done.
  destruct (To4_ParseIP a Ha) as [HlA HoA]. destruct (To4_ParseIP b Hb) as [HlB HoB].
  set (A := To4 (ParseIP a)) in *. set (B := To4 (ParseIP b)) in *.
  pose proof (CIDRMask_length 32 p (or_introl eq_refl) ltac:(lia)) as Hm.
  change (Z.to_nat (32 / 8)) with 4%nat in Hm.
  assert (forall X (j : nat), length X = 4%nat -> Forall isOctet X -> (j < 4)%nat ->
            isOctet (X !!! j)) as Hoct.
  { intros X j HX HF Hj. rewrite Forall_forall in HF. apply HF.
    apply list_elem_of_lookup_total_2. lia. }
  assert (forall X, length X = 4%nat -> Forall isOctet X ->
            forall j k : nat, (j < 4)%nat -> (k < 8)%nat ->
              Z.testbit (andOctets X (CIDRMask p 32) !!! j) (7 - Z.of_nat k) =
              Z.testbit (X !!! j) (7 - Z.of_nat k) && (8 * Z.of_nat j + Z.of_nat k <? p))
    as Hbit.
  { intros X HX _ j k Hj Hk.
    apply (masked_bit 32 p X j k); [by left|lia|done|lia|done]. }
  split.
  - intros Heq. 
    assert (andOctets A (CIDRMask p 32) = andOctets B (CIDRMask p 32)) as Hmask.
    { assert (length (andOctets A (CIDRMask p 32)) = 4%nat) as H1
        by (rewrite length_andOctets, HlA, Hm; done).
      assert (length (andOctets B (CIDRMask p 32)) = 4%nat) as H2
        by (rewrite length_andOctets, HlB, Hm; done).
      assert (forall j : nat, (j < 4)%nat -> 0 <= andOctets A (CIDRMask p 32) !!! j) as N1.
      { intros j Hj. rewrite andOctets_lookup by lia.
        apply land_nonneg_octet. by apply Hoct. }
      assert (forall j : nat, (j < 4)%nat -> 0 <= andOctets B (CIDRMask p 32) !!! j) as N2.
      { intros j Hj. rewrite andOctets_lookup by lia.
        apply land_nonneg_octet. by apply Hoct. }
      destruct (length_4 _ H1) as (x0 & x1 & x2 & x3 & E1).
      destruct (length_4 _ H2) as (y0 & y1 & y2 & y3 & E2).
      rewrite E1, E2 in *.
      pose proof (N1 0%nat ltac:(lia)). pose proof (N1 1%nat ltac:(lia)).
      pose proof (N1 2%nat ltac:(lia)). pose proof (N1 3%nat ltac:(lia)).
      pose proof (N2 0%nat ltac:(lia)). pose proof (N2 1%nat ltac:(lia)).
      pose proof (N2 2%nat ltac:(lia)). pose proof (N2 3%nat ltac:(lia)).
      cbn [lookup_total list_lookup_total] in *.
      apply (sep_split "/") in Heq as [Heq _]; [|by apply string4_noSlash..].
      by apply string4_inj. }
    intros j k Hj Hk Hlt.
    pose proof (Hbit A HlA HoA j k Hj Hk) as HA.
    pose proof (Hbit B HlB HoB j k Hj Hk) as HB.
    rewrite Hmask in HA. rewrite HA in HB.
    assert ((8 * Z.of_nat j + Z.of_nat k <? p) = true) as E by (apply Z.ltb_lt; lia).
    rewrite E, !andb_true_r in HB. done.
  - intros Hbits. f_equal. f_equal.
    apply list_eq_same_length with 4%nat;
      [by rewrite length_andOctets, ?HlA, ?HlB, Hm..|].
    intros j x y Hj Hx Hy.
    apply list_lookup_total_correct in Hx, Hy. subst x y.
    apply Z.bits_inj'. intros n Hn.
    destruct (Z_lt_le_dec n 8) as [Hn8|Hn8].
    + replace n with (7 - Z.of_nat (Z.to_nat (7 - n))) by lia.
      rewrite (Hbit A HlA HoA), (Hbit B HlB HoB) by lia.
      destruct (8 * Z.of_nat j + Z.of_nat (Z.to_nat (7 - n)) <? p) eqn:E;
        [|by rewrite !andb_false_r].
      rewrite !andb_true_r. apply Hbits; [done|lia|]. by apply Z.ltb_lt.
    + rewrite !andOctets_lookup by lia. rewrite !Z.land_spec.
      rewrite (octet_high_bit (A !!! j)), (octet_high_bit (B !!! j)); auto.
Qed.

Lemma ipv4_key_iff_network_witness :
  normalizeIPWithOptionalPrefixes "203.0.113.77" 24 64 =
  normalizeIPWithOptionalPrefixes "203.0.113.200" 24 64.
Proof.
  apply (ipv4_key_iff_network "203.0.113.77" "203.0.113.200" 24 64);
    [vm_compute; discriminate|vm_compute; discriminate|lia|].
  intros j k Hj Hk Hlt.
  assert (j = 0 \/ j = 1 \/ j = 2)%nat as [->|[->| ->]] by lia; reflexivity.
Defined.

End EmergencyFacts.

(** ** EphemeralChatFilter: repetition, long words, the cooldown *)
Module ChatFacts.
Import Chat.

(** *** Runs of runes *)

(** From index [i] on, [n] elements of [l] in a row satisfy [P]. *)
Definition runAt {A} (P : A -> Prop) (n : nat) (l : list A) (i : nat) : Prop :=
  forall j, (j < n)%nat -> exists x, l !! (i + j)%nat = Some x /\ P x.

Definition hasRun {A} (P : A -> Prop) (n : nat) (l : list A) : Prop :=
  exists i, runAt P n l i.

(** The content holds [n] times the same rune in a row. *)
Definition hasRepetition (n : nat) (l : list Z) : Prop :=
  exists r, hasRun (fun x => x = r) n l.

(** The content holds [n] runes in a row that are not spaces. *)
Definition hasWordOf (n : nat) (l : list Z) : Prop :=
  hasRun (fun x => isNonSpace x = true) n l.

Lemma runAt_short {A} (P : A -> Prop) n l i :
  (0 < n)%nat -> runAt P n l i -> (i + n <= length l)%nat.
Proof.
  intros Hn Hr. destruct (Hr (n - 1)%nat ltac:(lia)) as (x & Hx & _).
  apply lookup_lt_Some in Hx. lia.
Qed.

Lemma runAt_shift {A} (P : A -> Prop) n pre l i :
  runAt P n l i <-> runAt P n (pre ++ l) (length pre + i).
Proof.
  unfold runAt. split; intros Hr j Hj; destruct (Hr j Hj) as (x & Hx & HP);
    exists x; (split; [|done]).
  - rewrite lookup_app_r by lia. rewrite <- Hx. f_equal. lia.
  - rewrite lookup_app_r in Hx by lia. rewrite <- Hx. f_equal. lia.
Qed.

(** A run cannot cross an element that does not satisfy [P]. *)
Lemma hasRun_skip {A} (P : A -> Prop) n pre x l :
  ~ P x -> (length pre < n)%nat ->
  hasRun P n (pre ++ x :: l) <-> hasRun P n l.
Proof.
  intros Hx Hpre. split; intros [i Hr].
  - destruct (decide (i <= length pre)%nat) as [Hi|Hi].
    + destruct (Hr (length pre - i)%nat ltac:(lia)) as (y & Hy & HP).
      replace (i + (length pre - i))%nat with (length pre + 0)%nat in Hy by lia.
      rewrite lookup_app_r in Hy by lia.
      replace (length pre + 0 - length pre)%nat with 0%nat in Hy by lia.
      simpl in Hy. by simplify_eq.
    + exists (i - length pre - 1)%nat.
      apply (runAt_shift P n (pre ++ [x])). rewrite <- app_assoc. simpl.
      rewrite length_app. simpl.
      by replace (length pre + 1 + (i - length pre - 1))%nat with i by lia.
  - exists (length (pre ++ [x]) + i)%nat.
    apply (runAt_shift P n (pre ++ [x])) in Hr. by rewrite <- app_assoc in Hr.
Qed.

(** *** The repetition check *)

Lemma repeatLoop_spec limit prev count l :
  2 <= limit -> 1 <= count < limit ->
  (repeatLoop limit prev count l = Some limit /\
   hasRepetition (Z.to_nat limit) (replicate (Z.to_nat count) prev ++ l)) \/
  (repeatLoop limit prev count l = None /\
   ~ hasRepetition (Z.to_nat limit) (replicate (Z.to_nat count) prev ++ l)).
Proof.
  intros Hlimit. revert prev count.
  induction l as [|r l IH]; intros prev count Hcount.
  - right. split; [done|]. rewrite app_nil_r. intros (x & i & Hr).
    apply runAt_short in Hr; [|lia]. rewrite length_replicate in Hr. lia.
  - cbn [repeatLoop]. destruct (r =? prev) eqn:E.
    + apply Z.eqb_eq in E. subst r.
      assert (replicate (Z.to_nat count) prev ++ prev :: l =
              replicate (Z.to_nat (count + 1)) prev ++ l) as Hl.
      { replace (Z.to_nat (count + 1)) with (S (Z.to_nat count)) by lia.
        rewrite replicate_S_end, <- app_assoc. done. }
      rewrite Hl.
      destruct (limit <=? count + 1) eqn:E2.
      * apply Z.leb_le in E2. assert (count + 1 = limit) as -> by lia.
        left. split; [done|]. exists prev, 0%nat. intros j Hj. exists prev.
        split; [|done]. rewrite lookup_app_l by (rewrite length_replicate; lia).
        apply lookup_replicate_2. lia.
      * apply Z.leb_gt in E2. apply IH. lia.
    + apply Z.eqb_neq in E.
      assert ((limit <=? 1) = false) as -> by (apply Z.leb_gt; lia).
      assert (hasRepetition (Z.to_nat limit) (replicate (Z.to_nat count) prev ++ r :: l) <->
              hasRepetition (Z.to_nat limit) (replicate (Z.to_nat 1) r ++ l)) as Hiff.
      { change (replicate (Z.to_nat 1) r ++ l) with (r :: l).
        split; intros (x & i & Hr).
        - exists x. destruct (decide (i < Z.to_nat count)%nat) as [Hi|Hi].
          + exfalso.
            destruct (Hr 0%nat ltac:(lia)) as (y & Hy & ->).
            destruct (Hr (Z.to_nat count - i)%nat ltac:(lia)) as (z & Hz & ->).
            rewrite Nat.add_0_r in Hy.
            rewrite lookup_app_l in Hy by (rewrite length_replicate; lia).
            apply lookup_replicate_1 in Hy as [-> _].
            replace (i + (Z.to_nat count - i))%nat with (Z.to_nat count) in Hz by lia.
            rewrite lookup_app_r in Hz by (rewrite length_replicate; lia).
            rewrite length_replicate, Nat.sub_diag in Hz. simpl in Hz.
            by simplify_eq.
          + exists (i - Z.to_nat count)%nat.
            apply (runAt_shift _ _ (replicate (Z.to_nat count) prev)).
            rewrite length_replicate.
            by replace (Z.to_nat count + (i - Z.to_nat count))%nat with i by lia.
        - exists x, (length (replicate (Z.to_nat count) prev) + i)%nat.
          by apply runAt_shift. }
      destruct (IH r 1 ltac:(lia)) as [[-> Hrun]|[-> Hrun]];
        [left|right]; (split; [done|]); by rewrite Hiff.
Qed.

(** X13.  With a limit of two or more, the repetition check rejects a content
    exactly when some rune occurs [MaxRepeatChars] times in a row, and the
    count it reports is the limit. *)
Theorem repeatCheck_iff c content :
  2 <= MaxRepeatChars c ->
  let n := MaxRepeatChars c in
  (repeatCheck c content = Some (ErrRepetition n n) /\
   hasRepetition (Z.to_nat n) (runes content)) \/
  (repeatCheck c content = None /\
   ~ hasRepetition (Z.to_nat n) (runes content)).
Proof.
  intros Hn n. unfold repeatCheck. fold n.
  assert ((0 <? n) = true) as -> by (apply Z.ltb_lt; lia).
  destruct (n <=? Z.of_nat (length (runes content))) eqn:E.
  - apply Z.leb_le in E. destruct (runes content) as [|r0 rest]; [simpl in E; lia|].
    destruct (repeatLoop_spec n r0 1 rest Hn ltac:(lia)) as [[-> Hrun]|[-> Hrun]];
      change (replicate (Z.to_nat 1) r0 ++ rest) with (r0 :: rest) in Hrun;
      [left|right]; done.
  - apply Z.leb_gt in E. right. split; [done|]. intros (x & i & Hr).
    apply runAt_short in Hr; lia.
Qed.

(** X14.  With a limit of one the check passes a content of at most one rune
    and rejects every other content. *)
Theorem repeatCheck_limit_one c content :
  MaxRepeatChars c = 1 ->
  (repeatCheck c content = None <-> (length (runes content) <= 1)%nat).
Proof.
  intros Hn. unfold repeatCheck. rewrite Hn. change (0 <? 1) with true. cbn iota.
  destruct (runes content) as [|r0 [|r1 rest]].
  - simpl. split; [lia|done].
  - simpl. split; [lia|done].
  - assert ((1 <=? Z.of_nat (length (r0 :: r1 :: rest))) = true) as ->
      by (apply Z.leb_le; simpl; lia).
    cbn [repeatLoop length].
    assert ((1 <=? (if r1 =? r0 then 1 + 1 else 1)) = true) as ->
      by (apply Z.leb_le; destruct (r1 =? r0); lia).
    split; [done|lia].
Qed.

(** *** The check of the length of words *)

Lemma runAt_fmap n (l : list Z) i :
  runAt (fun x => isNonSpace x = true) n l i <->
  runAt (fun b => b = true) n (isNonSpace <$> l) i.
Proof.
  unfold runAt. split; intros Hr j Hj; destruct (Hr j Hj) as (x & Hx & HP).
  - exists true. split; [|done]. by rewrite list_lookup_fmap, Hx, <- HP.
  - rewrite list_lookup_fmap in Hx.
    destruct (l !! (i + j)%nat) as [y|]; [|done]. simpl in Hx.
    exists y. split; [done|]. congruence.
Qed.

Lemma hasWordOf_fmap n (l l' : list Z) :
  isNonSpace <$> l = isNonSpace <$> l' -> hasWordOf n l <-> hasWordOf n l'.
Proof.
  intros Heq. unfold hasWordOf, hasRun.
  split; intros [i Hr]; exists i; apply runAt_fmap; apply runAt_fmap in Hr;
    [by rewrite <- Heq|by rewrite Heq].
Qed.

Lemma hasLongWord_spec n run l :
  0 < n -> 0 <= run ->
  hasLongWord n run l = true <->
  hasWordOf (Z.to_nat n) (replicate (Z.to_nat run) 0 ++ l).
Proof.
  intros Hn. revert run. induction l as [|r l IH]; intros run Hrun; cbn [hasLongWord].
  - rewrite orb_false_r, app_nil_r. split.
    + intros E%Z.leb_le. exists 0%nat. intros j Hj. exists 0.
      split; [apply lookup_replicate_2; lia|done].
    + intros [i Hr]. apply runAt_short in Hr; [|lia].
      rewrite length_replicate in Hr. apply Z.leb_le. lia.
  - destruct (n <=? run) eqn:E.
    + apply Z.leb_le in E. cbn [orb]. split; [intros _|done].
      exists 0%nat. intros j Hj. exists 0. split; [|done].
      rewrite lookup_app_l by (rewrite length_replicate; lia).
      apply lookup_replicate_2. lia.
    + apply Z.leb_gt in E. cbn [orb]. destruct (isNonSpace r) eqn:Hr.
      * rewrite IH by lia. apply hasWordOf_fmap.
        replace (Z.to_nat (run + 1)) with (S (Z.to_nat run)) by lia.
        rewrite replicate_S_end, <- app_assoc, !fmap_app.
        simpl. by rewrite Hr.
      * rewrite IH by lia. change (replicate (Z.to_nat 0) 0 ++ l) with l.
        symmetry. apply hasRun_skip; [by rewrite Hr|].
        rewrite length_replicate. lia.
Qed.

(** X15.  For a filter made by the constructor with a positive [MaxWordLength],
    the check rejects a content exactly when it holds [MaxWordLength]
    runes in a row none of which is a space, a tab, a line feed, a form
    feed or a carriage return. *)
Theorem wordCheck_iff c f content :
  NewEphemeralChatFilter c = Some f -> Enabled c = true -> 0 < MaxWordLength c ->
  (wordCheck f content = Some (ErrWordTooLong (MaxWordLength c)) /\
   hasWordOf (Z.to_nat (MaxWordLength c)) (runes content)) \/
  (wordCheck f content = None /\
   ~ hasWordOf (Z.to_nat (MaxWordLength c)) (runes content)).
Proof.
  intros Hnew He Hn. unfold NewEphemeralChatFilter in Hnew. rewrite He in Hnew.
  cbn [negb] in Hnew.
  assert ((0 <? MaxWordLength c) = true) as E by (apply Z.ltb_lt; lia).
  rewrite E in Hnew. cbn [andb] in Hnew.
  destruct (1000 <? MaxWordLength c); [done|]. injection Hnew as <-.
  unfold wordCheck. cbn [wordRegex cfg].
  pose proof (hasLongWord_spec (MaxWordLength c) 0 (runes content) Hn ltac:(lia)) as Hs.
  change (replicate (Z.to_nat 0) 0 ++ runes content) with (runes content) in Hs.
  destruct (hasLongWord (MaxWordLength c) 0 (runes content)).
  - left. split; [done|]. by apply Hs.
  - right. split; [done|]. intros Hw. apply Hs in Hw. done.
Qed.

(** *** The cooldown and nil pointers *)


Lemma delayCheck_cfg f pk now :
  cfg (snd (delayCheck f pk now)) = cfg f /\
  limiters (snd (delayCheck f pk now)) = limiters f.
Proof.
  unfold delayCheck. destruct (lastSeen f); [|done].
  destruct (0 <? MinDelay (cfg f)); [|done].
  destruct (LRU.Get t pk now) as [[last|] seen1]; [|done].
  by destruct (now - last <? MinDelay (cfg f)).
Qed.

Section WithTables.
Variable IsLetter : Z -> bool.
Variable IsUpper : Z -> bool.
Variable IsPoWValid : Event -> Z -> bool.
Context {L : Type} `{RateLimiter L}.



(** X17.  [Match] touches a limiter only for an event that has gone past
    the delay check and the four checks of the content.  A call for a
    disabled filter or a kind that is not listed, and a call rejected by
    the delay check or by a check of the content, leave every limiter and
    the log of limiter calls as they were.  Every other call looks up the
    limiter of the public key in the cache, or makes it from the
    configured rate and burst and adds it, asks that limiter once, and
    allows the event when the limiter allows or the event carries a
    valid proof of work; otherwise it rejects. *)
Theorem Match_limiter_last f (w : World L) ev meta now :
  if negb (Enabled (cfg f)) || negb (bool_decide (Kind ev ∈ Kinds (cfg f)))
  then Chat.Match IsLetter IsUpper IsPoWValid f w ev meta now = Ok (allowed, f, w)
  else
    match
      match fst (delayCheck f (PubKey ev) now) with
      | Some e => Some e
      | None => contentChecks IsLetter IsUpper (snd (delayCheck f (PubKey ev) now))
                              (Content ev)
      end
    with
    | Some e =>
        Chat.Match IsLetter IsUpper IsPoWValid f w ev meta now
          = Ok (rejected e, snd (delayCheck f (PubKey ev) now), w)
    | None =>
        match limiters f with
        | None => Chat.Match IsLetter IsUpper IsPoWValid f w ev meta now = Panic
        | Some c =>
            exists (l : loc) (c' : LRU.t loc) (w1 : World L) (ok : bool) (w' : World L),
              lookedUpOrCreated c w (PubKey ev) (RateLimitRate (cfg f))
                                (RateLimitBurst (cfg f)) now l c' w1 /\
              asked w1 l now ok w' /\
              Chat.Match IsLetter IsUpper IsPoWValid f w ev meta now
                = Ok (if ok || IsPoWValid ev (RequiredPoWOnLimit (cfg f))
                      then allowed
                      else rejected (ErrRateLimit (RequiredPoWOnLimit (cfg f))),
                      withLimiters (snd (delayCheck f (PubKey ev) now)) c', w')
        end
    end.
Proof.
  unfold Chat.Match.
  destruct (negb (Enabled (cfg f)) || negb (bool_decide (Kind ev ∈ Kinds (cfg f))));
    [done|].
  pose proof (delayCheck_cfg f (PubKey ev) now) as [Hcfg Hlim].
  destruct (delayCheck f (PubKey ev) now) as [[e|] f1]; cbn [fst snd] in *; [done|].
  destruct (contentChecks IsLetter IsUpper f1 (Content ev)); [done|].
  unfold getLimiter. rewrite Hlim, Hcfg.
  destruct (limiters f) as [c|]; [|done].
  pose proof (getOrCreate_exact c w (PubKey ev) (RateLimitRate (cfg f))
                (RateLimitBurst (cfg f)) now) as G.
  destruct (getOrCreate c w (PubKey ev) _ _ now) as [[l c'] w1]. cbn [fst snd] in G.
  pose proof (allowAt_exact w1 l now) as A.
  destruct (allowAt w1 l now) as [ok w2]. cbn [fst snd] in A.
  exists l, c', w1, ok, w2. split; [done|]. split; [done|].
  destruct ok; [done|]. cbn [orb]. by destruct (IsPoWValid ev _).
Qed.

(** A sequence of calls, each with its metadata and clock reading: the
    verdicts, or a panic. *)
Fixpoint MatchAll (f : EphemeralChatFilter) (w : World L)
    (calls : list (Event * gmap string Any * Time))
    : Result (list (Verdict ChatError)) :=
  match calls with
  | [] => Ok []
  | (ev, meta, now) :: rest =>
      match Chat.Match IsLetter IsUpper IsPoWValid f w ev meta now with
      | Panic => Panic
      | Ok (v, f', w') =>
          match MatchAll f' w' rest with
          | Panic => Panic
          | Ok vs => Ok (v :: vs)
          end
      end
  end.

(** An enabled filter has its cache of limiters. *)
Definition ready (f : EphemeralChatFilter) : Prop :=
  Enabled (cfg f) = true -> is_Some (limiters f).

Lemma NewEphemeralChatFilter_ready c f :
  NewEphemeralChatFilter c = Some f -> ready f.
Proof.
  unfold NewEphemeralChatFilter, ready.
  destruct (Enabled c) eqn:He; cbn [negb].
  - destruct ((0 <? MaxWordLength c) && (1000 <? MaxWordLength c)); [done|].
    intros [= <-] _. by eexists.
  - intros [= <-]. cbn [cfg]. by rewrite He.
Qed.

Lemma Match_ready f (w : World L) ev meta now :
  ready f ->
  exists v f' w', Chat.Match IsLetter IsUpper IsPoWValid f w ev meta now = Ok (v, f', w') /\ ready f'.
Proof.
  intros Hr. unfold Chat.Match.
  destruct (Enabled (cfg f)) eqn:He; cbn [negb orb]; [|by eexists _, _, _].
  destruct (negb (bool_decide (Kind ev ∈ Kinds (cfg f)))); [by eexists _, _, _|].
  pose proof (delayCheck_cfg f (PubKey ev) now) as [Hcfg Hlim].
  assert (ready (snd (delayCheck f (PubKey ev) now))) as Hr1
    by (unfold ready; rewrite Hcfg, Hlim; exact Hr).
  destruct (delayCheck f (PubKey ev) now) as [[e|] f1]; simpl in *;
    [by eexists _, _, _|].
  destruct (contentChecks IsLetter IsUpper f1 (Content ev)); [by eexists _, _, _|].
  unfold getLimiter. destruct (Hr He) as [c Hc]. rewrite Hlim, Hc.
  destruct (getOrCreate c w (PubKey ev) _ _ now) as [[l c'] w1].
  assert (ready (withLimiters f1 c')) as Hr2 by (intros _; by eexists).
  destruct (allowAt w1 l now) as [[|] w2]; [by eexists _, _, _|].
  destruct (IsPoWValid ev _); by eexists _, _, _.
Qed.

(** X18.  A filter the constructor returns never dereferences a nil pointer:
    every call of any sequence of calls returns a verdict. *)
Theorem Chat_never_panics c f (w : World L) calls :
  NewEphemeralChatFilter c = Some f ->
  exists vs, MatchAll f w calls = Ok vs /\ length vs = length calls.
Proof.
  intros Hnew. apply NewEphemeralChatFilter_ready in Hnew. revert f w Hnew.
  induction calls as [|[[ev meta] now] rest IH]; intros f w Hr.
  - by exists [].
  - cbn [MatchAll].
    destruct (Match_ready f w ev meta now Hr) as (v & f' & w' & -> & Hr').
    destruct (IH f' w' Hr') as (vs & -> & Hlen).
    exists (v :: vs). split; [done|]. simpl. by rewrite Hlen.
Qed.

End WithTables.

(** *** Examples *)

(** A second between messages, at most two equal runes in a row and words
    of fewer than eight runes. *)
Definition strictConfig : EphemeralChatFilterConfig :=
  {| Enabled := true; Kinds := [20000];
     MinDelay := Second; MaxCapsRatio := 0; MinLettersForCapsCheck := 0;
     MaxRepeatChars := 3; MaxWordLength := 8; BlockZalgo := true;
     RateLimitRate := 1; RateLimitBurst := 5; RequiredPoWOnLimit := 16;
     CacheSize := 0 |}.

Definition strictFilter : EphemeralChatFilter :=
  default (mkFilter strictConfig false None None None)
          (NewEphemeralChatFilter strictConfig).

Definition noPoW (ev : Event) (difficulty : Z) : bool := false.

Definition hello : Event := mkEvent 20000 "alice" "hello" [].
Definition again : Event := mkEvent 20000 "alice" "hello again" [].

Lemma repeatCheck_iff_witness :
  repeatCheck strictConfig "heeello" = Some (ErrRepetition 3 3) /\
  repeatCheck strictConfig "heello" = None.
Proof.
  split.
  - destruct (repeatCheck_iff strictConfig "heeello" ltac:(vm_compute; discriminate))
      as [[Hr _]|[Hr _]]; [exact Hr|vm_compute in Hr; discriminate].
  - destruct (repeatCheck_iff strictConfig "heello" ltac:(vm_compute; discriminate))
      as [[Hr _]|[Hr _]]; [vm_compute in Hr; discriminate|exact Hr].
Defined.

Lemma repeatCheck_limit_one_witness :
  repeatCheck (mkConfig true [20000] 0 0 0 1 0 false 1 5 16 0) "a" = None.
Proof.
  apply (repeatCheck_limit_one (mkConfig true [20000] 0 0 0 1 0 false 1 5 16 0) "a");
    [reflexivity|simpl; lia].
Defined.

Lemma wordCheck_iff_witness :
  wordCheck strictFilter "so looooong" = Some (ErrWordTooLong 8) /\
  wordCheck strictFilter "not so long" = None.
Proof.
  split.
  - destruct (wordCheck_iff strictConfig strictFilter "so looooong"
                eq_refl eq_refl ltac:(vm_compute; reflexivity))
      as [[Hr _]|[Hr _]]; [exact Hr|vm_compute in Hr; discriminate].
  - destruct (wordCheck_iff strictConfig strictFilter "not so long"
                eq_refl eq_refl ltac:(vm_compute; reflexivity))
      as [[Hr _]|[Hr _]]; [vm_compute in Hr; discriminate|exact Hr].
Defined.



(** Three times the same letter in a row. *)
Definition heeello : Event := mkEvent 20000 "alice" "heeello" [].

Lemma Match_limiter_last_witness :
  (exists (c c' : LRU.t loc) (w1 w' : World TokenBucket),
     limiters strictFilter = Some c /\
     lookedUpOrCreated c (mkWorld [] []) "alice" 1 5 1000 0%nat c' w1 /\
     asked w1 0%nat 1000 true w' /\
     Chat.Match asciiIsLetter asciiIsUpper noPoW strictFilter (mkWorld [] []) hello ∅ 1000
       = Ok (allowed, withLimiters (snd (delayCheck strictFilter "alice" 1000)) c', w')) /\
  Chat.Match asciiIsLetter asciiIsUpper noPoW strictFilter
             (mkWorld ([] : list TokenBucket) []) heeello ∅ 1000
    = Ok (rejected (ErrRepetition 3 3), snd (delayCheck strictFilter "alice" 1000),
          mkWorld [] []).
Proof.
  split.
  - pose proof (Match_limiter_last asciiIsLetter asciiIsUpper noPoW strictFilter
                  (mkWorld ([] : list TokenBucket) []) hello ∅ 1000) as HM.
    assert (exists (l : loc) (c' : LRU.t loc) (w1 : World TokenBucket) (ok : bool)
                   (w' : World TokenBucket),
              lookedUpOrCreated (LRU.NewLRU loc 10000 (15 * Minute)) (mkWorld [] [])
                                "alice" 1 5 1000 l c' w1 /\
              asked w1 l 1000 ok w' /\
              Chat.Match asciiIsLetter asciiIsUpper noPoW strictFilter (mkWorld [] [])
                         hello ∅ 1000
                = Ok (if ok || noPoW hello 16 then allowed else rejected (ErrRateLimit 16),
                      withLimiters (snd (delayCheck strictFilter "alice" 1000)) c', w'))
      as (l & c' & w1 & ok & w' & HG & HA & HM') by exact HM.
    assert (l = 0%nat /\
            heap w1 = [NewLimiter 1 5] /\
            log w1 = [LimiterCreated "alice" l]) as (-> & Hh & Hl).
    { destruct HG as (? & _ & ? & ?). done. }
    assert (w1 = mkWorld [NewLimiter 1 5] [LimiterCreated "alice" 0%nat])
      as -> by (by apply world_eq).
    assert (ok = true) as -> by (destruct HA as (-> & _); vm_compute; reflexivity).
    exists (LRU.NewLRU loc 10000 (15 * Minute)), c',
      (mkWorld [NewLimiter 1 5] [LimiterCreated "alice" 0%nat]), w'.
    split; [reflexivity|]. split; [exact HG|]. split; [exact HA|exact HM'].
  - exact (Match_limiter_last asciiIsLetter asciiIsUpper noPoW strictFilter
             (mkWorld ([] : list TokenBucket) []) heeello ∅ 1000).
Defined.

Lemma Chat_never_panics_witness :
  exists vs,
    MatchAll asciiIsLetter asciiIsUpper noPoW strictFilter
             (mkWorld ([] : list TokenBucket) [])
             [(hello, ∅, 1000); (again, ∅, 1000 + Second)] = Ok vs /\
    length vs = 2%nat.
Proof.
  apply (Chat_never_panics asciiIsLetter asciiIsUpper noPoW strictConfig strictFilter).
  reflexivity.
Defined.

End ChatFacts.

(** * The filters without state

    [KindFilter], [SizeFilter], [FreshnessFilter], [TagsFilter] and
    [KeywordFilter] keep nothing between calls: a constructor turns the
    configuration into maps from kinds to rules, and [Match] reads them. *)

(** ** Maps from kinds to rules

    The loop the constructors share:
    [for i := range rules { for _, kind := range rules[i].Kinds { m[kind] = v } }]
    where [v] is made from the index and the rule. *)
Module KindMap.

Section Build.
Context {R V : Type}.
Variable kinds : R -> list Z.
Variable entry : nat -> R -> V.

Fixpoint setKinds (ks : list Z) (v : V) (m : gmap Z V) : gmap Z V :=
  match ks with
  | [] => m
  | k :: rest => setKinds rest v (<[k := v]> m)
  end.

Fixpoint build (i : nat) (rules : list R) (m : gmap Z V) : gmap Z V :=
  match rules with
  | [] => m
  | r :: rest => build (S i) rest (setKinds (kinds r) (entry i r) m)
  end.

(** Rule [r], of index [i], is the last rule that lists kind [k]. *)
Definition governedBy (rules : list R) (k : Z) (i : nat) (r : R) : Prop :=
  rules !! i = Some r /\ k ∈ kinds r /\
  forall j r', (i < j)%nat -> rules !! j = Some r' -> k ∉ kinds r'.

(** No rule lists kind [k]. *)
Definition ungoverned (rules : list R) (k : Z) : Prop :=
  forall r, r ∈ rules -> k ∉ kinds r.

Lemma setKinds_lookup ks v m k :
  setKinds ks v m !! k = if bool_decide (k ∈ ks) then Some v else m !! k.
Proof.
  revert m. induction ks as [|a ks IH]; intros m; cbn [setKinds].
  - by rewrite bool_decide_eq_false_2 by apply not_elem_of_nil.
  - rewrite IH. destruct (bool_decide (k ∈ ks)) eqn:E.
    + apply bool_decide_eq_true in E.
      by rewrite bool_decide_eq_true_2 by (by right).
    + apply bool_decide_eq_false in E.
      destruct (decide (k = a)) as [->|Hne].
      * rewrite lookup_insert_eq.
        by rewrite bool_decide_eq_true_2 by left.
      * rewrite lookup_insert_ne by done.
        rewrite bool_decide_eq_false_2; [done|].
        intros [?|?]%elem_of_cons; done.
Qed.

Lemma build_lookup_from i rules m k :
  (ungoverned rules k /\ build i rules m !! k = m !! k) \/
  exists j r, governedBy rules k j r /\
              build i rules m !! k = Some (entry (i + j) r).
Proof.
  revert i m. induction rules as [|r rules IH]; intros i m; cbn [build].
  - left. split; [|done]. intros r Hr. by apply elem_of_nil in Hr.
  - destruct (IH (S i) (setKinds (kinds r) (entry i r) m))
      as [[Hnone Hlk] | (j & r' & (Hj & Hin & Hlast) & Hlk)].
    + rewrite setKinds_lookup in Hlk.
      destruct (bool_decide (k ∈ kinds r)) eqn:E.
      * apply bool_decide_eq_true in E. right. exists 0%nat, r.
        split; [|by rewrite Nat.add_0_r].
        split; [done|]. split; [done|].
        intros [|j'] r' Hlt Hr'; [lia|]. simpl in Hr'.
        apply Hnone. by eapply list_elem_of_lookup_2.
      * apply bool_decide_eq_false in E. left. split; [|done].
        intros r' [->|Hr']%elem_of_cons; [done|by apply Hnone].
    + right. exists (S j), r'. split.
      * split; [done|]. split; [done|].
        intros [|j'] r'' Hlt Hr''; [lia|]. simpl in Hr''.
        apply (Hlast j' r''); [lia|done].
      * rewrite Hlk. by replace (S i + j)%nat with (i + S j)%nat by lia.
Qed.

(** A kind that several rules list is mapped to the last of them. *)
Lemma build_lookup rules k :
  (ungoverned rules k /\ build 0 rules ∅ !! k = None) \/
  exists i r, governedBy rules k i r /\ build 0 rules ∅ !! k = Some (entry i r).
Proof.
  destruct (build_lookup_from 0 rules ∅ k) as [[Hn Hl]|(j & r & Hg & Hl)].
  - left. by rewrite Hl, lookup_empty.
  - right. exists j, r. by rewrite Hl.
Qed.

End Build.

End KindMap.

(** ** KindFilter ([policy/kind_filter.go]) *)
Module Kinds.

Record KindFilterConfig : Type := mkConfig {
  AllowedKinds : list Z;
  DeniedKinds : list Z
}.

(** The two maps are sets of kinds; [allowed] is nil ([None]) when the
    configuration lists no allowed kind. *)
Record KindFilter : Type := mkFilter {
  allowedMap : option (gset Z);
  deniedMap : gset Z
}.

Inductive KindError : Type :=
  | ErrDenied (kind : Z)
  | ErrNotAllowed (kind : Z).

(** [for _, kind := range kinds { m[kind] = struct{}{} }] *)
Fixpoint addAll (kinds : list Z) (m : gset Z) : gset Z :=
  match kinds with
  | [] => m
  | kind :: rest => addAll rest ({[kind]} ∪ m)
  end.

Definition NewKindFilter (cfg : KindFilterConfig) : KindFilter :=
  let deniedMap := addAll (DeniedKinds cfg) ∅ in
  let allowedMap :=
    if (0 <? length (AllowedKinds cfg))%nat
    then Some (addAll (AllowedKinds cfg) ∅) else None in
  mkFilter allowedMap deniedMap.

Definition Match (f : KindFilter) (event : Event) : Verdict KindError :=
  if bool_decide (Kind event ∈ deniedMap f) then rejected (ErrDenied (Kind event))
  else
    match allowedMap f with
    | Some a =>
        if bool_decide (Kind event ∈ a) then allowed
        else rejected (ErrNotAllowed (Kind event))
    | None => allowed
    end.

Lemma addAll_elem kinds m k : k ∈ addAll kinds m <-> k ∈ kinds \/ k ∈ m.
Proof.
  revert m. induction kinds as [|a kinds IH]; intros m; cbn [addAll].
  - rewrite elem_of_nil. tauto.
  - rewrite IH, elem_of_cons, elem_of_union, elem_of_singleton. tauto.
Qed.

(** X19.  The verdict in terms of the two lists of the configuration: a denied
    kind is rejected even if it is allowed as well; a kind that is not
    denied passes when the list of allowed kinds is empty or holds it. *)
Theorem Match_lists cfg event :
  Match (NewKindFilter cfg) event =
    if bool_decide (Kind event ∈ DeniedKinds cfg)
    then rejected (ErrDenied (Kind event))
    else if bool_decide (AllowedKinds cfg = []) ||
            bool_decide (Kind event ∈ AllowedKinds cfg)
    then allowed
    else rejected (ErrNotAllowed (Kind event)).
Proof.
  unfold Match, NewKindFilter. cbn [deniedMap allowedMap].
  assert (bool_decide (Kind event ∈ addAll (DeniedKinds cfg) ∅) =
          bool_decide (Kind event ∈ DeniedKinds cfg)) as ->.
  { apply bool_decide_ext. rewrite addAll_elem, elem_of_empty. tauto. }
  destruct (bool_decide (Kind event ∈ DeniedKinds cfg)); [done|].
  destruct (AllowedKinds cfg) as [|a rest] eqn:E; [done|].
  cbn [length Nat.ltb Nat.leb]. rewrite (bool_decide_eq_false_2 (_ = [])) by done.
  cbn [orb].
  assert (bool_decide (Kind event ∈ addAll (a :: rest) ∅) =
          bool_decide (Kind event ∈ a :: rest)) as ->; [|done].
  apply bool_decide_ext. rewrite addAll_elem, elem_of_empty. tauto.
Qed.

End Kinds.

(** ** SizeFilter ([policy/size_filter.go]) *)
Module Size.

Record SizeRule : Type := mkRule {
  Description : string;
  MaxSize : Z;
  Kinds : list Z
}.

Record SizeFilterConfig : Type := mkConfig {
  DefaultMaxSize : Z;
  Rules : list SizeRule
}.

Record SizeFilter : Type := mkFilter {
  cfg : option SizeFilterConfig;
  kindToRule : gmap Z SizeRule
}.

Inductive SizeError : Type :=
  | ErrMarshal
  | ErrTooLarge (size maxSize : Z) (description : string).

(** The constructor reads [len(cfg.Rules)] before it compares [cfg] with
    nil: a nil configuration is dereferenced. *)
Definition NewSizeFilter (cfg : option SizeFilterConfig) : Result SizeFilter :=
  match cfg with
  | None => Panic
  | Some c => Ok (mkFilter (Some c) (KindMap.build Kinds (fun _ rule => rule) 0 (Rules c) ∅))
  end.

Section WithMarshal.
(** [json.Marshal(event)]: the bytes, or an error. *)
Variable Marshal : Event -> option string.

Definition Match (f : SizeFilter) (event : Event) : Result (Verdict SizeError) :=
  match cfg f with
  | None => Panic
  | Some c =>
      let '(maxSize, description) :=
        match kindToRule f !! Kind event with
        | Some rule => (MaxSize rule, Description rule)
        | None => (DefaultMaxSize c, "default event"%string)
        end in
      if maxSize =? 0 then Ok allowed
      else
        match Marshal event with
        | None => Ok (rejected ErrMarshal)
        | Some raw =>
            let size := Z.of_nat (String.length raw) in
            if maxSize <? size
            then Ok (rejected (ErrTooLarge size maxSize description))
            else Ok allowed
        end
  end.

(** The limit that applies to a kind: [MaxSize] of the last rule that
    lists it, or [DefaultMaxSize]. *)
Definition limitOf (c : SizeFilterConfig) (kind limit : Z) : Prop :=
  (KindMap.ungoverned Kinds (Rules c) kind /\ limit = DefaultMaxSize c) \/
  exists i rule, KindMap.governedBy Kinds (Rules c) kind i rule /\ limit = MaxSize rule.

(** X20.  The constructor panics on a nil configuration.  On any other, the
    filter it makes allows an event exactly when the limit of its kind is
    zero, or the event is marshalled into at most that many bytes: zero
    means no limit, and under a negative limit nothing passes. *)
Theorem Match_limit c event :
  NewSizeFilter None = Panic /\
  exists f limit v,
    NewSizeFilter (Some c) = Ok f /\ limitOf c (Kind event) limit /\
    Match f event = Ok v /\
    (fst v = true <->
     limit = 0 \/
     exists raw, Marshal event = Some raw /\ Z.of_nat (String.length raw) <= limit).
Proof.
  split; [done|].
  exists (mkFilter (Some c) (KindMap.build Kinds (fun _ rule => rule) 0 (Rules c) ∅)).
  unfold NewSizeFilter, Match. cbn [cfg kindToRule].
  destruct (KindMap.build_lookup Kinds (fun _ rule => rule) (Rules c) (Kind event))
    as [[Hnone ->]|(i & rule & Hg & ->)].
  - exists (DefaultMaxSize c).
    assert (limitOf c (Kind event) (DefaultMaxSize c)) as Hl by (by left).
    destruct (DefaultMaxSize c =? 0) eqn:E.
    { apply Z.eqb_eq in E. eexists. split; [done|]. split; [done|]. split; [done|].
      simpl. split; [by left|done]. }
    apply Z.eqb_neq in E.
    destruct (Marshal event) as [raw|].
    + destruct (DefaultMaxSize c <? Z.of_nat (String.length raw)) eqn:E2;
        (eexists; split; [done|]; split; [done|]; split; [done|]); simpl.
      * apply Z.ltb_lt in E2. split; [done|].
        intros [?|(raw' & [= <-] & ?)]; [done|lia].
      * apply Z.ltb_ge in E2. split; [|done]. intros _. right. by exists raw.
    + eexists. split; [done|]. split; [done|]. split; [done|]. simpl.
      split; [done|]. intros [?|(raw' & [=] & ?)]; done.
  - exists (MaxSize rule).
    assert (limitOf c (Kind event) (MaxSize rule)) as Hl by (right; by exists i, rule).
    destruct (MaxSize rule =? 0) eqn:E.
    { apply Z.eqb_eq in E. eexists. split; [done|]. split; [done|]. split; [done|].
      simpl. split; [by left|done]. }
    apply Z.eqb_neq in E.
    destruct (Marshal event) as [raw|].
    + destruct (MaxSize rule <? Z.of_nat (String.length raw)) eqn:E2;
        (eexists; split; [done|]; split; [done|]; split; [done|]); simpl.
      * apply Z.ltb_lt in E2. split; [done|].
        intros [?|(raw' & [= <-] & ?)]; [done|lia].
      * apply Z.ltb_ge in E2. split; [|done]. intros _. right. by exists raw.
    + eexists. split; [done|]. split; [done|]. split; [done|]. simpl.
      split; [done|]. intros [?|(raw' & [=] & ?)]; done.
Qed.

End WithMarshal.

End Size.

(** ** FreshnessFilter ([policy/freshness_filter.go]) *)
Module Freshness.

Record FreshnessRule : Type := mkRule {
  Kinds : list Z;
  MaxPast : Duration;
  MaxFuture : Duration
}.

Record FreshnessFilterConfig : Type := mkConfig {
  DefaultMaxPast : Duration;
  DefaultMaxFuture : Duration;
  Rules : list FreshnessRule
}.

Record timeLimits : Type := mkLimits {
  limitPast : Duration;
  limitFuture : Duration
}.

Record FreshnessFilter : Type := mkFilter {
  cfg : option FreshnessFilterConfig;
  rulesByKind : gmap Z timeLimits
}.

Inductive FreshnessError : Type :=
  | ErrTooOld (age : Duration)
  | ErrFuture (offset : Duration).

Definition minDuration : Duration := - 2 ^ 63.
Definition maxDuration : Duration := 2 ^ 63 - 1.

(** [time.Unix(sec, 0)], as nanoseconds. *)
Definition unixTime (sec : Z) : Time := sec * Second.

(** [t.Sub(u)] of two instants: the difference, or the nearest duration
    when the difference is not one. *)
Definition Sub (t u : Time) : Duration :=
  if t - u <? minDuration then minDuration
  else if maxDuration <? t - u then maxDuration
  else t - u.

Definition NewFreshnessFilter (cfg : option FreshnessFilterConfig) : FreshnessFilter :=
  let rulesByKind :=
    match cfg with
    | Some c =>
        KindMap.build Kinds (fun _ rule => mkLimits (MaxPast rule) (MaxFuture rule))
                      0 (Rules c) ∅
    | None => ∅
    end in
  mkFilter cfg rulesByKind.

(** [Match]; the record [Event] holds the fields the other filters read,
    so [event.CreatedAt], in seconds, comes beside it, and the reading of
    the clock after it. *)
Definition Match (f : FreshnessFilter) (event : Event) (createdAt : Z) (now : Time)
    : Result (Verdict FreshnessError) :=
  match cfg f with
  | None => Panic
  | Some c =>
      let '(maxPast, maxFuture) :=
        match rulesByKind f !! Kind event with
        | Some limits => (limitPast limits, limitFuture limits)
        | None => (DefaultMaxPast c, DefaultMaxFuture c)
        end in
      let age := Sub now (unixTime createdAt) in
      let futureOffset := Sub (unixTime createdAt) now in
      if (0 <? maxPast) && (maxPast <? age) then Ok (rejected (ErrTooOld age))
      else if (0 <? maxFuture) && (maxFuture <? futureOffset)
      then Ok (rejected (ErrFuture futureOffset))
      else Ok allowed
  end.

(** The limits that apply to a kind: those of the last rule that lists
    it, both of them, or the two defaults. *)
Definition limitsOf (c : FreshnessFilterConfig) (kind : Z) (maxPast maxFuture : Duration)
    : Prop :=
  (KindMap.ungoverned Kinds (Rules c) kind /\
   maxPast = DefaultMaxPast c /\ maxFuture = DefaultMaxFuture c) \/
  exists i rule, KindMap.governedBy Kinds (Rules c) kind i rule /\
                 maxPast = MaxPast rule /\ maxFuture = MaxFuture rule.

Lemma Sub_exact t u :
  Z.abs (t - u) <= maxDuration -> Sub t u = t - u.
Proof.
  unfold Sub, minDuration, maxDuration. intros Hd.
  assert ((t - u <? - 2 ^ 63) = false) as -> by (apply Z.ltb_ge; lia).
  assert ((2 ^ 63 - 1 <? t - u) = false) as -> by (apply Z.ltb_ge; lia).
  done.
Qed.

(** X21.  For an event stamped within the range of a duration of the clock,
    the filter made from a configuration allows it exactly when its
    timestamp is in the window of its kind: not more than [maxPast] before
    the clock and not more than [maxFuture] after it, where a limit that
    is not positive leaves its side of the window open.  The limits of a
    rule replace both defaults. *)
Theorem Match_window c event createdAt now :
  Z.abs (now - unixTime createdAt) <= maxDuration ->
  exists maxPast maxFuture v,
    limitsOf c (Kind event) maxPast maxFuture /\
    Match (NewFreshnessFilter (Some c)) event createdAt now = Ok v /\
    (fst v = true <->
     (maxPast <= 0 \/ now - unixTime createdAt <= maxPast) /\
     (maxFuture <= 0 \/ unixTime createdAt - now <= maxFuture)).
Proof.
  intros Hrange.
  assert (exists maxPast maxFuture,
            limitsOf c (Kind event) maxPast maxFuture /\
            match rulesByKind (NewFreshnessFilter (Some c)) !! Kind event with
            | Some limits => (limitPast limits, limitFuture limits)
            | None => (DefaultMaxPast c, DefaultMaxFuture c)
            end = (maxPast, maxFuture)) as (maxPast & maxFuture & Hl & Hres).
  { unfold NewFreshnessFilter. cbn [rulesByKind].
    destruct (KindMap.build_lookup Kinds
                (fun _ rule => mkLimits (MaxPast rule) (MaxFuture rule))
                (Rules c) (Kind event)) as [[Hnone ->]|(i & rule & Hg & ->)].
    - eexists _, _. split; [|done]. by left.
    - eexists _, _. split; [|done]. right. by exists i, rule. }
  exists maxPast, maxFuture. unfold Match. cbn [cfg NewFreshnessFilter].
  cbn [NewFreshnessFilter] in Hres. rewrite Hres.
  rewrite !Sub_exact by lia.
  destruct ((0 <? maxPast) && (maxPast <? now - unixTime createdAt)) eqn:E1.
  { eexists. split; [done|]. split; [done|]. simpl.
    apply andb_true_iff in E1 as [?%Z.ltb_lt ?%Z.ltb_lt]. split; [done|]. lia. }
  destruct ((0 <? maxFuture) && (maxFuture <? unixTime createdAt - now)) eqn:E2.
  { eexists. split; [done|]. split; [done|]. simpl.
    apply andb_true_iff in E2 as [?%Z.ltb_lt ?%Z.ltb_lt]. split; [done|]. lia. }
  eexists. split; [done|]. split; [done|]. simpl. split; [|done]. intros _.
  apply andb_false_iff in E1, E2.
  rewrite !Z.ltb_ge in E1, E2. lia.
Qed.

(** An hour of tolerance in the past by default; notes may be a day old. *)
Definition exampleConfig : FreshnessFilterConfig :=
  {| DefaultMaxPast := Hour; DefaultMaxFuture := Minute;
     Rules := [mkRule [1] (24 * Hour) 0] |}.

Lemma Match_window_witness :
  exists maxPast maxFuture v,
    limitsOf exampleConfig 1 maxPast maxFuture /\
    Match (NewFreshnessFilter (Some exampleConfig)) (mkEvent 1 "alice" "hello" [])
          1700000000 (unixTime 1700003600) = Ok v /\
    (fst v = true <->
     (maxPast <= 0 \/ unixTime 1700003600 - unixTime 1700000000 <= maxPast) /\
     (maxFuture <= 0 \/ unixTime 1700000000 - unixTime 1700003600 <= maxFuture)).
Proof.
  apply (Match_window exampleConfig (mkEvent 1 "alice" "hello" []) 1700000000
           (unixTime 1700003600)).
  vm_compute. discriminate.
Defined.

End Freshness.

(** ** TagsFilter ([policy/tags_filter.go]) *)
Module TagFilter.

Record TagRule : Type := mkRule {
  Description : string;
  Kinds : list Z;
  MaxTags : option Z;
  RequiredTags : list string;
  MaxTagCounts : gmap string Z
}.

Record TagsFilterConfig : Type := mkConfig {
  Rules : list TagRule
}.

Record processedTagRule : Type := mkProcessed {
  source : TagRule;
  requiredTags : gset string;
  maxTagCounts : gmap string Z
}.

Record TagsFilter : Type := mkFilter {
  kindToRule : gmap Z processedTagRule
}.

Inductive TagsError : Type :=
  | ErrTooManyTags (description : string) (got max : Z)
  | ErrMissingTag (tag description : string)
  | ErrTooManyOf (tagName description : string) (got max : Z).

(** [for _, req := range reqs { s[req] = struct{}{} }] *)
Fixpoint addRequired (reqs : list string) (s : gset string) : gset string :=
  match reqs with
  | [] => s
  | req :: rest => addRequired rest ({[req]} ∪ s)
  end.

(** [m[key] = val] for the pairs in the order given. *)
Fixpoint addCounts (pairs : list (string * Z)) (m : gmap string Z) : gmap string Z :=
  match pairs with
  | [] => m
  | (key, val) :: rest => addCounts rest (<[key := val]> m)
  end.

(** The first required tag, in the order given, that was not found. *)
Fixpoint firstMissing (reqs : list string) (requiredFound : gmap string bool)
    : option string :=
  match reqs with
  | [] => None
  | reqTag :: rest =>
      if negb (default false (requiredFound !! reqTag)) then Some reqTag
      else firstMissing rest requiredFound
  end.

(** The first tag name, in the order given, that occurs more often than
    its limit, with the count and the limit. *)
Fixpoint firstExceeded (limits : list (string * Z)) (specificTagCounts : gmap string Z)
    : option (string * Z * Z) :=
  match limits with
  | [] => None
  | (tagName, limit) :: rest =>
      let count := default 0 (specificTagCounts !! tagName) in
      if limit <? count then Some (tagName, count, limit)
      else firstExceeded rest specificTagCounts
  end.

(** The loop over the tags of the event: a tag without a name is skipped;
    a count is at most the number of tags. *)
Fixpoint scanTags (p : processedTagRule) (tags : list (list string))
    (requiredFound : gmap string bool) (specificTagCounts : gmap string Z)
    : gmap string bool * gmap string Z :=
  match tags with
  | [] => (requiredFound, specificTagCounts)
  | tag :: rest =>
      match tag with
      | [] => scanTags p rest requiredFound specificTagCounts
      | tagName :: _ =>
          if String.eqb tagName "" then scanTags p rest requiredFound specificTagCounts
          else
            let counts :=
              if bool_decide (is_Some (maxTagCounts p !! tagName))
              then <[tagName := default 0 (specificTagCounts !! tagName) + 1]>
                     specificTagCounts
              else specificTagCounts in
            let found :=
              if bool_decide (tagName ∈ requiredTags p)
              then <[tagName := true]> requiredFound
              else requiredFound in
            scanTags p rest found counts
      end
  end.

Section WithOrder.
(** The order in which [range] visits a map is not specified: it is any
    order of the keys of the set, and of the entries of the map. *)
Variable rangeSet : gset string -> list string.
Variable rangeMap : gmap string Z -> list (string * Z).
Hypothesis rangeSet_perm : forall s, rangeSet s ≡ₚ elements s.
Hypothesis rangeMap_perm : forall m, rangeMap m ≡ₚ map_to_list m.

Definition process (rule : TagRule) : processedTagRule :=
  mkProcessed rule
    (if (0 <? length (RequiredTags rule))%nat
     then addRequired (RequiredTags rule) ∅ else ∅)
    (if (0 <? size (MaxTagCounts rule))%nat
     then addCounts (rangeMap (MaxTagCounts rule)) ∅ else ∅).

Definition NewTagsFilter (cfg : option TagsFilterConfig) : TagsFilter :=
  mkFilter
    match cfg with
    | Some c => KindMap.build Kinds (fun _ rule => process rule) 0 (Rules c) ∅
    | None => ∅
    end.

(** The block of [Match] that looks at the names of the tags. *)
Definition checkTags (processedRule : processedTagRule) (event : Event)
    : Verdict TagsError :=
  let rule := source processedRule in
  if (0 <? size (requiredTags processedRule))%nat ||
     (0 <? size (maxTagCounts processedRule))%nat
  then
    let '(requiredFound, specificTagCounts) :=
      scanTags processedRule (Tags event) ∅ ∅ in
    match firstMissing (rangeSet (requiredTags processedRule)) requiredFound with
    | Some reqTag => rejected (ErrMissingTag reqTag (Description rule))
    | None =>
        match firstExceeded (rangeMap (maxTagCounts processedRule)) specificTagCounts with
        | Some (tagName, count, limit) =>
            rejected (ErrTooManyOf tagName (Description rule) count limit)
        | None => allowed
        end
    end
  else allowed.

(** [Match] once the rule of the kind is found. *)
Definition matchRule (processedRule : processedTagRule) (event : Event)
    : Verdict TagsError :=
  let rule := source processedRule in
  match MaxTags rule with
  | Some maxTags =>
      if maxTags <? Z.of_nat (length (Tags event))
      then rejected (ErrTooManyTags (Description rule)
                                    (Z.of_nat (length (Tags event))) maxTags)
      else checkTags processedRule event
  | None => checkTags processedRule event
  end.

Definition Match (f : TagsFilter) (event : Event) : Verdict TagsError :=
  match kindToRule f !! Kind event with
  | None => allowed
  | Some processedRule => matchRule processedRule event
  end.

(** *** What a rule asks of an event *)

(** The name of a tag that has one. *)
Definition tagName (tag : list string) : option string :=
  match tag with
  | name :: _ => if String.eqb name "" then None else Some name
  | [] => None
  end.

Definition tagNames (tags : list (list string)) : list string := omap tagName tags.

(** How many tags have the name. *)
Definition occurrences (name : string) (tags : list (list string)) : Z :=
  Z.of_nat (length (filter (fun n => n = name) (tagNames tags))).

Definition satisfies (rule : TagRule) (event : Event) : Prop :=
  (forall maxTags, MaxTags rule = Some maxTags ->
     Z.of_nat (length (Tags event)) <= maxTags) /\
  (forall req, req ∈ RequiredTags rule -> req ∈ tagNames (Tags event)) /\
  (forall name limit, MaxTagCounts rule !! name = Some limit ->
     occurrences name (Tags event) <= limit).

Lemma addRequired_elem reqs s t : t ∈ addRequired reqs s <-> t ∈ reqs \/ t ∈ s.
Proof.
  revert s. induction reqs as [|a reqs IH]; intros s; cbn [addRequired].
  - rewrite elem_of_nil. tauto.
  - rewrite IH, elem_of_cons, elem_of_union, elem_of_singleton. tauto.
Qed.

Lemma process_required rule t :
  t ∈ requiredTags (process rule) <-> t ∈ RequiredTags rule.
Proof.
  unfold process. cbn [requiredTags].
  destruct (RequiredTags rule) as [|a l] eqn:E; cbn [length Nat.ltb Nat.leb].
  - rewrite elem_of_nil, elem_of_empty. tauto.
  - rewrite addRequired_elem, elem_of_empty. tauto.
Qed.

Lemma addCounts_lookup pairs m k v :
  NoDup (pairs.*1) ->
  addCounts pairs m !! k = Some v <->
  (k, v) ∈ pairs \/ ((k ∉ pairs.*1) /\ m !! k = Some v).
Proof.
  revert m. induction pairs as [|[a b] pairs IH]; intros m Hnd; cbn [addCounts].
  - rewrite elem_of_nil. simpl. rewrite elem_of_nil. tauto.
  - cbn [fmap list_fmap fst] in Hnd. apply NoDup_cons in Hnd as [Ha Hnd].
    rewrite (IH _ Hnd). cbn [fmap list_fmap fst]. rewrite !elem_of_cons.
    destruct (decide (k = a)) as [->|Hne].
    + rewrite lookup_insert_eq. split.
      * intros [Hin|[_ [= ->]]]; [|by left; left].
        destruct Ha. apply list_elem_of_fmap. by exists (a, v).
      * intros [[[= ->]|Hin]|[Hn _]].
        -- right. done.
        -- by left.
        -- destruct Hn. by left.
    + rewrite lookup_insert_ne by done. split.
      * intros [Hin|[Hn Hm]]; [by left; right|]. right. split; [|done].
        intros [?|?]; done.
      * intros [[[= -> _]|Hin]|[Hn Hm]]; [done|by left|].
        right. split; [|done]. intros ?. apply Hn. by right.
Qed.

Lemma process_counts rule : maxTagCounts (process rule) = MaxTagCounts rule.
Proof.
  unfold process. cbn [maxTagCounts].
  destruct (size (MaxTagCounts rule)) eqn:E; cbn [Nat.ltb Nat.leb].
  - symmetry. by apply map_size_empty_inv.
  - clear E. apply map_eq. intros k. apply option_eq. intros v.
    assert (NoDup (rangeMap (MaxTagCounts rule)).*1) as Hnd.
    { rewrite (rangeMap_perm (MaxTagCounts rule)). apply NoDup_fst_map_to_list. }
    rewrite (addCounts_lookup _ _ _ _ Hnd), lookup_empty.
    rewrite (rangeMap_perm (MaxTagCounts rule)), elem_of_map_to_list.
    split; [intros [?|[_ [=]]]; done|tauto].
Qed.

Definition wasFound (requiredFound : gmap string bool) (t : string) : Prop :=
  default false (requiredFound !! t) = true.

Definition countOf (specificTagCounts : gmap string Z) (name : string) : Z :=
  default 0 (specificTagCounts !! name).

Lemma scanTags_spec p tags found counts :
  let '(found', counts') := scanTags p tags found counts in
  (forall t, wasFound found' t <->
             wasFound found t \/ (t ∈ requiredTags p /\ t ∈ tagNames tags)) /\
  (forall name, countOf counts' name =
                countOf counts name +
                if bool_decide (is_Some (maxTagCounts p !! name))
                then occurrences name tags else 0).
Proof.
  revert found counts. induction tags as [|tag tags IH]; intros found counts.
  - cbn [scanTags]. split.
    + intros t. unfold tagNames. simpl. rewrite elem_of_nil. tauto.
    + intros name. unfold occurrences. simpl. destruct (bool_decide _); lia.
  - cbn [scanTags]. destruct tag as [|name0 rest0].
    { specialize (IH found counts). destruct (scanTags p tags found counts). exact IH. }
    destruct (String.eqb name0 "") eqn:E0.
    { specialize (IH found counts). destruct (scanTags p tags found counts).
      unfold tagNames, occurrences, tagNames in *. cbn [omap list_omap tagName].
      rewrite E0. exact IH. }
    match goal with |- context [scanTags p tags ?f ?c] =>
      specialize (IH f c); destruct (scanTags p tags f c) as [found' counts'] end.
    destruct IH as [IHf IHc].
    assert (tagNames ((name0 :: rest0) :: tags) = name0 :: tagNames tags) as Hnames.
    { unfold tagNames. cbn [omap list_omap tagName]. by rewrite E0. }
    split.
    + intros t. rewrite IHf, Hnames, elem_of_cons. unfold wasFound.
      destruct (bool_decide (name0 ∈ requiredTags p)) eqn:Er.
      * apply bool_decide_eq_true in Er.
        destruct (decide (t = name0)) as [->|Hne].
        -- rewrite lookup_insert_eq. simpl. tauto.
        -- rewrite lookup_insert_ne by done. tauto.
      * apply bool_decide_eq_false in Er.
        split; [tauto|]. intros [?|[Ht [->|?]]]; tauto.
    + intros name. rewrite IHc. unfold countOf, occurrences. rewrite Hnames.
      rewrite filter_cons.
      destruct (decide (name = name0)) as [->|Hne].
      * rewrite decide_True by done.
        destruct (bool_decide (is_Some (maxTagCounts p !! name0))).
        -- rewrite lookup_insert_eq. simpl length. simpl default. lia.
        -- lia.
      * rewrite decide_False by done.
        destruct (bool_decide (is_Some (maxTagCounts p !! name0)));
          [rewrite lookup_insert_ne by done|]; done.
Qed.

Lemma firstMissing_None reqs found :
  firstMissing reqs found = None <-> forall t, t ∈ reqs -> wasFound found t.
Proof.
  unfold wasFound. induction reqs as [|a reqs IH]; cbn [firstMissing].
  - split; [|done]. intros _ t Ht. by apply elem_of_nil in Ht.
  - destruct (default false (found !! a)) eqn:E; cbn [negb].
    + rewrite IH. split.
      * intros Hall t [->|Ht]%elem_of_cons; [done|by apply Hall].
      * intros Hall t Ht. apply Hall. by right.
    + split; [done|]. intros Hall. specialize (Hall a ltac:(by left)). congruence.
Qed.

Lemma firstExceeded_None limits counts :
  firstExceeded limits counts = None <->
  forall name limit, (name, limit) ∈ limits -> countOf counts name <= limit.
Proof.
  unfold countOf. induction limits as [|[a b] limits IH]; cbn [firstExceeded].
  - split; [|done]. intros _ n l Hl. by apply elem_of_nil in Hl.
  - destruct (b <? default 0 (counts !! a)) eqn:E.
    + apply Z.ltb_lt in E. split; [done|]. intros Hall.
      specialize (Hall a b ltac:(by left)). lia.
    + apply Z.ltb_ge in E. rewrite IH. split.
      * intros Hall n l [[= -> ->]|Hl]%elem_of_cons; [done|by apply Hall].
      * intros Hall n l Hl. apply Hall. by right.
Qed.

Lemma checkTags_process rule event :
  fst (checkTags (process rule) event) = true <->
  (forall req, req ∈ RequiredTags rule -> req ∈ tagNames (Tags event)) /\
  (forall name limit, MaxTagCounts rule !! name = Some limit ->
     occurrences name (Tags event) <= limit).
Proof.
  unfold checkTags.
  pose proof (scanTags_spec (process rule) (Tags event) ∅ ∅) as Hscan.
  pose proof (process_counts rule) as Hcounts.
  pose proof (process_required rule) as Hreqs.
  set (p := process rule) in *.
  assert (forall t, ~ wasFound ∅ t) as Hnone by (intros t; unfold wasFound; by rewrite lookup_empty).
  assert (forall n, countOf ∅ n = 0) as Hzero by (intros n; unfold countOf; by rewrite lookup_empty).
  destruct ((0 <? size (requiredTags p))%nat || (0 <? size (maxTagCounts p))%nat) eqn:G.
  - destruct (scanTags p (Tags event) ∅ ∅) as [found counts].
    destruct Hscan as [Hf Hc].
    assert (firstMissing (rangeSet (requiredTags p)) found = None <->
            forall req, req ∈ RequiredTags rule -> req ∈ tagNames (Tags event)) as HM.
    { rewrite firstMissing_None. split.
      - intros Hall req Hreq.
        assert (wasFound found req) as Hw.
        { apply Hall. rewrite (rangeSet_perm (requiredTags p)), elem_of_elements.
          by apply Hreqs. }
        apply Hf in Hw as [Hw|[_ Hw]]; [by destruct (Hnone req)|done].
      - intros Hall t Ht.
        rewrite (rangeSet_perm (requiredTags p)), elem_of_elements in Ht.
        apply Hf. right. split; [done|]. by apply Hall, Hreqs. }
    assert (firstExceeded (rangeMap (maxTagCounts p)) counts = None <->
            forall name limit, MaxTagCounts rule !! name = Some limit ->
              occurrences name (Tags event) <= limit) as HE.
    { rewrite firstExceeded_None. split.
      - intros Hall name limit Hl.
        assert (countOf counts name <= limit) as Hle.
        { apply Hall. rewrite (rangeMap_perm (maxTagCounts p)), elem_of_map_to_list.
          by rewrite Hcounts. }
        rewrite Hc, Hzero, Hcounts, Hl in Hle.
        rewrite bool_decide_eq_true_2 in Hle by (by eexists). lia.
      - intros Hall name limit Hin.
        rewrite (rangeMap_perm (maxTagCounts p)), elem_of_map_to_list, Hcounts in Hin.
        rewrite Hc, Hzero, Hcounts, Hin.
        rewrite bool_decide_eq_true_2 by (by eexists).
        specialize (Hall name limit Hin). lia. }
    destruct (firstMissing (rangeSet (requiredTags p)) found) as [reqTag|].
    { simpl. split; [done|]. intros [H1 _]. apply HM in H1. done. }
    destruct (firstExceeded (rangeMap (maxTagCounts p)) counts) as [[[n c] l]|].
    { simpl. split; [done|]. intros [_ H2]. apply HE in H2. done. }
    simpl. split; [intros _|done]. split; [by apply HM|by apply HE].
  - apply orb_false_iff in G as [G1 G2].
    apply Nat.ltb_ge in G1, G2.
    assert (size (requiredTags p) = 0%nat) as S1 by lia.
    assert (size (maxTagCounts p) = 0%nat) as S2 by lia.
    apply size_empty_inv in S1. apply map_size_empty_inv in S2.
    simpl. split; [intros _|done]. split.
    + intros req Hreq. apply Hreqs in Hreq. apply S1 in Hreq.
      by apply elem_of_empty in Hreq.
    + intros name limit Hl. rewrite <- Hcounts, S2, lookup_empty in Hl. done.
Qed.

(** The verdict on an event whose kind has a rule. *)
Lemma matchRule_process rule event :
  fst (matchRule (process rule) event) = true <-> satisfies rule event.
Proof.
  unfold matchRule, satisfies. change (source (process rule)) with rule.
  rewrite <- checkTags_process.
  destruct (MaxTags rule) as [m|] eqn:Em.
  - destruct (m <? Z.of_nat (length (Tags event))) eqn:E.
    + apply Z.ltb_lt in E. simpl. split; [done|]. intros [Hm _].
      specialize (Hm m eq_refl). lia.
    + apply Z.ltb_ge in E. split; [|tauto]. intros Hc. split; [|done].
      by intros m' [= <-].
  - split; [|tauto]. intros Hc. split; [|done]. done.
Qed.

(** X22.  A filter made from no configuration allows everything.  One made
    from a configuration allows the events of a kind that no rule lists;
    an event of another kind is judged by the last rule that lists its
    kind, and is allowed exactly when it has no more tags than [MaxTags],
    every required tag occurs among the names of its tags, and no name
    occurs more often than its limit in [MaxTagCounts].  The order in
    which the maps are visited has no part in the verdict. *)
Theorem Match_rule cfg event :
  (forall ev, Match (NewTagsFilter None) ev = allowed) /\
  ((KindMap.ungoverned Kinds (Rules cfg) (Kind event) /\
    Match (NewTagsFilter (Some cfg)) event = allowed) \/
   exists i rule,
     KindMap.governedBy Kinds (Rules cfg) (Kind event) i rule /\
     (fst (Match (NewTagsFilter (Some cfg)) event) = true <-> satisfies rule event)).
Proof.
  split; [done|]. unfold Match, NewTagsFilter. cbn [kindToRule].
  destruct (KindMap.build_lookup Kinds (fun _ rule => process rule)
              (Rules cfg) (Kind event)) as [[Hnone ->]|(i & rule & Hg & ->)].
  - by left.
  - right. exists i, rule. split; [done|]. apply matchRule_process.
Qed.

End WithOrder.

(** *** An example: notes need a subject and may mention five keys *)

Definition exampleRule : TagRule :=
  {| Description := "notes"; Kinds := [1]; MaxTags := Some 10;
     RequiredTags := ["subject"%string];
     MaxTagCounts := {[ "p"%string := 5 ]} |}.

Definition exampleConfig : TagsFilterConfig := {| Rules := [exampleRule] |}.

Definition tagged : Event :=
  mkEvent 1 "alice" "hello" [["subject"; "greetings"]; ["p"; "bob"]; [""; "x"]]%string.

Definition untagged : Event := mkEvent 1 "alice" "hello" [["p"; "bob"]]%string.

Example example_verdicts :
  Match elements map_to_list (NewTagsFilter map_to_list (Some exampleConfig)) tagged
    = allowed /\
  Match elements map_to_list (NewTagsFilter map_to_list (Some exampleConfig)) untagged
    = rejected (ErrMissingTag "subject" "notes").
Proof. by vm_compute. Qed.

Lemma Match_rule_witness :
  (KindMap.ungoverned Kinds (Rules exampleConfig) (Kind tagged) /\
   Match elements map_to_list (NewTagsFilter map_to_list (Some exampleConfig)) tagged
     = allowed) \/
  exists i rule,
    KindMap.governedBy Kinds (Rules exampleConfig) (Kind tagged) i rule /\
    (fst (Match elements map_to_list (NewTagsFilter map_to_list (Some exampleConfig)) tagged)
       = true <-> satisfies rule tagged).
Proof.
  exact (proj2 (Match_rule elements map_to_list
                  (fun s => reflexivity (elements s))
                  (fun m => reflexivity (map_to_list m))
                  exampleConfig tagged)).
Defined.

End TagFilter.

(** ** KeywordFilter *)
Module Keyword.

Record KeywordRule : Type := mkRule {
  Description : string;
  Kinds : list Z;
  Words : list string;
  Regexps : list string
}.

Record KeywordFilterConfig : Type := mkConfig {
  Enabled : bool;
  Rules : list KeywordRule
}.

(** The errors of the constructor and the rejection of [Match]. *)
Inductive KeywordError : Type :=
  | ErrCompileWord (word : string)
  | ErrCompileRegexp (rx description : string)
  | ErrForbidden (source description : string).

(** [regexp.QuoteMeta]: a backslash before each of the characters
    [\.+*?()|[]{}^$]. *)
Definition special (c : ascii) : bool :=
  existsb (Ascii.eqb c) (list_ascii_of_string "\.+*?()|[]{}^$").

Fixpoint QuoteMeta (s : string) : string :=
  match s with
  | EmptyString => EmptyString
  | String c rest =>
      if special c then String "\" (String c (QuoteMeta rest))
      else String c (QuoteMeta rest)
  end.

(** The expression compiled for a word. *)
Definition wordPattern (word : string) : string :=
  "(?i)\b" +:+ QuoteMeta word +:+ "\b".

Section WithRegexp.
(** The [regexp] package: compiled expressions, [regexp.Compile], which
    can fail, and [MatchString]. *)
Context {Regexp : Type}.
Variable Compile : string -> option Regexp.
Variable MatchString : Regexp -> string -> bool.

Record compiledKeywordRule : Type := mkCompiled {
  source : string;
  description : string;
  regex : Regexp
}.

Record KeywordFilter : Type := mkFilter {
  enabled : bool;
  kindToRules : gmap Z (list compiledKeywordRule)
}.

(** [for _, kind := range kinds { kindMap[kind] = append(kindMap[kind], ckr) }] *)
Fixpoint appendToKinds (kinds : list Z) (ckr : compiledKeywordRule)
    (kindMap : gmap Z (list compiledKeywordRule)) : gmap Z (list compiledKeywordRule) :=
  match kinds with
  | [] => kindMap
  | kind :: rest =>
      appendToKinds rest ckr (<[kind := default [] (kindMap !! kind) ++ [ckr]]> kindMap)
  end.

Fixpoint addWords (rule : KeywordRule) (words : list string)
    (kindMap : gmap Z (list compiledKeywordRule))
    : KeywordError + gmap Z (list compiledKeywordRule) :=
  match words with
  | [] => inr kindMap
  | word :: rest =>
      match Compile (wordPattern word) with
      | None => inl (ErrCompileWord word)
      | Some compiled =>
          addWords rule rest
            (appendToKinds (Kinds rule) (mkCompiled word (Description rule) compiled) kindMap)
      end
  end.

Fixpoint addRegexps (rule : KeywordRule) (regexps : list string)
    (kindMap : gmap Z (list compiledKeywordRule))
    : KeywordError + gmap Z (list compiledKeywordRule) :=
  match regexps with
  | [] => inr kindMap
  | rx :: rest =>
      match Compile rx with
      | None => inl (ErrCompileRegexp rx (Description rule))
      | Some compiled =>
          addRegexps rule rest
            (appendToKinds (Kinds rule) (mkCompiled rx (Description rule) compiled) kindMap)
      end
  end.

Fixpoint addRules (rules : list KeywordRule)
    (kindMap : gmap Z (list compiledKeywordRule))
    : KeywordError + gmap Z (list compiledKeywordRule) :=
  match rules with
  | [] => inr kindMap
  | rule :: rest =>
      match addWords rule (Words rule) kindMap with
      | inl e => inl e
      | inr m1 =>
          match addRegexps rule (Regexps rule) m1 with
          | inl e => inl e
          | inr m2 => addRules rest m2
          end
      end
  end.

Definition NewKeywordFilter (cfg : KeywordFilterConfig) : KeywordError + KeywordFilter :=
  if negb (Enabled cfg) then inr (mkFilter false ∅)
  else
    match addRules (Rules cfg) ∅ with
    | inl e => inl e
    | inr kindMap => inr (mkFilter (Enabled cfg) kindMap)
    end.

(** The loop of [Match]: the first rule that matches. *)
Fixpoint firstMatch (rules : list compiledKeywordRule) (content : string)
    : option compiledKeywordRule :=
  match rules with
  | [] => None
  | rule :: rest =>
      if MatchString (regex rule) content then Some rule else firstMatch rest content
  end.

Definition Match (f : KeywordFilter) (event : Event) : Verdict KeywordError :=
  if negb (enabled f) then allowed
  else
    match kindToRules f !! Kind event with
    | None => allowed
    | Some rules =>
        match firstMatch rules (Content event) with
        | Some rule => rejected (ErrForbidden (source rule) (description rule))
        | None => allowed
        end
    end.

(** *** The patterns of a rule *)

(** The expressions of a rule, each with the text it comes from: the
    words, then the regular expressions. *)
Definition patterns (rule : KeywordRule) : list (string * string) :=
  ((fun word => (word, wordPattern word)) <$> Words rule) ++
  ((fun rx => (rx, rx)) <$> Regexps rule).

(** Some pattern of the rule matches the content. *)
Definition ruleMatches (rule : KeywordRule) (content : string) : Prop :=
  exists src expr re,
    (src, expr) ∈ patterns rule /\ Compile expr = Some re /\
    MatchString re content = true.

(** Some pattern of the rule is refused by [regexp.Compile]. *)
Definition ruleInvalid (rule : KeywordRule) : Prop :=
  exists src expr, (src, expr) ∈ patterns rule /\ Compile expr = None.

Definition entries (m : gmap Z (list compiledKeywordRule)) (k : Z)
    : list compiledKeywordRule :=
  default [] (m !! k).

(** What the constructor stores for a pattern of a rule. *)
Definition compiledFrom (rule : KeywordRule) (x : compiledKeywordRule) : Prop :=
  exists src expr,
    (src, expr) ∈ patterns rule /\ Compile expr = Some (regex x) /\
    source x = src /\ description x = Description rule.

Lemma appendToKinds_elem kinds ckr m k x :
  x ∈ entries (appendToKinds kinds ckr m) k <->
  x ∈ entries m k \/ (x = ckr /\ k ∈ kinds).
Proof.
  revert m. induction kinds as [|a kinds IH]; intros m; cbn [appendToKinds].
  - rewrite elem_of_nil. tauto.
  - rewrite IH, elem_of_cons. unfold entries at 1.
    destruct (decide (k = a)) as [->|Hne].
    + rewrite lookup_insert_eq. simpl. rewrite elem_of_app, list_elem_of_singleton.
      unfold entries. tauto.
    + rewrite lookup_insert_ne by done. unfold entries. tauto.
Qed.

Lemma addWords_elem rule words m m' k x :
  addWords rule words m = inr m' ->
  x ∈ entries m' k <->
  x ∈ entries m k \/
  (k ∈ Kinds rule /\
   exists w, w ∈ words /\ Compile (wordPattern w) = Some (regex x) /\
             source x = w /\ description x = Description rule).
Proof.
  revert m. induction words as [|w words IH]; intros m; cbn [addWords].
  - intros [= <-]. split; [tauto|]. intros [?|(_ & w & Hw & _)]; [done|].
    by apply elem_of_nil in Hw.
  - destruct (Compile (wordPattern w)) as [re|] eqn:E; [|done].
    intros Hm. rewrite (IH _ Hm), appendToKinds_elem. split.
    + intros [[?|[-> Hk]]|(Hk & w' & Hw' & HC)].
      * by left.
      * right. split; [done|]. exists w. split; [by left|done].
      * right. split; [done|]. exists w'. split; [by right|done].
    + intros [?|(Hk & w' & [->|Hw']%elem_of_cons & HC & Hs & Hd)].
      * by left; left.
      * left; right. split; [|done]. destruct x as [s d r]. simpl in *.
        rewrite E in HC. by simplify_eq.
      * right. split; [done|]. by exists w'.
Qed.

Lemma addRegexps_elem rule regexps m m' k x :
  addRegexps rule regexps m = inr m' ->
  x ∈ entries m' k <->
  x ∈ entries m k \/
  (k ∈ Kinds rule /\
   exists rx, rx ∈ regexps /\ Compile rx = Some (regex x) /\
              source x = rx /\ description x = Description rule).
Proof.
  revert m. induction regexps as [|w words IH]; intros m; cbn [addRegexps].
  - intros [= <-]. split; [tauto|]. intros [?|(_ & w & Hw & _)]; [done|].
    by apply elem_of_nil in Hw.
  - destruct (Compile w) as [re|] eqn:E; [|done].
    intros Hm. rewrite (IH _ Hm), appendToKinds_elem. split.
    + intros [[?|[-> Hk]]|(Hk & w' & Hw' & HC)].
      * by left.
      * right. split; [done|]. exists w. split; [by left|done].
      * right. split; [done|]. exists w'. split; [by right|done].
    + intros [?|(Hk & w' & [->|Hw']%elem_of_cons & HC & Hs & Hd)].
      * by left; left.
      * left; right. split; [|done]. destruct x as [s d r]. simpl in *.
        rewrite E in HC. by simplify_eq.
      * right. split; [done|]. by exists w'.
Qed.

Lemma compiledFrom_iff rule x :
  compiledFrom rule x <->
  (exists w, w ∈ Words rule /\ Compile (wordPattern w) = Some (regex x) /\
             source x = w /\ description x = Description rule) \/
  (exists rx, rx ∈ Regexps rule /\ Compile rx = Some (regex x) /\
              source x = rx /\ description x = Description rule).
Proof.
  unfold compiledFrom, patterns. split.
  - intros (src & expr & Hin & HC & Hs & Hd).
    apply elem_of_app in Hin as [Hin|Hin]; apply list_elem_of_fmap in Hin as (y & [= -> ->] & Hy).
    + left. by exists y.
    + right. by exists y.
  - intros [(w & Hw & HC & Hs & Hd)|(rx & Hrx & HC & Hs & Hd)].
    + exists w, (wordPattern w). split; [|done].
      apply elem_of_app. left. apply list_elem_of_fmap. by exists w.
    + exists rx, rx. split; [|done].
      apply elem_of_app. right. apply list_elem_of_fmap. by exists rx.
Qed.

Lemma addRules_elem rules m m' k x :
  addRules rules m = inr m' ->
  x ∈ entries m' k <->
  x ∈ entries m k \/
  exists rule, rule ∈ rules /\ k ∈ Kinds rule /\ compiledFrom rule x.
Proof.
  revert m. induction rules as [|rule rules IH]; intros m; cbn [addRules].
  - intros [= <-]. split; [tauto|]. intros [?|(r & Hr & _)]; [done|].
    by apply elem_of_nil in Hr.
  - destruct (addWords rule (Words rule) m) as [e|m1] eqn:E1; [done|].
    destruct (addRegexps rule (Regexps rule) m1) as [e|m2] eqn:E2; [done|].
    intros Hm. rewrite (IH _ Hm), (addRegexps_elem _ _ _ _ k x E2),
      (addWords_elem _ _ _ _ k x E1). split.
    + intros [[[?|[Hk Hw]]|[Hk Hrx]]|(r & Hr & Hk & Hc)].
      * by left.
      * right. exists rule. split; [by left|]. split; [done|].
        apply compiledFrom_iff. by left.
      * right. exists rule. split; [by left|]. split; [done|].
        apply compiledFrom_iff. by right.
      * right. exists r. split; [by right|done].
    + intros [?|(r & [->|Hr]%elem_of_cons & Hk & Hc)].
      * by left; left; left.
      * apply compiledFrom_iff in Hc as [Hw|Hrx].
        -- left; left; right. done.
        -- left; right. done.
      * right. by exists r.
Qed.

Lemma firstMatch_Some rules content :
  is_Some (firstMatch rules content) <->
  exists x, x ∈ rules /\ MatchString (regex x) content = true.
Proof.
  induction rules as [|r rules IH]; cbn [firstMatch].
  - split; [by intros [? [=]]|]. intros (x & Hx & _). by apply elem_of_nil in Hx.
  - destruct (MatchString (regex r) content) eqn:E.
    + split; [|by eexists]. intros _. exists r. split; [by left|done].
    + rewrite IH. split.
      * intros (x & Hx & HM). exists x. split; [by right|done].
      * intros (x & [->|Hx]%elem_of_cons & HM); [congruence|by exists x].
Qed.

(** X23.  Unlike the filters in which the last rule for a kind replaces the
    others, the rules of the keyword filter add up: the filter the
    constructor makes from an enabled configuration rejects an event
    exactly when some word or regular expression of some rule that lists
    the kind of the event matches its content. *)
Theorem Match_any_rule cfg f event :
  NewKeywordFilter cfg = inr f -> Enabled cfg = true ->
  fst (Match f event) = false <->
  exists rule, rule ∈ Rules cfg /\ Kind event ∈ Kinds rule /\
               ruleMatches rule (Content event).
Proof.
  unfold NewKeywordFilter. intros Hnew He. rewrite He in Hnew. cbn [negb] in Hnew.
  destruct (addRules (Rules cfg) ∅) as [e|m] eqn:E; [done|]. injection Hnew as <-.
  unfold Match. cbn [enabled kindToRules negb].
  assert (forall x, x ∈ default [] (m !! Kind event) <->
            exists rule, rule ∈ Rules cfg /\ Kind event ∈ Kinds rule /\
                         compiledFrom rule x) as Hent.
  { intros x. pose proof (addRules_elem _ _ _ (Kind event) x E) as H1.
    unfold entries in H1. rewrite H1, lookup_empty. simpl.
    rewrite elem_of_nil. tauto. }
  assert (fst (match firstMatch (default [] (m !! Kind event)) (Content event) with
               | Some rule => rejected (ErrForbidden (source rule) (description rule))
               | None => allowed
               end) = false <->
          exists rule, rule ∈ Rules cfg /\ Kind event ∈ Kinds rule /\
                       ruleMatches rule (Content event)) as Hmain.
  { pose proof (firstMatch_Some (default [] (m !! Kind event)) (Content event)) as HF.
    split.
    - intros Hrej.
      destruct (firstMatch (default [] (m !! Kind event)) (Content event)); [|done].
      destruct (proj1 HF ltac:(by eexists)) as (x & Hx & HM).
      apply Hent in Hx as (rule & Hr & Hk & src & expr & Hin & HC & _).
      exists rule. split; [done|]. split; [done|]. by exists src, expr, (regex x).
    - intros (rule & Hr & Hk & src & expr & re & Hin & HC & HM).
      assert (is_Some (firstMatch (default [] (m !! Kind event)) (Content event)))
        as [y ->]; [|done].
      apply HF. exists (mkCompiled src (Description rule) re). split; [|done].
      apply Hent. exists rule. split; [done|]. split; [done|]. by exists src, expr. }
  destruct (m !! Kind event) as [rules|] eqn:El; [exact Hmain|].
  simpl in Hmain. exact Hmain.
Qed.

Lemma addWords_fails rule words m :
  (exists e, addWords rule words m = inl e) <->
  exists w, w ∈ words /\ Compile (wordPattern w) = None.
Proof.
  revert m. induction words as [|w words IH]; intros m; cbn [addWords].
  - split; [by intros [? [=]]|]. intros (w & Hw & _). by apply elem_of_nil in Hw.
  - destruct (Compile (wordPattern w)) eqn:E.
    + rewrite IH. split.
      * intros (w' & Hw' & HC). exists w'. split; [by right|done].
      * intros (w' & [->|Hw']%elem_of_cons & HC); [congruence|by exists w'].
    + split; [|by eexists]. intros _. exists w. split; [by left|done].
Qed.

Lemma addRegexps_fails rule regexps m :
  (exists e, addRegexps rule regexps m = inl e) <->
  exists rx, rx ∈ regexps /\ Compile rx = None.
Proof.
  revert m. induction regexps as [|w words IH]; intros m; cbn [addRegexps].
  - split; [by intros [? [=]]|]. intros (w & Hw & _). by apply elem_of_nil in Hw.
  - destruct (Compile w) eqn:E.
    + rewrite IH. split.
      * intros (w' & Hw' & HC). exists w'. split; [by right|done].
      * intros (w' & [->|Hw']%elem_of_cons & HC); [congruence|by exists w'].
    + split; [|by eexists]. intros _. exists w. split; [by left|done].
Qed.

Lemma ruleInvalid_iff rule :
  ruleInvalid rule <->
  (exists w, w ∈ Words rule /\ Compile (wordPattern w) = None) \/
  (exists rx, rx ∈ Regexps rule /\ Compile rx = None).
Proof.
  unfold ruleInvalid, patterns. split.
  - intros (src & expr & Hin & HC).
    apply elem_of_app in Hin as [Hin|Hin]; apply list_elem_of_fmap in Hin as (y & [= -> ->] & Hy).
    + left. by exists y.
    + right. by exists y.
  - intros [(w & Hw & HC)|(rx & Hrx & HC)].
    + exists w, (wordPattern w). split; [|done].
      apply elem_of_app. left. apply list_elem_of_fmap. by exists w.
    + exists rx, rx. split; [|done].
      apply elem_of_app. right. apply list_elem_of_fmap. by exists rx.
Qed.

Lemma addRules_fails rules m :
  (exists e, addRules rules m = inl e) <->
  exists rule, rule ∈ rules /\ ruleInvalid rule.
Proof.
  revert m. induction rules as [|rule rules IH]; intros m; cbn [addRules].
  - split; [by intros [? [=]]|]. intros (r & Hr & _). by apply elem_of_nil in Hr.
  - pose proof (addWords_fails rule (Words rule) m) as HW.
    destruct (addWords rule (Words rule) m) as [e|m1].
    { split; [|by eexists]. intros _. exists rule. split; [by left|].
      apply ruleInvalid_iff. left. apply HW. by eexists. }
    pose proof (addRegexps_fails rule (Regexps rule) m1) as HR.
    destruct (addRegexps rule (Regexps rule) m1) as [e|m2].
    { split; [|by eexists]. intros _. exists rule. split; [by left|].
      apply ruleInvalid_iff. right. apply HR. by eexists. }
    rewrite IH. split.
    + intros (r & Hr & Hi). exists r. split; [by right|done].
    + intros (r & [->|Hr]%elem_of_cons & Hi); [|by exists r].
      apply ruleInvalid_iff in Hi as [Hi|Hi].
      * apply HW in Hi as [e [=]].
      * apply HR in Hi as [e [=]].
Qed.

(** X24.  The constructor returns an error exactly when the configuration is
    enabled and [regexp.Compile] refuses a pattern of one of its rules,
    whether or not the rule lists any kind; a disabled configuration is
    not compiled at all. *)
Theorem NewKeywordFilter_error cfg :
  (exists e, NewKeywordFilter cfg = inl e) <->
  Enabled cfg = true /\ exists rule, rule ∈ Rules cfg /\ ruleInvalid rule.
Proof.
  unfold NewKeywordFilter. destruct (Enabled cfg); cbn [negb].
  - rewrite <- (addRules_fails (Rules cfg) ∅).
    destruct (addRules (Rules cfg) ∅) as [e|m].
    + split; [intros _; split; [done|by exists e]|intros _; by exists e].
    + split; [intros [? [=]]|intros [_ [? [=]]]].
  - split; [intros [? [=]]|intros [[=] _]].
Qed.

End WithRegexp.

(** *** An example, with a stand-in for the [regexp] package: every
    expression compiles, and matches the content that is equal to it *)

Definition literalCompile (expr : string) : option string := Some expr.

Definition literalMatch (re content : string) : bool := String.eqb re content.

Definition exampleConfig : KeywordFilterConfig :=
  {| Enabled := true;
     Rules := [mkRule "spam" [1; 30023] [] ["buy now"%string];
               mkRule "scam" [1] [] ["free money"%string]] |}.

Definition exampleFilter : KeywordFilter :=
  match NewKeywordFilter literalCompile exampleConfig with
  | inr f => f
  | inl _ => mkFilter false ∅
  end.

Definition advert : Event := mkEvent 1 "mallory" "buy now" [].

Example example_first_rule :
  Match literalMatch exampleFilter advert = rejected (ErrForbidden "buy now" "spam") /\
  Match literalMatch exampleFilter (mkEvent 1 "mallory" "free money" [])
    = rejected (ErrForbidden "free money" "scam") /\
  Match literalMatch exampleFilter (mkEvent 30023 "mallory" "free money" []) = allowed.
Proof. by vm_compute. Qed.

Lemma Match_any_rule_witness :
  fst (Match literalMatch exampleFilter advert) = false <->
  exists rule, rule ∈ Rules exampleConfig /\ Kind advert ∈ Kinds rule /\
               ruleMatches literalCompile literalMatch rule (Content advert).
Proof.
  exact (Match_any_rule literalCompile literalMatch exampleConfig exampleFilter advert
           eq_refl eq_refl).
Defined.

End Keyword.
